(** * note-composer: the audio playback core, embedded and verified

    The development follows the TypeScript sources:
    - [AudioEngine]               src/audio/AudioEngine.ts
    - [IndividualPlaybackManager] src/audio/IndividualPlaybackManager.ts
    - [NodeManager]               src/audio/NodeManager.ts
    - [FileHandling]              src/utils/fileHandling.ts
    - [ExportManager]             components/Recording/ExportManager.tsx (both variants)
    - [App]                       the handlers of App.tsx
    - [SessionRecorder]           components/Recording/SessionRecorder.tsx
    - [PlayAllButton]             components/PlayAllButton.tsx
    - [GestureRecognizer]         src/utils/gestures.ts

    JavaScript numbers that carry times, durations and gains are modelled by
    exact rationals [Q]: the code only subtracts, compares and clamps them, and
    rounding of binary64 arithmetic is not part of the model.  Byte sizes are
    integers.  JavaScript [Map]s keyed by node id are [gmap string _].  Objects
    created by the Web Audio context (buffer sources, gain nodes) carry a
    numeric identity drawn from a counter in the engine state; the context's
    clock is an argument [now] of every operation that reads it.  Callbacks
    (the end of a buffer, a tick of the tracking interval) are operations of
    their own, delivered one at a time between the calls, as the
    single-threaded event loop does. *)

From Stdlib Require Import QArith Qround Qabs Lqa Ascii String DecimalString.
From stdpp Require Import gmap strings list fin_maps.

Open Scope Q_scope.

(** ** JavaScript number helpers *)

Module Js.

(** [a < b] on numbers. *)
Definition ltb (a b : Q) : bool := negb (Qle_bool b a).

(** [Math.min(a, b)] and [Math.max(a, b)]. *)
Definition min (a b : Q) : Q := if Qle_bool a b then a else b.
Definition max (a b : Q) : Q := if Qle_bool a b then b else a.

(** [Math.max(0, Math.min(1, v))]. *)
Definition clamp01 (v : Q) : Q := max 0 (min 1 v).

(** [Math.floor(v)]. *)
Definition floor (v : Q) : Z := Qfloor v.

(** The rounding towards zero behind [%]. *)
Definition trunc (v : Q) : Z := if Qle_bool 0 v then Qfloor v else Qceiling v.

(** [a % b]: the remainder takes the sign of the dividend. *)
Definition rem (a b : Q) : Q := a - b * inject_Z (trunc (a / b)).

(** [n.toString()] and [`${n}`] on an integer: its decimal digits, with a
    minus sign when negative.  This is the notation JavaScript uses for
    integers below 10^21. *)
Definition toString (n : Z) : string := NilZero.string_of_int (Z.to_int n).

(** [s.padStart(targetLength, padChar)] for a pad string of one character. *)
Definition padStart (targetLength : nat) (padChar : ascii) (s : string) : string :=
  (string_of_list_ascii (repeat padChar (targetLength - String.length s)) ++ s)%string.

End Js.

(** ** Web Audio objects *)

(** A decoded [AudioBuffer]: an asset tag and its duration in seconds. *)
Record AudioBuffer := mkBuffer { asset : nat; duration : Q }.

(** An [AudioBufferSourceNode], the single-use playback unit.  [src_owner] is
    the [nodeId] captured by its [onended] closure, [src_out] the gain node it
    is connected to, [src_offset] the offset given to [start]. *)
Record AudioBufferSourceNode := mkSource {
  src_id : nat;
  src_owner : string;
  src_buffer : AudioBuffer;
  src_loop : bool;
  src_out : nat;
  src_offset : Q
}.

(** A [GainNode] with its [gain.value]. *)
Record GainNode := mkGain { gain_id : nat; gain_value : Q }.

(** The units the context is currently rendering.  [start] adds a unit,
    [stop] (or the end of the buffer) removes it; stopping a unit that is no
    longer rendered is the exception the code catches and ignores. *)
Definition same_unit (s u : AudioBufferSourceNode) : bool :=
  Nat.eqb (src_id s) (src_id u).

Definition halt (s : AudioBufferSourceNode) (live : list AudioBufferSourceNode)
  : list AudioBufferSourceNode :=
  filter (fun u => same_unit s u = false) live.

(** How many units of node [n] are being rendered. *)
Definition live_units (n : string) (live : list AudioBufferSourceNode) : nat :=
  length (filter (fun u => src_owner u = n) live).

(** ** AudioEngine.ts *)

Module AudioEngine.

Record NodePlaybackState := mkState {
  source : option AudioBufferSourceNode;
  gainNode : GainNode;
  isPlaying : bool;
  isPaused : bool;
  startTime : Q;
  pauseTime : Q;
  volume : Q;
  isMuted : bool
}.

(** The engine object.  [initialized] stands for [audioContext] and
    [masterGain] being non-null (they are set together by [initialize]);
    [sounding] is the context's set of rendering units and [fresh] its
    supply of object identities. *)
Record t := mkEngine {
  initialized : bool;
  masterGain : Q;
  activeNodes : gmap string AudioBufferSourceNode;
  nodeStates : gmap string NodePlaybackState;
  sounding : list AudioBufferSourceNode;
  fresh : nat
}.

Definition create : t :=
  mkEngine false 0 ∅ ∅ [] 0.

Definition initialize (e : t) : t :=
  if initialized e then e
  else mkEngine true 0.7 (activeNodes e) (nodeStates e) (sounding e) (fresh e).

(** Field updates of the shared [nodeState] object. *)
Definition halted (st : NodePlaybackState) : NodePlaybackState :=
  mkState None (gainNode st) false false
          (startTime st) (pauseTime st) (volume st) (isMuted st).

Definition ended_state (st : NodePlaybackState) : NodePlaybackState :=
  mkState None (gainNode st) false (isPaused st)
          (startTime st) (pauseTime st) (volume st) (isMuted st).

Definition stopNode (e : t) (nodeId : string) : t :=
  let '(active, live) :=
    match activeNodes e !! nodeId with
    | Some activeNode => (delete nodeId (activeNodes e), halt activeNode (sounding e))
    | None => (activeNodes e, sounding e)
    end in
  mkEngine (initialized e) (masterGain e) active
           (alter halted nodeId (nodeStates e)) live (fresh e).

Definition playAudioBuffer (e : t) (nodeId : string) (audioBuffer : AudioBuffer)
           (loop : bool) (now : Q) : t :=
  if negb (initialized e) then e else
  let e1 := stopNode e nodeId in
  let gain := mkGain (S (fresh e1)) 1 in
  let src := mkSource (fresh e1) nodeId audioBuffer loop (gain_id gain) 0 in
  let st0 :=
    match nodeStates e1 !! nodeId with
    | Some st => st
    | None => mkState None gain false false 0 0 1 false
    end in
  let st := mkState (Some src) gain true false now 0 (volume st0) (isMuted st0) in
  mkEngine (initialized e1) (masterGain e1)
           (<[nodeId := src]> (activeNodes e1))
           (<[nodeId := st]> (nodeStates e1))
           (src :: sounding e1)
           (S (S (fresh e1))).

Definition pauseNode (e : t) (nodeId : string) (now : Q) : t :=
  match nodeStates e !! nodeId with
  | Some st =>
      if isPlaying st && negb (isPaused st) then
        let live :=
          match source st with
          | Some s => halt s (sounding e)
          | None => sounding e
          end in
        let st' := mkState (source st) (gainNode st) false true (startTime st)
                           (if initialized e then now else 0)
                           (volume st) (isMuted st) in
        mkEngine (initialized e) (masterGain e)
                 (delete nodeId (activeNodes e))
                 (<[nodeId := st']> (nodeStates e)) live (fresh e)
      else e
  | None => e
  end.

(** The offset [resumeNode] hands to [source.start]: [Some o] for
    [source.start(0, o)], [None] for the plain [source.start()]. *)
Definition resumeOffset (st : NodePlaybackState) (audioBuffer : AudioBuffer)
  : option Q :=
  let elapsedTime := pauseTime st - startTime st in
  let startOffset := Js.max 0 (Js.min elapsedTime (duration audioBuffer)) in
  if Js.ltb 0.01 startOffset && Js.ltb startOffset (duration audioBuffer)
  then Some startOffset else None.

Definition resumeNode (e : t) (nodeId : string) (audioBuffer : AudioBuffer)
           (now : Q) : t :=
  match nodeStates e !! nodeId with
  | Some st =>
      if isPaused st && initialized e then
        let elapsedTime := pauseTime st - startTime st in
        let '(off, start) :=
          match resumeOffset st audioBuffer with
          | Some o => (o, now - elapsedTime)
          | None => (0, now)
          end in
        let src := mkSource (fresh e) nodeId audioBuffer false
                            (gain_id (gainNode st)) off in
        let st' := mkState (Some src) (gainNode st) true false start
                           (pauseTime st) (volume st) (isMuted st) in
        mkEngine (initialized e) (masterGain e)
                 (<[nodeId := src]> (activeNodes e))
                 (<[nodeId := st']> (nodeStates e))
                 (src :: sounding e)
                 (S (fresh e))
      else e
  | None => e
  end.

(** The body of the [onended] closure that [playAudioBuffer] and
    [resumeNode] install on a source; [nodeId] is the id the closure holds. *)
Definition endedHandler (e : t) (nodeId : string) : t :=
  mkEngine (initialized e) (masterGain e)
           (delete nodeId (activeNodes e))
           (alter ended_state nodeId (nodeStates e))
           (sounding e) (fresh e).

(** The natural end: the rendering unit of identity [unit] reaches the end of
    its buffer, leaves the rendering units, and its closure runs.  A context
    sends [ended] also to a source the code has stopped with [stop()], after
    the call that stopped it has returned; that late event runs
    [endedHandler] alone, the unit being out of the rendering units already.
    The runs of [Op] below are made of the calls into the engine and of
    natural ends. *)
Definition onended (e : t) (unit : nat) : t :=
  match find (fun u => Nat.eqb unit (src_id u)) (sounding e) with
  | Some s =>
      endedHandler (mkEngine (initialized e) (masterGain e) (activeNodes e)
                             (nodeStates e) (halt s (sounding e)) (fresh e))
                   (src_owner s)
  | None => e
  end.

Definition isNodePaused (e : t) (nodeId : string) : bool :=
  match nodeStates e !! nodeId with
  | Some st => isPaused st
  | None => false
  end.

Definition isNodePlaying (e : t) (nodeId : string) : bool :=
  bool_decide (is_Some (activeNodes e !! nodeId)).

Definition setNodeVolume (e : t) (nodeId : string) (v : Q) : t :=
  match nodeStates e !! nodeId with
  | Some st =>
      let vol := Js.clamp01 v in
      let st' := mkState (source st)
                         (mkGain (gain_id (gainNode st))
                                 (if isMuted st then 0 else vol))
                         (isPlaying st) (isPaused st) (startTime st)
                         (pauseTime st) vol (isMuted st) in
      mkEngine (initialized e) (masterGain e) (activeNodes e)
               (<[nodeId := st']> (nodeStates e)) (sounding e) (fresh e)
  | None => e
  end.

Definition muteNode (e : t) (nodeId : string) : t :=
  match nodeStates e !! nodeId with
  | Some st =>
      let st' := mkState (source st) (mkGain (gain_id (gainNode st)) 0)
                         (isPlaying st) (isPaused st) (startTime st)
                         (pauseTime st) (volume st) true in
      mkEngine (initialized e) (masterGain e) (activeNodes e)
               (<[nodeId := st']> (nodeStates e)) (sounding e) (fresh e)
  | None => e
  end.

Definition unmuteNode (e : t) (nodeId : string) : t :=
  match nodeStates e !! nodeId with
  | Some st =>
      let st' := mkState (source st)
                         (mkGain (gain_id (gainNode st)) (volume st))
                         (isPlaying st) (isPaused st) (startTime st)
                         (pauseTime st) (volume st) false in
      mkEngine (initialized e) (masterGain e) (activeNodes e)
               (<[nodeId := st']> (nodeStates e)) (sounding e) (fresh e)
  | None => e
  end.

Definition getNodeState (e : t) (nodeId : string) : option NodePlaybackState :=
  nodeStates e !! nodeId.

(** The gain currently applied to the node's gain stage. *)
Definition effectiveGain (e : t) (nodeId : string) : option Q :=
  (fun st => gain_value (gainNode st)) <$> nodeStates e !! nodeId.

(** [stopAllNodes]: the [forEach] visits every key [activeNodes] holds when
    it starts; the callback deletes only the key it is visiting.  The order of
    the visits is the insertion order of the [Map], which the [gmap] does not
    record; [stopNode] on two ids commutes ([stopNode_comm] below), so any
    order gives the same engine. *)
Definition stopAllNodes (e : t) : t :=
  foldl stopNode e (map_to_list (activeNodes e)).*1.


(** The calls and callbacks the engine receives, and a run of them from a
    given engine. *)
Inductive Op :=
| Initialize
| Play (nodeId : string) (audioBuffer : AudioBuffer) (loop : bool) (now : Q)
| Pause (nodeId : string) (now : Q)
| Resume (nodeId : string) (audioBuffer : AudioBuffer) (now : Q)
| Stop (nodeId : string)
| Ended (unit : nat)
| SetVolume (nodeId : string) (v : Q)
| Mute (nodeId : string)
| Unmute (nodeId : string).

Definition step (e : t) (op : Op) : t :=
  match op with
  | Initialize => initialize e
  | Play nodeId audioBuffer loop now => playAudioBuffer e nodeId audioBuffer loop now
  | Pause nodeId now => pauseNode e nodeId now
  | Resume nodeId audioBuffer now => resumeNode e nodeId audioBuffer now
  | Stop nodeId => stopNode e nodeId
  | Ended unit => onended e unit
  | SetVolume nodeId v => setNodeVolume e nodeId v
  | Mute nodeId => muteNode e nodeId
  | Unmute nodeId => unmuteNode e nodeId
  end.

Definition run (ops : list Op) (e : t) : t := foldl step e ops.

End AudioEngine.

(** ** IndividualPlaybackManager.ts *)

Module IndividualPlaybackManager.

(** [IndividualNodeState] of [../types]; the declaration is not among the
    sources, the fields are those the manager reads and writes. *)
Record IndividualNodeState := mkState {
  isPlaying : bool;
  isPaused : bool;
  currentTime : Q;
  audioSource : option AudioBufferSourceNode;
  pausedAt : option Q
}.

(** The closure of one [setInterval] started by [startTimeTracking]: the
    interval handle and the two values it captured.  An interval is armed
    exactly as long as [timeTrackers] holds it: every [clearInterval] in the
    class is paired with the removal or replacement of the entry. *)
Record Tracker := mkTracker {
  interval : nat;
  trk_startTime : Q;
  startRealTime : Q
}.

Record t := mkManager {
  nodeStates : gmap string IndividualNodeState;
  timeTrackers : gmap string Tracker;
  sounding : list AudioBufferSourceNode;
  fresh : nat
}.

Definition create : t := mkManager ∅ ∅ [] 0.

Definition initializeNode (m : t) (nodeId : string) : t :=
  mkManager (<[nodeId := mkState false false 0 None None]> (nodeStates m))
            (timeTrackers m) (sounding m) (fresh m).

Definition stopNode (m : t) (nodeId : string) : t :=
  match nodeStates m !! nodeId with
  | None => m
  | Some state =>
      let live :=
        match audioSource state with
        | Some s => halt s (sounding m)
        | None => sounding m
        end in
      mkManager (<[nodeId := mkState false false 0 None None]> (nodeStates m))
                (delete nodeId (timeTrackers m)) live (fresh m)
  end.

Definition startTimeTracking (m : t) (nodeId : string) (startTime now : Q) : t :=
  mkManager (nodeStates m)
            (<[nodeId := mkTracker (fresh m) startTime now]> (timeTrackers m))
            (sounding m) (S (fresh m)).

(** [playNode] reads [state] before it calls [stopNode]; [stopNode] stores a
    new object, so the captured [state] keeps the paused flag and position
    the node had on entry.  The stored position of a paused node is never
    negative, and the [RangeError] of [start] on a negative offset is not
    modelled. *)
Definition playNode (m : t) (nodeId : string) (audioBuffer : AudioBuffer)
           (now : Q) : t :=
  match nodeStates m !! nodeId with
  | None => m
  | Some state =>
      let m1 := stopNode m nodeId in
      let startTime := if isPaused state then currentTime state else 0 in
      let startOffset := if isPaused state then currentTime state else 0 in
      let src := mkSource (fresh m1) nodeId audioBuffer false
                          (S (fresh m1)) startOffset in
      let m2 :=
        mkManager (<[nodeId := mkState true false startTime (Some src)
                                       (pausedAt state)]> (nodeStates m1))
                  (timeTrackers m1) (src :: sounding m1) (S (S (fresh m1))) in
      startTimeTracking m2 nodeId startTime now
  end.

Definition pauseNode (m : t) (nodeId : string) (now : Q) : t :=
  match nodeStates m !! nodeId with
  | None => m
  | Some state =>
      if negb (isPlaying state) then m else
      let live :=
        match audioSource state with
        | Some s => halt s (sounding m)
        | None => sounding m
        end in
      mkManager (<[nodeId := mkState false true (currentTime state) None
                                     (Some now)]> (nodeStates m))
                (delete nodeId (timeTrackers m)) live (fresh m)
  end.

Definition toggleNode (m : t) (nodeId : string) (audioBuffer : AudioBuffer)
           (now : Q) : t :=
  match nodeStates m !! nodeId with
  | None => m
  | Some state =>
      if isPlaying state then pauseNode m nodeId now
      else playNode m nodeId audioBuffer now
  end.

(** One firing of the tracking interval of [nodeId], at clock [now]. *)
Definition tick (m : t) (nodeId : string) (now : Q) : t :=
  match timeTrackers m !! nodeId with
  | None => m
  | Some trk =>
      match nodeStates m !! nodeId with
      | Some state =>
          if isPlaying state then
            let elapsed := now - startRealTime trk in
            mkManager (<[nodeId := mkState (isPlaying state) (isPaused state)
                                           (trk_startTime trk + elapsed)
                                           (audioSource state)
                                           (pausedAt state)]> (nodeStates m))
                      (timeTrackers m) (sounding m) (fresh m)
          else
            mkManager (nodeStates m) (delete nodeId (timeTrackers m))
                      (sounding m) (fresh m)
      | None =>
          mkManager (nodeStates m) (delete nodeId (timeTrackers m))
                    (sounding m) (fresh m)
      end
  end.

(** The [onended] closure installed by [playNode] calls [stopNode] on the
    [nodeId] it holds.  Here it runs for the natural end of the rendering unit
    of identity [unit], as [AudioEngine.onended] does. *)
Definition onended (m : t) (unit : nat) : t :=
  match find (fun u => Nat.eqb unit (src_id u)) (sounding m) with
  | Some s =>
      stopNode (mkManager (nodeStates m) (timeTrackers m)
                          (halt s (sounding m)) (fresh m))
               (src_owner s)
  | None => m
  end.

Definition getNodeState (m : t) (nodeId : string) : option IndividualNodeState :=
  nodeStates m !! nodeId.

Definition playAllNodes (m : t) (nodeIds : list string)
           (audioBuffers : gmap string AudioBuffer) (now : Q) : t :=
  foldl (fun m nodeId =>
           match audioBuffers !! nodeId with
           | Some audioBuffer => playNode m nodeId audioBuffer now
           | None => m
           end) m nodeIds.

Definition pauseAllNodes (m : t) (nodeIds : list string) (now : Q) : t :=
  foldl (fun m nodeId => pauseNode m nodeId now) m nodeIds.

(** [dispose]: every interval is cleared and [timeTrackers] emptied, then
    [stopNode] runs for every key of [nodeStates]; [stopNode] stores under the
    key it is called with and adds none.  As for [AudioEngine.stopAllNodes],
    the order of the visits is that of the [gmap]; [stopNode] on two ids
    commutes ([stopNode_comm_m] below). *)
Definition dispose (m : t) : t :=
  foldl stopNode (mkManager (nodeStates m) ∅ (sounding m) (fresh m))
        (map_to_list (nodeStates m)).*1.

(** The calls and callbacks the manager receives once its nodes are
    registered, and a run of them. *)
Inductive Op :=
| Play (nodeId : string) (audioBuffer : AudioBuffer) (now : Q)
| Pause (nodeId : string) (now : Q)
| Stop (nodeId : string)
| Toggle (nodeId : string) (audioBuffer : AudioBuffer) (now : Q)
| Tick (nodeId : string) (now : Q)
| Ended (unit : nat).

Definition step (m : t) (op : Op) : t :=
  match op with
  | Play nodeId audioBuffer now => playNode m nodeId audioBuffer now
  | Pause nodeId now => pauseNode m nodeId now
  | Stop nodeId => stopNode m nodeId
  | Toggle nodeId audioBuffer now => toggleNode m nodeId audioBuffer now
  | Tick nodeId now => tick m nodeId now
  | Ended unit => onended m unit
  end.

Definition run (ops : list Op) (m : t) : t := foldl step m ops.

Definition registered (nodeIds : list string) : t :=
  foldl initializeNode create nodeIds.

(** The playback position the tracker of [nodeId] would record at clock
    [now]: the formula of the interval callback. *)
Definition position (m : t) (nodeId : string) (now : Q) : option Q :=
  (fun trk => trk_startTime trk + (now - startRealTime trk)) <$> timeTrackers m !! nodeId.

End IndividualPlaybackManager.

(** ** fileHandling.ts *)

(** A browser [File]: name, byte size, declared MIME type, and what
    [decodeAudioData] yields on its bytes ([None] when decoding fails). *)
Record File := mkFile {
  file_name : string;
  file_size : Z;
  file_type : string;
  file_audio : option AudioBuffer
}.

Module FileHandling.

Record Validation := mkValidation { isValid : bool; error : option string }.

Definition maxSize : Z := 30 * 1024 * 1024.

Definition allowedTypes : list string :=
  ["audio/mpeg"; "audio/wav"; "audio/mp4"; "audio/ogg"; "audio/aac"].

Definition tooLarge : string := "File too large. Maximum size is 30MB.".

Definition unsupported : string :=
  "Unsupported file format. Please use MP3, WAV, M4A, OGG, or AAC.".

Definition validateAudioFile (file : File) : Validation :=
  if (maxSize <? file_size file)%Z then mkValidation false (Some tooLarge)
  else if negb (bool_decide (file_type file ∈ allowedTypes))
       then mkValidation false (Some unsupported)
       else mkValidation true None.

(** [generateWaveformData(audioBuffer, samples)] on the samples that
    [audioBuffer.getChannelData(0)] returns.  An entry is [None] where the
    code divides 0 by 0 and pushes [NaN]. *)
Definition generateWaveformData (channelData : list Q) (samples : nat)
  : list (option Q) :=
  let blockSize := (length channelData / samples)%nat in
  (fun i =>
     let start := (i * blockSize)%nat in
     let stop := Nat.min (start + blockSize) (length channelData) in
     let sum := foldl (fun sum v => sum + Qabs v) 0
                      (take (stop - start) (drop start channelData)) in
     if Nat.eqb (stop - start) 0 then None
     else Some (sum / inject_Z (Z.of_nat (stop - start))))
  <$> seq 0 samples.

Definition formatDuration (seconds : Q) : string :=
  let mins := Js.floor (seconds / 60) in
  let secs := Js.floor (Js.rem seconds 60) in
  (Js.toString mins ++ ":" ++ Js.padStart 2 "0" (Js.toString secs))%string.

End FileHandling.

(** ** NodeManager.ts *)

Module NodeManager.

(** [AudioNode] of [types]. *)
Record AudioNode := mkNode {
  id : string;
  x : Q;
  y : Q;
  audioBuffer : option AudioBuffer;
  fileName : string;
  isPlaying : bool;
  connections : list string;
  color : string
}.

Record t := mkManager {
  audioEngine : AudioEngine.t;
  nodes : gmap string AudioNode
}.

Definition create (audioEngine : AudioEngine.t) : t := mkManager audioEngine ∅.

Definition set_isPlaying (b : bool) (n : AudioNode) : AudioNode :=
  mkNode (id n) (x n) (y n) (audioBuffer n) (fileName n) b (connections n) (color n).

Definition set_position (x' y' : Q) (n : AudioNode) : AudioNode :=
  mkNode (id n) x' y' (audioBuffer n) (fileName n) (isPlaying n)
         (connections n) (color n).

Definition set_connections (l : list string) (n : AudioNode) : AudioNode :=
  mkNode (id n) (x n) (y n) (audioBuffer n) (fileName n) (isPlaying n) l (color n).

(** [updateNodeState]: [Object.assign] on the stored object, when present. *)
Definition updateNodeState (m : t) (nodeId : string)
           (updates : AudioNode -> AudioNode) : t :=
  mkManager (audioEngine m) (alter updates nodeId (nodes m)).

(** [AudioEngine.loadAudioFile]. *)
Definition loadAudioFile (e : AudioEngine.t) (file : File) : string + AudioBuffer :=
  if negb (AudioEngine.initialized e) then inl "Audio engine not initialized"
  else match file_audio file with
       | Some audioBuffer => inr audioBuffer
       | None => inl "Invalid audio file format"
       end.

(** [createNode]; [newId] and [newColor] are the values the random id and
    colour generators produce for this call. *)
Definition createNode (m : t) (newId newColor : string) (file : File) (x y : Q)
  : string + (t * AudioNode) :=
  match loadAudioFile (audioEngine m) file with
  | inl err => inl err
  | inr audioBuffer =>
      let node := mkNode newId x y (Some audioBuffer) (file_name file)
                         false [] newColor in
      inr (mkManager (audioEngine m) (<[newId := node]> (nodes m)), node)
  end.

(** The body of the [forEach] in [playNode]. *)
Definition playConnected (loop : bool) (now : Q) (m : t) (connectedNodeId : string)
  : t :=
  match nodes m !! connectedNodeId with
  | Some connectedNode =>
      match audioBuffer connectedNode with
      | Some buf =>
          if negb (isPlaying connectedNode) then
            updateNodeState
              (mkManager (AudioEngine.playAudioBuffer (audioEngine m)
                            connectedNodeId buf loop now) (nodes m))
              connectedNodeId (set_isPlaying true)
          else m
      | None => m
      end
  | None => m
  end.

Definition playNode (m : t) (nodeId : string) (loop : bool) (now : Q) : t :=
  match nodes m !! nodeId with
  | Some node =>
      match audioBuffer node with
      | Some buf =>
          let m1 :=
            updateNodeState
              (mkManager (AudioEngine.playAudioBuffer (audioEngine m)
                            nodeId buf loop now) (nodes m))
              nodeId (set_isPlaying true) in
          foldl (playConnected loop now) m1 (connections node)
      | None => m
      end
  | None => m
  end.

(** The body of the [forEach] in [stopNode]. *)
Definition stopConnected (m : t) (connectedNodeId : string) : t :=
  updateNodeState
    (mkManager (AudioEngine.stopNode (audioEngine m) connectedNodeId) (nodes m))
    connectedNodeId (set_isPlaying false).

Definition stopNode (m : t) (nodeId : string) : t :=
  let m1 := stopConnected m nodeId in
  match nodes m1 !! nodeId with
  | Some node => foldl stopConnected m1 (connections node)
  | None => m1
  end.

(** [connectNodes]: the two [push]es act on the stored objects, which are
    one and the same object when the two ids are equal. *)
Definition connectNodes (m : t) (fromNodeId toNodeId : string) : t :=
  match nodes m !! fromNodeId, nodes m !! toNodeId with
  | Some fromNode, Some _ =>
      if negb (bool_decide (toNodeId ∈ connections fromNode)) then
        let m1 := updateNodeState m fromNodeId
                    (fun n => set_connections (connections n ++ [toNodeId]) n) in
        updateNodeState m1 toNodeId
          (fun n => set_connections (connections n ++ [fromNodeId]) n)
      else m
  | _, _ => m
  end.

Definition without (nodeId : string) (l : list string) : list string :=
  filter (fun i => i ≠ nodeId) l.

Definition disconnectNodes (m : t) (fromNodeId toNodeId : string) : t :=
  let m1 := updateNodeState m fromNodeId
              (fun n => set_connections (without toNodeId (connections n)) n) in
  updateNodeState m1 toNodeId
    (fun n => set_connections (without fromNodeId (connections n)) n).

(** [removeNode]: [stopNode] leaves [node.connections] alone, and the
    [forEach] runs over the array held when the loop starts:
    [disconnectNodes] replaces the field by a new array and leaves the
    iterated one as it was. *)
Definition removeNode (m : t) (nodeId : string) : t :=
  match nodes m !! nodeId with
  | None => m
  | Some node =>
      let m1 := stopNode m nodeId in
      let m2 := foldl (fun m connectedId => disconnectNodes m nodeId connectedId)
                      m1 (connections node) in
      mkManager (audioEngine m2) (delete nodeId (nodes m2))
  end.

Definition updateNodePosition (m : t) (nodeId : string) (x y : Q) : t :=
  updateNodeState m nodeId (set_position x y).

Definition getNode (m : t) (nodeId : string) : option AudioNode :=
  nodes m !! nodeId.

(** [neighborsOf]: the ids a node lists. *)
Definition neighbors (m : t) (nodeId : string) : list string :=
  match nodes m !! nodeId with
  | Some node => connections node
  | None => []
  end.

(** [getAllNodes] and [getConnections] iterate over the [Map] in its
    insertion order, which the [gmap] does not record: the lists below hold
    the same entries, in the order of the [gmap].  The comparison
    [node.id < connectedId] is the one of JavaScript on strings of ASCII
    characters, which the generated ids are. *)
Definition getAllNodes (m : t) : list AudioNode := (map_to_list (nodes m)).*2.

Definition getConnections (m : t) : list (AudioNode * AudioNode) :=
  getAllNodes m ≫= fun node =>
    connections node ≫= fun connectedId =>
      match nodes m !! connectedId with
      | Some connectedNode =>
          if String.ltb (id node) connectedId then [(node, connectedNode)] else []
      | None => []
      end.

End NodeManager.

(** ** ExportManager.tsx *)

Module ExportManager.



(** [iso.slice(0, 19).replace(/[:.]/g, '-')] on the text [iso] that
    [new Date().toISOString()] returns. *)
Definition dash (c : ascii) : ascii :=
  if bool_decide (c = ":"%char) || bool_decide (c = "."%char) then "-"%char else c.

Fixpoint replaceSeparators (s : string) : string :=
  match s with
  | EmptyString => EmptyString
  | String c s' => String (dash c) (replaceSeparators s')
  end.

Definition timestamp (iso : string) : string :=
  replaceSeparators (String.substring 0 19 iso).

Definition fileName (sessionName iso extension : string) : string :=
  (sessionName ++ "-" ++ timestamp iso ++ "." ++ extension)%string.






End ExportManager.

(** ** SessionRecorder.tsx *)

Module SessionRecorder.

(** [formatDuration(ms)]; [ms] is a difference of two [Date.now()] readings,
    an integer. *)
Definition formatDuration (ms : Z) : string :=
  let seconds := (ms / 1000)%Z in
  let minutes := (seconds / 60)%Z in
  let remainingSeconds := Z.rem seconds 60 in
  (Js.toString minutes ++ ":"
     ++ Js.padStart 2 "0" (Js.toString remainingSeconds))%string.

End SessionRecorder.

(** ** App.tsx: the upload and connection handlers *)

Module App.

Import NodeManager.

(** What the handlers do to the outside: [alert] dialogs and calls of
    [decodeAudioData]. *)
Inductive Effect :=
| Alert (message : option string)
| DecodeAudioData (file : File).

Inductive InteractionMode := play | edit | connect | delete.

(** The part of the component state the two handlers touch: the node
    manager behind [nodeManagerRef], the [canvasState.nodes] snapshot, the
    interaction mode and the pending end of a connection gesture. *)
Record t := mkApp {
  nodeManager : NodeManager.t;
  canvasNodes : list AudioNode;
  mode : InteractionMode;
  connectingNodeId : option string;
  effects : list Effect
}.

Definition listed (nodeId : string) (n : AudioNode) : bool :=
  bool_decide (nodeId ∈ connections n).

(** The [setCanvasState] updater of [handleFileUpload], with its calls into
    the node manager. *)
Definition autoConnect (m : NodeManager.t) (prev : list AudioNode)
           (newNode : AudioNode) : NodeManager.t * list AudioNode :=
  if (2 <=? length (prev ++ [newNode]))%nat then
    let toAdd := filter (fun n => listed (id newNode) n = false) prev in
    let m1 := foldl (fun m existingNode =>
                       connectNodes m (id existingNode) (id newNode)) m toAdd in
    let connectionsToAdd := map id toAdd in
    let m2 := updateNodeState m1 (id newNode) (set_connections connectionsToAdd) in
    let newNode' := set_connections connectionsToAdd newNode in
    (m2, map (fun node =>
                if negb (String.eqb (id node) (id newNode)) && negb (listed (id newNode) node)
                then set_connections (connections node ++ [id newNode]) node
                else node) (prev ++ [newNode']))
  else (m, prev ++ [newNode]).

Definition handleFileUpload (app : t) (file : File) (x y : Q)
           (newId newColor : string) : t :=
  let validation := FileHandling.validateAudioFile file in
  if negb (FileHandling.isValid validation) then
    mkApp (nodeManager app) (canvasNodes app) (mode app) (connectingNodeId app)
          (effects app ++ [Alert (FileHandling.error validation)])
  else
    let decoded :=
      if AudioEngine.initialized (audioEngine (nodeManager app))
      then [DecodeAudioData file] else [] in
    match createNode (nodeManager app) newId newColor file x y with
    | inl _ =>
        mkApp (nodeManager app) (canvasNodes app) (mode app)
              (connectingNodeId app) (effects app ++ decoded)
    | inr (m1, newNode) =>
        let '(m2, canvas) := autoConnect m1 (canvasNodes app) newNode in
        mkApp m2 canvas (mode app) (connectingNodeId app) (effects app ++ decoded)
    end.

(** The node-manager part of [handleConnectionStart]. *)
Definition handleConnectionStart (app : t) (nodeId : string) : t :=
  match mode app with
  | connect =>
      match connectingNodeId app with
      | None =>
          mkApp (nodeManager app) (canvasNodes app) (mode app) (Some nodeId)
                (effects app)
      | Some connecting =>
          if negb (String.eqb connecting nodeId) then
            mkApp (connectNodes (nodeManager app) connecting nodeId)
                  (map (fun node =>
                          if String.eqb (id node) connecting && negb (listed nodeId node)
                          then set_connections (connections node ++ [nodeId]) node
                          else if String.eqb (id node) nodeId
                                  && negb (listed connecting node)
                          then set_connections (connections node ++ [connecting]) node
                          else node) (canvasNodes app))
                  (mode app) None (effects app)
          else
            mkApp (nodeManager app) (canvasNodes app) (mode app) None (effects app)
      end
  | _ => app
  end.

(** [handleMuteToggle]: the engine behind [audioEngineRef] is the one the
    node manager holds. *)
Definition handleMuteToggle (app : t) (nodeId : string) : t :=
  let e := audioEngine (nodeManager app) in
  let e' :=
    match AudioEngine.getNodeState e nodeId with
    | Some nodeState =>
        if AudioEngine.isMuted nodeState then AudioEngine.unmuteNode e nodeId
        else AudioEngine.muteNode e nodeId
    | None => e
    end in
  mkApp (mkManager e' (nodes (nodeManager app))) (canvasNodes app) (mode app)
        (connectingNodeId app) (effects app).

(** [handleResetAll]: [stopNode] for every node of the canvas snapshot, then
    every flag of the snapshot lowered. *)
Definition handleResetAll (app : t) : t :=
  mkApp (foldl (fun m node => stopNode m (id node)) (nodeManager app) (canvasNodes app))
        (map (set_isPlaying false) (canvasNodes app))
        (mode app) (connectingNodeId app) (effects app).

Definition handleNodeDelete (app : t) (nodeId : string) : t :=
  mkApp (removeNode (nodeManager app) nodeId)
        (filter (fun node => id node ≠ nodeId) (canvasNodes app))
        (mode app) (connectingNodeId app) (effects app).


End App.

(** ** PlayAllButton.tsx *)

Module PlayAllButton.

Import NodeManager.



End PlayAllButton.

(** ** gestures.ts *)

Module GestureRecognizer.

Inductive GestureType := tap | longPress | drag | pinch | doubleTap.

(** A [GestureEvent] as [onGesture] receives it.  The [data] of a drag event
    (the start position and the distance, a square root) is left out. *)
Record GestureEvent := mkEvent { type : GestureType; position : Q * Q }.

(** The recognizer.  [longPressTimer] holds the handle [setTimeout] returned
    (handles are positive numbers), [pending] the timeouts that are armed,
    [fresh] the next handle, and [gestures] the events handed to [onGesture]
    so far.  [Date.now()] is an argument of the calls that read it. *)
Record t := mkRecognizer {
  startTime : Z;
  startPosition : Q * Q;
  lastTapTime : Z;
  longPressTimer : option nat;
  isDragging : bool;
  pending : list nat;
  fresh : nat;
  gestures : list GestureEvent
}.

Definition LONG_PRESS_DURATION : Z := 800.
Definition DOUBLE_TAP_DURATION : Z := 300.

Definition create : t := mkRecognizer 0 (0, 0) 0 None false [] 1 [].

Definition onGesture (r : t) (event : GestureEvent) : t :=
  mkRecognizer (startTime r) (startPosition r) (lastTapTime r) (longPressTimer r)
               (isDragging r) (pending r) (fresh r) (gestures r ++ [event]).

Definition clearLongPressTimer (r : t) : t :=
  match longPressTimer r with
  | Some handle =>
      mkRecognizer (startTime r) (startPosition r) (lastTapTime r) None
                   (isDragging r) (filter (fun h => h ≠ handle) (pending r))
                   (fresh r) (gestures r)
  | None => r
  end.

Definition onStart (r : t) (x y : Q) (now : Z) : t :=
  mkRecognizer now (x, y) (lastTapTime r) (Some (fresh r)) false
               (fresh r :: pending r) (S (fresh r)) (gestures r).

(** The callback of the timeout [handle]: it runs when the timeout is still
    armed, once. *)
Definition onTimeout (r : t) (handle : nat) : t :=
  if bool_decide (handle ∈ pending r) then
    let r1 := mkRecognizer (startTime r) (startPosition r) (lastTapTime r)
                           (longPressTimer r) (isDragging r)
                           (filter (fun h => h ≠ handle) (pending r))
                           (fresh r) (gestures r) in
    if negb (isDragging r1) then onGesture r1 (mkEvent longPress (startPosition r1))
    else r1
  else r.


Definition onEnd (r : t) (x y : Q) (now : Z) : t :=
  let currentTime := now in
  let duration := (currentTime - startTime r)%Z in
  let r1 := clearLongPressTimer r in
  let r2 :=
    if negb (isDragging r1) && (duration <? LONG_PRESS_DURATION)%Z then
      if (currentTime - lastTapTime r1 <? DOUBLE_TAP_DURATION)%Z then
        let r' := onGesture r1 (mkEvent doubleTap (x, y)) in
        mkRecognizer (startTime r') (startPosition r') 0 (longPressTimer r')
                     (isDragging r') (pending r') (fresh r') (gestures r')
      else
        let r' := onGesture r1 (mkEvent tap (x, y)) in
        mkRecognizer (startTime r') (startPosition r') currentTime (longPressTimer r')
                     (isDragging r') (pending r') (fresh r') (gestures r')
    else r1 in
  mkRecognizer (startTime r2) (startPosition r2) (lastTapTime r2) (longPressTimer r2)
               false (pending r2) (fresh r2) (gestures r2).

End GestureRecognizer.

(** ** Bookkeeping invariants *)

Section EngineBookkeeping.

Import AudioEngine.

(** What the engine's maps know about the units the context renders: every
    live unit is the registered active node of its owner; identities are
    below the counter and no two live units share one; an active node is live,
    belongs to the node it is registered for and is the [source] of a playing,
    unpaused state; a state that says playing has an active node; states
    exist only once the context does, and their gain nodes were drawn from
    the counter. *)
Record Inv (e : t) : Prop := mkInv {
  inv_active : forall u, u ∈ sounding e -> activeNodes e !! src_owner u = Some u;
  inv_fresh : forall u, u ∈ sounding e -> (src_id u < fresh e)%nat;
  inv_ids : NoDup (src_id <$> sounding e);
  inv_state : forall n s, activeNodes e !! n = Some s ->
              s ∈ sounding e /\ src_owner s = n
              /\ exists st, nodeStates e !! n = Some st /\ source st = Some s
                            /\ isPaused st = false /\ isPlaying st = true;
  inv_playing : forall n st, nodeStates e !! n = Some st -> isPlaying st = true ->
                is_Some (activeNodes e !! n);
  inv_init : forall n st, nodeStates e !! n = Some st -> initialized e = true;
  inv_gain : forall n st, nodeStates e !! n = Some st ->
             (gain_id (gainNode st) < fresh e)%nat
}.

(** What the engine holds for node [b]: its active node and its state. *)
Definition engineEntry (e : AudioEngine.t) (b : string) :=
  (AudioEngine.activeNodes e !! b, AudioEngine.nodeStates e !! b).

(** The gain stage of a state: its gain node, its volume and its mute flag. *)
Definition gainStage (st : NodePlaybackState) : GainNode * Q * bool :=
  (gainNode st, volume st, isMuted st).

(** The transport operations, and [initialize]. *)
Definition transport (op : Op) : bool :=
  match op with
  | Initialize | Pause _ _ | Resume _ _ _ | Stop _ | Ended _ => true
  | Play _ _ _ _ | SetVolume _ _ | Mute _ | Unmute _ => false
  end.

End EngineBookkeeping.

Section ManagerBookkeeping.

Import IndividualPlaybackManager.

(** Every live unit is the [audioSource] of its owner's state; identities
    are below the counter and distinct. *)
Record MInv (m : t) : Prop := mkMInv {
  minv_source : forall u, u ∈ sounding m ->
                exists st, nodeStates m !! src_owner u = Some st
                           /\ audioSource st = Some u;
  minv_fresh : forall u, u ∈ sounding m -> (src_id u < fresh m)%nat;
  minv_nodup : NoDup (sounding m)
}.

(** A state whose flags agree with what it holds: playing states are not
    paused and hold a source, the others hold none. *)
Definition settled (st : IndividualNodeState) : Prop :=
  if isPlaying st then isPaused st = false /\ is_Some (audioSource st)
  else audioSource st = None.

(** The tracking interval of a node is armed exactly while its state says
    playing, and every state is settled. *)
Record TInv (m : t) : Prop := mkTInv {
  tinv_tracker : forall n, is_Some (timeTrackers m !! n)
                 <-> exists st, nodeStates m !! n = Some st /\ isPlaying st = true;
  tinv_settled : forall n st, nodeStates m !! n = Some st -> settled st
}.

(** What [pauseNode] at clock [now] leaves of a state. *)
Definition paused_at (now : Q) (st : IndividualNodeState) : IndividualNodeState :=
  if isPlaying st then mkState false true (currentTime st) None (Some now) else st.

(** A node that is playing from a buffer: the state holds a source of that
    buffer and the interval is armed. *)
Definition playing_from (m : t) (n : string) (audioBuffer : AudioBuffer) : Prop :=
  exists st s,
    nodeStates m !! n = Some st /\ isPlaying st = true /\ isPaused st = false
    /\ audioSource st = Some s /\ src_owner s = n /\ src_buffer s = audioBuffer
    /\ is_Some (timeTrackers m !! n).

End ManagerBookkeeping.

Section GraphShape.

Import NodeManager.

(** The data-model invariant of the adjacency lists: whoever is listed
    exists and lists back. *)
Definition linked (m : t) : Prop :=
  forall a na b, nodes m !! a = Some na -> b ∈ connections na ->
                 exists nb, nodes m !! b = Some nb /\ a ∈ connections nb.

(** No parallel links and no self-links. *)
Definition simple (m : t) : Prop :=
  forall a na, nodes m !! a = Some na ->
               NoDup (connections na) /\ a ∉ connections na.

(** The links of node [x], when it exists. *)
Definition links (m : t) (x : string) : option (list string) :=
  connections <$> nodes m !! x.

(** Every record is stored under its own id. *)
Definition keyed (m : t) : Prop :=
  forall k n, nodes m !! k = Some n -> id n = k.

(** The managers the application can reach: [createNode] draws an id no
    record is stored under, the connection gesture passes two different ids,
    and the engine may be driven directly in between. *)
Inductive reachable : t -> Prop :=
| reach_create e : reachable (create e)
| reach_createNode m newId newColor file x y m' node :
    reachable m -> nodes m !! newId = None ->
    createNode m newId newColor file x y = inr (m', node) -> reachable m'
| reach_connectNodes m a b : reachable m -> a <> b -> reachable (connectNodes m a b)
| reach_disconnectNodes m a b : reachable m -> reachable (disconnectNodes m a b)
| reach_removeNode m a : reachable m -> reachable (removeNode m a)
| reach_playNode m a loop now : reachable m -> reachable (playNode m a loop now)
| reach_stopNode m a : reachable m -> reachable (stopNode m a)
| reach_updateNodePosition m a x y :
    reachable m -> reachable (updateNodePosition m a x y)
| reach_engine m e : reachable m -> reachable (mkManager e (nodes m)).

(** A node the group stop has reached: no active node, a halted state, and
    the flag down. *)
Definition silenced (m : t) (b : string) : Prop :=
  AudioEngine.activeNodes (audioEngine m) !! b = None
  /\ (forall st, AudioEngine.nodeStates (audioEngine m) !! b = Some st ->
                 AudioEngine.isPlaying st = false
                 /\ AudioEngine.isPaused st = false
                 /\ AudioEngine.source st = None)
  /\ (forall n, nodes m !! b = Some n -> isPlaying n = false).

End GraphShape.

Section GestureRuns.

Import GestureRecognizer.

(** A press: the pointer goes down and, without a move, up again. *)
Definition press (r : t) (x y : Q) (down up : Z) : t :=
  onEnd (onStart r x y down) x y up.

End GestureRuns.

(** ** Scenarios *)

(** Concrete states and inputs the statements below are run on. *)
Module Scenario.

(** A five-second clip and a ten-second one. *)
Definition clip : AudioBuffer := mkBuffer 1 5.
Definition long : AudioBuffer := mkBuffer 2 10.

(** Node "a" played at clock 0 and paused at clock 2. *)
Definition paused_engine : AudioEngine.t :=
  AudioEngine.run [AudioEngine.Initialize;
                   AudioEngine.Play "a" clip false 0;
                   AudioEngine.Pause "a" 2] AudioEngine.create.

Definition paused_state : AudioEngine.NodePlaybackState :=
  AudioEngine.mkState (Some (mkSource 0 "a" clip false 1 0)) (mkGain 1 1)
                      false true 0 2 1 false.

(** Node "n" of the individual manager played with the long clip at clock 0,
    tracked up to 7s and paused there: its stored position lies beyond the
    five seconds of [clip]. *)
Definition stale_manager : IndividualPlaybackManager.t :=
  IndividualPlaybackManager.run
    [IndividualPlaybackManager.Play "n" long 0;
     IndividualPlaybackManager.Tick "n" 7;
     IndividualPlaybackManager.Pause "n" 7]
    (IndividualPlaybackManager.registered ["n"]).

Definition stale_state : IndividualPlaybackManager.IndividualNodeState :=
  IndividualPlaybackManager.mkState false true (0 + (7 - 0)) None (Some 7).

(** The individual manager with node "n" played at clock 10 and its tracker
    fired once, at clock 10.1. *)
Definition tracked_manager : IndividualPlaybackManager.t :=
  IndividualPlaybackManager.run
    [IndividualPlaybackManager.Play "n" clip 10;
     IndividualPlaybackManager.Tick "n" 10.1]
    (IndividualPlaybackManager.registered ["n"]).

Definition tracked_state : IndividualPlaybackManager.IndividualNodeState :=
  IndividualPlaybackManager.mkState true false (0 + (10.1 - 10))
    (Some (mkSource 0 "n" clip false 1 0)) None.

(** Node "a" of the engine playing, muted, at volume 0.8. *)
Definition muted_engine : AudioEngine.t :=
  AudioEngine.run [AudioEngine.Initialize;
                   AudioEngine.Play "a" clip false 0;
                   AudioEngine.SetVolume "a" 0.8;
                   AudioEngine.Mute "a"] AudioEngine.create.

Definition muted_state : AudioEngine.NodePlaybackState :=
  AudioEngine.mkState (Some (mkSource 0 "a" clip false 1 0)) (mkGain 1 0)
                      true false 0 0 0.8 true.

(** Three nodes over an initialised engine on which "b" is playing: "b" is
    flagged as playing, "a" and "c" are not; "a" is linked to "b" and "c". *)
Definition node (nodeId : string) (playing : bool) (links : list string)
  : NodeManager.AudioNode :=
  NodeManager.mkNode nodeId 0 0 (Some clip) "clip.wav" playing links "#ffffff".

Definition trio : NodeManager.t :=
  NodeManager.mkManager
    (AudioEngine.run [AudioEngine.Initialize; AudioEngine.Play "b" clip false 0]
                     AudioEngine.create)
    (<["a" := node "a" false ["b"; "c"]]>
       (<["b" := node "b" true ["a"]]>
          (<["c" := node "c" false ["a"]]> ∅))).

(** A single node without links. *)
Definition solo : NodeManager.t :=
  NodeManager.mkManager AudioEngine.create {["a" := node "a" false []]}.

(** Uploads of exactly 30MB and of one byte more, and an empty application
    over an initialised engine. *)
Definition upload (size : Z) : File :=
  mkFile "take.wav" size "audio/wav" (Some clip).

Definition app : App.t :=
  App.mkApp (NodeManager.create (AudioEngine.initialize AudioEngine.create))
            [] App.play None [].



(** Node "a" of the engine played at clock 0 and played again at clock 1:
    the second call stops the first source (identity 0) and registers a second
    one (identity 2). *)
Definition restarted_engine : AudioEngine.t :=
  AudioEngine.run [AudioEngine.Initialize;
                   AudioEngine.Play "a" clip false 0;
                   AudioEngine.Play "a" clip false 1] AudioEngine.create.

(** Node "a" of the engine playing since clock 0. *)
Definition playing_engine : AudioEngine.t :=
  AudioEngine.run [AudioEngine.Initialize;
                   AudioEngine.Play "a" clip false 0] AudioEngine.create.

Definition playing_state : AudioEngine.NodePlaybackState :=
  AudioEngine.mkState (Some (mkSource 0 "a" clip false 1 0)) (mkGain 1 1)
                      true false 0 0 1 false.

(** Node "a" playing and node "b" paused at clock 1. *)
Definition mixed_engine : AudioEngine.t :=
  AudioEngine.run [AudioEngine.Initialize;
                   AudioEngine.Play "a" clip false 0;
                   AudioEngine.Play "b" long false 0;
                   AudioEngine.Pause "b" 1] AudioEngine.create.


(** The application with the single node "a", shown on the canvas, over an
    initialised engine. *)
Definition solo_app : App.t :=
  App.mkApp (NodeManager.mkManager (AudioEngine.initialize AudioEngine.create)
                                   {["a" := node "a" false []]})
            [node "a" false []] App.play None [].

(** The manager after the upload of a first file under the id "a". *)
Definition first_upload : NodeManager.t :=
  NodeManager.mkManager (AudioEngine.initialize AudioEngine.create)
    (<["a" := NodeManager.mkNode "a" 0 0 (Some clip) "take.wav" false [] "#ffffff"]> ∅).

End Scenario.

(** * Properties *)

(** ** Numbers *)

Lemma Js_ltb_lt a b : Js.ltb a b = true <-> a < b.
Proof.
  unfold Js.ltb. rewrite negb_true_iff.
  destruct (Qle_bool b a) eqn:E.
  - apply Qle_bool_iff in E. split; [discriminate | lra].
  - split; [intros _ | reflexivity].
    apply Qnot_le_lt. intros H. apply Qle_bool_iff in H. congruence.
Qed.

Lemma Js_min_spec a b :
  (a <= b /\ Js.min a b = a) \/ (b < a /\ Js.min a b = b).
Proof.
  unfold Js.min. destruct (Qle_bool a b) eqn:E.
  - left. split; [now apply Qle_bool_iff | reflexivity].
  - right. split; [| reflexivity].
    apply Qnot_le_lt. intros H. apply Qle_bool_iff in H. congruence.
Qed.

Lemma Js_max_spec a b :
  (a <= b /\ Js.max a b = b) \/ (b < a /\ Js.max a b = a).
Proof.
  unfold Js.max. destruct (Qle_bool a b) eqn:E.
  - left. split; [now apply Qle_bool_iff | reflexivity].
  - right. split; [| reflexivity].
    apply Qnot_le_lt. intros H. apply Qle_bool_iff in H. congruence.
Qed.



(** The guard of [resumeNode] on the clamped offset is the same test on the
    elapsed time itself. *)
Lemma resume_guard elapsed d :
  Js.ltb 0.01 (Js.max 0 (Js.min elapsed d)) && Js.ltb (Js.max 0 (Js.min elapsed d)) d = true
  <-> 0.01 < elapsed /\ elapsed < d.
Proof.
  rewrite andb_true_iff, !Js_ltb_lt.
  destruct (Js_min_spec elapsed d) as [[H1 ->] | [H1 ->]].
  - destruct (Js_max_spec 0 elapsed) as [[H2 ->] | [H2 ->]]; split; intros [? ?]; split; lra.
  - destruct (Js_max_spec 0 d) as [[H2 ->] | [H2 ->]]; split; intros [? ?]; split; lra.
Qed.

Lemma resume_guard_offset elapsed d :
  0.01 < elapsed -> elapsed < d -> Js.max 0 (Js.min elapsed d) = elapsed.
Proof.
  intros H1 H2.
  destruct (Js_min_spec elapsed d) as [[H3 E] | [H3 E]]; rewrite E; [| lra].
  destruct (Js_max_spec 0 elapsed) as [[H4 E'] | [H4 E']]; rewrite E'; [reflexivity | lra].
Qed.

(** ** Rendering units *)

Lemma elem_of_halt s u live :
  u ∈ halt s live <-> same_unit s u = false /\ u ∈ live.
Proof. unfold halt. now rewrite list_elem_of_filter. Qed.

Lemma same_unit_refl s : same_unit s s = true.
Proof. unfold same_unit. apply Nat.eqb_refl. Qed.

Lemma NoDup_halt s live : NoDup live -> NoDup (halt s live).
Proof. unfold halt. apply NoDup_filter. Qed.

Lemma NoDup_halt_ids s live :
  NoDup (src_id <$> live) -> NoDup (src_id <$> halt s live).
Proof.
  intros H. apply (sublist_NoDup _ _ H). apply fmap_sublist.
  unfold halt. apply sublist_filter.
Qed.

(** Live units with one identity are one unit. *)
Lemma unique_id live u v :
  NoDup (src_id <$> live) -> u ∈ live -> v ∈ live -> src_id u = src_id v -> u = v.
Proof.
  induction live as [|w live IH]; intros Hnd Hu Hv Hid.
  - now apply elem_of_nil in Hu.
  - rewrite fmap_cons in Hnd. apply NoDup_cons in Hnd as [Hw Hnd].
    apply elem_of_cons in Hu as [-> | Hu]; apply elem_of_cons in Hv as [-> | Hv].
    + reflexivity.
    + exfalso. apply Hw. rewrite Hid. now apply list_elem_of_fmap_2.
    + exfalso. apply Hw. rewrite <- Hid. now apply list_elem_of_fmap_2.
    + now apply IH.
Qed.

(** Stopping a live unit stops that unit only. *)
Lemma halt_others s u live :
  NoDup (src_id <$> live) -> s ∈ live -> u ∈ live -> u <> s -> u ∈ halt s live.
Proof.
  intros Hnd Hs Hu Hne. apply elem_of_halt. split; [|assumption].
  unfold same_unit. apply Nat.eqb_neq. intros Hid.
  apply Hne. symmetry. now apply (unique_id live).
Qed.

Lemma filter_halt_other (P : AudioBufferSourceNode -> Prop)
      `{forall u, Decision (P u)} s live :
  (forall u, u ∈ live -> P u -> same_unit s u = false) ->
  filter P (halt s live) = filter P live.
Proof.
  unfold halt. induction live as [|w live IH]; intros Hp; [reflexivity|].
  assert (IH' : filter P (filter (fun u => same_unit s u = false) live)
                = filter P live).
  { apply IH. intros u Hu. apply Hp. now apply elem_of_cons; right. }
  destruct (decide (P w)) as [Hw | Hw].
  - assert (same_unit s w = false) by (apply Hp; [apply elem_of_cons; tauto | assumption]).
    rewrite (filter_cons_True (fun u => same_unit s u = false)) by assumption.
    rewrite !filter_cons_True by assumption. now rewrite IH'.
  - rewrite (filter_cons_False P w live) by assumption.
    destruct (decide (same_unit s w = false)) as [Hq | Hq].
    + rewrite (filter_cons_True (fun u => same_unit s u = false)) by assumption.
      rewrite filter_cons_False by assumption. exact IH'.
    + rewrite (filter_cons_False (fun u => same_unit s u = false)) by assumption.
      exact IH'.
Qed.

Lemma find_unit k live s :
  find (fun u => Nat.eqb k (src_id u)) live = Some s -> s ∈ live.
Proof.
  intros H. apply find_some in H. apply list_elem_of_In. tauto.
Qed.

(** When every live unit of a node is one and the same unit, and no unit is
    listed twice, the node has at most one live unit. *)
Lemma live_units_le_1 n live :
  NoDup live ->
  (forall u v, u ∈ live -> v ∈ live -> src_owner u = n -> src_owner v = n -> u = v) ->
  (live_units n live <= 1)%nat.
Proof.
  unfold live_units. intros Hnd Huniq.
  assert (Hnd' : NoDup (filter (fun u => src_owner u = n) live))
    by now apply NoDup_filter.
  destruct (filter (fun u => src_owner u = n) live) as [|a [|b l]] eqn:E;
    simpl; try lia.
  exfalso.
  assert (Ha : a ∈ filter (fun u => src_owner u = n) live)
    by (rewrite E; set_solver).
  assert (Hb : b ∈ filter (fun u => src_owner u = n) live)
    by (rewrite E; set_solver).
  apply list_elem_of_filter in Ha as [Ha1 Ha2].
  apply list_elem_of_filter in Hb as [Hb1 Hb2].
  assert (a = b) by now apply Huniq.
  subst b. apply NoDup_cons in Hnd' as [Hnot _]. apply Hnot. set_solver.
Qed.

Lemma live_units_0 n live :
  (forall u, u ∈ live -> src_owner u <> n) -> live_units n live = 0%nat.
Proof.
  unfold live_units. intros H.
  destruct (filter (fun u => src_owner u = n) live) as [|a l] eqn:E; [reflexivity|].
  assert (Ha : a ∈ filter (fun u => src_owner u = n) live) by (rewrite E; set_solver).
  apply list_elem_of_filter in Ha as [Ha1 Ha2]. now apply H in Ha2.
Qed.

Lemma owned_0 n (live : list AudioBufferSourceNode) :
  (forall u, u ∈ live -> src_owner u <> n) ->
  filter (fun u => src_owner u = n) live = [].
Proof.
  intros H.
  destruct (filter (fun u => src_owner u = n) live) as [|a l] eqn:E; [reflexivity|].
  assert (Ha : a ∈ filter (fun u => src_owner u = n) live) by (rewrite E; set_solver).
  apply list_elem_of_filter in Ha as [Ha1 Ha2]. now apply H in Ha2.
Qed.

(** ** The engine's bookkeeping invariant *)

Section EngineInvariant.

Import AudioEngine.

Lemma Inv_create : Inv create.
Proof.
  split; simpl; intros *; try (rewrite lookup_empty; discriminate);
    try (intros H; now apply elem_of_nil in H).
  constructor.
Qed.

Lemma Inv_initialize e : Inv e -> Inv (initialize e).
Proof.
  intros [H1 H2 H3 H4 H5 H6 H7]. unfold initialize.
  destruct (initialized e) eqn:E; [now split|].
  split; simpl; auto.
Qed.

Lemma Inv_NoDup e : Inv e -> NoDup (sounding e).
Proof. intros He. apply (NoDup_fmap_1 src_id), (inv_ids e He). Qed.

(** A live unit other than the active node of [n] belongs to another node. *)
Lemma active_only e n s u :
  Inv e -> activeNodes e !! n = Some s -> u ∈ sounding e -> src_owner u = n -> u = s.
Proof.
  intros He Ha Hu Ho. apply (inv_active e He) in Hu. rewrite Ho in Hu. congruence.
Qed.

Lemma stopNode_silent e nodeId :
  Inv e -> forall u, u ∈ sounding (stopNode e nodeId) -> src_owner u <> nodeId.
Proof.
  intros He u. unfold stopNode.
  destruct (activeNodes e !! nodeId) as [s|] eqn:Ha; simpl.
  - rewrite elem_of_halt. intros [Hne Hu] Ho.
    rewrite (active_only e nodeId s u He Ha Hu Ho) in Hne.
    now rewrite same_unit_refl in Hne.
  - intros Hu Ho. apply (inv_active e He) in Hu. rewrite Ho, Ha in Hu. discriminate.
Qed.

(** Dropping the active node [s] of [nodeId] from the rendering units and
    from the registry, whatever is written to the state of [nodeId], as long
    as that state does not say playing. *)
Lemma Inv_drop e nodeId s states :
  Inv e -> activeNodes e !! nodeId = Some s ->
  (forall n, n <> nodeId -> states !! n = nodeStates e !! n) ->
  (forall st, states !! nodeId = Some st ->
              isPlaying st = false
              /\ exists st0, nodeStates e !! nodeId = Some st0
                             /\ gain_id (gainNode st) = gain_id (gainNode st0)) ->
  Inv (mkEngine (initialized e) (masterGain e) (delete nodeId (activeNodes e))
                states (halt s (sounding e)) (fresh e)).
Proof.
  intros He Ha Hother Hself.
  destruct (inv_state e He nodeId s Ha) as (Hs & Hos & _).
  split; simpl.
  - intros u Hu. apply elem_of_halt in Hu as [Hne Hu].
    assert (src_owner u <> nodeId).
    { intros Ho. rewrite (active_only e nodeId s u He Ha Hu Ho) in Hne.
      now rewrite same_unit_refl in Hne. }
    rewrite lookup_delete_ne by congruence. now apply (inv_active e He).
  - intros u Hu. apply elem_of_halt in Hu as [_ Hu]. now apply (inv_fresh e He).
  - apply NoDup_halt_ids, (inv_ids e He).
  - intros n s' Hn. apply lookup_delete_Some in Hn as [Hne Hn].
    destruct (inv_state e He n s' Hn) as (Hs' & Hos' & st & Hst & Hrest).
    split; [|split; [assumption|]].
    + apply halt_others; try assumption; [apply (inv_ids e He) | congruence].
    + exists st. rewrite Hother by congruence. tauto.
  - intros n st Hn Hp. destruct (decide (n = nodeId)) as [-> | Hne].
    + destruct (Hself st Hn) as [Hf _]. congruence.
    + rewrite Hother in Hn by assumption.
      rewrite lookup_delete_ne by congruence. now apply (inv_playing e He n st).
  - intros n st Hn. destruct (decide (n = nodeId)) as [-> | Hne].
    + destruct (Hself st Hn) as (_ & st0 & Hst0 & _).
      now apply (inv_init e He nodeId st0).
    + rewrite Hother in Hn by assumption. now apply (inv_init e He n st).
  - intros n st Hn. destruct (decide (n = nodeId)) as [-> | Hne].
    + destruct (Hself st Hn) as (_ & st0 & Hst0 & ->).
      now apply (inv_gain e He nodeId st0).
    + rewrite Hother in Hn by assumption. now apply (inv_gain e He n st).
Qed.

Lemma Inv_stopNode e nodeId : Inv e -> Inv (stopNode e nodeId).
Proof.
  intros He. unfold stopNode.
  destruct (activeNodes e !! nodeId) as [s|] eqn:Ha; simpl.
  - apply Inv_drop; try assumption.
    + intros n Hne. now rewrite lookup_alter_ne by congruence.
    + intros st Hst.
      apply lookup_alter_Some in Hst as [[_ [x [Hx ->]]] | [Hne _]]; [|congruence].
      split; [reflexivity|]. exists x. tauto.
  - destruct He as [H1 H2 H3 H4 H5 H6 H7]. split; simpl; auto.
    + intros n s' Hn. assert (nodeId <> n) by congruence.
      rewrite lookup_alter_ne by congruence. auto.
    + intros n st Hn Hp.
      apply lookup_alter_Some in Hn as [[_ [x [Hx ->]]] | [_ Hn]]; [discriminate|].
      eauto.
    + intros n st Hn. apply lookup_alter_Some in Hn as [[_ [x [Hx _]]] | [_ Hn]]; eauto.
    + intros n st Hn.
      apply lookup_alter_Some in Hn as [[_ [x [Hx ->]]] | [_ Hn]]; simpl; eauto.
Qed.

Lemma stopNode_initialized e nodeId :
  initialized (stopNode e nodeId) = initialized e.
Proof. unfold stopNode. now destruct (activeNodes e !! nodeId). Qed.

Lemma stopNode_fresh e nodeId : fresh (stopNode e nodeId) = fresh e.
Proof. unfold stopNode. now destruct (activeNodes e !! nodeId). Qed.

(** Starting a new unit for a node none of whose units is live. *)
Lemma Inv_start e nodeId src st :
  Inv e -> initialized e = true ->
  (forall u, u ∈ sounding e -> src_owner u <> nodeId) ->
  src_owner src = nodeId -> src_id src = fresh e ->
  source st = Some src -> isPaused st = false -> isPlaying st = true ->
  forall k, (fresh e < k)%nat -> (gain_id (gainNode st) < k)%nat ->
  Inv (mkEngine (initialized e) (masterGain e)
                (<[nodeId := src]> (activeNodes e))
                (<[nodeId := st]> (nodeStates e))
                (src :: sounding e) k).
Proof.
  intros [H1 H2 H3 H4 H5 H6 H7] Hi Hsil Ho Hid Hsrc Hp Hpl k Hk Hg. split; simpl.
  - intros u Hu. apply elem_of_cons in Hu as [-> | Hu].
    + rewrite Ho. apply lookup_insert_eq.
    + rewrite lookup_insert_ne by (apply not_eq_sym; auto). auto.
  - intros u Hu. apply elem_of_cons in Hu as [-> | Hu]; [lia|].
    apply H2 in Hu. lia.
  - apply NoDup_cons. split; [|assumption].
    intros Hin. apply list_elem_of_fmap in Hin as (u & Hu1 & Hu2).
    apply H2 in Hu2. lia.
  - intros n s Hn. destruct (decide (nodeId = n)) as [<- | Hne].
    + rewrite lookup_insert_eq in Hn. injection Hn as <-.
      split; [apply elem_of_cons; tauto|]. split; [assumption|].
      exists st. rewrite lookup_insert_eq. auto.
    + rewrite lookup_insert_ne in Hn by assumption.
      rewrite lookup_insert_ne by assumption.
      destruct (H4 n s Hn) as (Hs & Hos & Hst).
      split; [apply elem_of_cons; tauto|]. tauto.
  - intros n st0 Hn Hp0. destruct (decide (nodeId = n)) as [<- | Hne].
    + rewrite lookup_insert_eq. eauto.
    + rewrite lookup_insert_ne in Hn by assumption.
      rewrite lookup_insert_ne by assumption. eauto.
  - intros; assumption.
  - intros n st0 Hn. destruct (decide (nodeId = n)) as [<- | Hne].
    + rewrite lookup_insert_eq in Hn. now injection Hn as <-.
    + rewrite lookup_insert_ne in Hn by assumption. apply H7 in Hn. lia.
Qed.

Lemma Inv_playAudioBuffer e nodeId audioBuffer loop now :
  Inv e -> Inv (playAudioBuffer e nodeId audioBuffer loop now).
Proof.
  intros He. unfold playAudioBuffer.
  destruct (initialized e) eqn:Hi; simpl; [|assumption].
  rewrite stopNode_initialized, Hi.
  rewrite <- (stopNode_initialized e nodeId) in Hi.
  rewrite <- Hi at 1.
  apply Inv_start; try reflexivity; try (simpl; lia);
    [now apply Inv_stopNode | assumption | now apply stopNode_silent].
Qed.

Lemma paused_silent e nodeId st :
  Inv e -> nodeStates e !! nodeId = Some st -> isPaused st = true ->
  forall u, u ∈ sounding e -> src_owner u <> nodeId.
Proof.
  intros He Hst Hp u Hu Ho.
  apply (inv_active e He) in Hu. rewrite Ho in Hu.
  apply (inv_state e He) in Hu as (_ & _ & st' & Hst' & _ & Hp' & _). congruence.
Qed.

Lemma Inv_resumeNode e nodeId audioBuffer now :
  Inv e -> Inv (resumeNode e nodeId audioBuffer now).
Proof.
  intros He. unfold resumeNode.
  destruct (nodeStates e !! nodeId) as [st|] eqn:Hst; [|assumption].
  destruct (isPaused st) eqn:Hp; simpl; [|assumption].
  destruct (initialized e) eqn:Hi; [|assumption].
  destruct (resumeOffset st audioBuffer) as [o|]; simpl;
    rewrite <- Hi at 1; apply Inv_start; try reflexivity; try lia;
    try assumption;
    try (simpl; pose proof (inv_gain e He nodeId st Hst); lia);
    now apply paused_silent with (st := st).
Qed.

Lemma Inv_pauseNode e nodeId now : Inv e -> Inv (pauseNode e nodeId now).
Proof.
  intros He. unfold pauseNode.
  destruct (nodeStates e !! nodeId) as [st|] eqn:Hst; [|assumption].
  destruct (isPlaying st && negb (isPaused st)) eqn:Hg; [|assumption].
  apply andb_true_iff in Hg as [Hpl _].
  destruct (inv_playing e He nodeId st Hst Hpl) as [s Ha].
  destruct (inv_state e He nodeId s Ha) as (_ & _ & st' & Hst' & Hsrc & _).
  assert (st' = st) by congruence. subst st'. rewrite Hsrc.
  apply Inv_drop; try assumption.
  - intros n Hne. now rewrite lookup_insert_ne by congruence.
  - intros st0 Hst0. rewrite lookup_insert_eq in Hst0. injection Hst0 as <-.
    split; [reflexivity|]. exists st. tauto.
Qed.

Lemma Inv_onended e unit : Inv e -> Inv (onended e unit).
Proof.
  intros He. unfold onended.
  destruct (find _ (sounding e)) as [s|] eqn:Hf; [|assumption].
  apply find_unit in Hf. unfold endedHandler. simpl.
  pose proof (inv_active e He s Hf) as Ha.
  apply Inv_drop; try assumption.
  - intros n Hne. now rewrite lookup_alter_ne by congruence.
  - intros st Hst.
    apply lookup_alter_Some in Hst as [[_ [x [Hx ->]]] | [Hne _]]; [|congruence].
    split; [reflexivity|]. exists x. tauto.
Qed.

(** Volume and mute rewrite one state and keep its transport fields. *)
Lemma Inv_restate e nodeId st st' :
  Inv e -> nodeStates e !! nodeId = Some st ->
  source st' = source st -> isPaused st' = isPaused st ->
  isPlaying st' = isPlaying st ->
  gain_id (gainNode st') = gain_id (gainNode st) ->
  Inv (mkEngine (initialized e) (masterGain e) (activeNodes e)
                (<[nodeId := st']> (nodeStates e)) (sounding e) (fresh e)).
Proof.
  intros [H1 H2 H3 H4 H5 H6 H7] Hst Hs Hp Hpl Hg. split; simpl; auto.
  - intros n s Hn. destruct (H4 n s Hn) as (Hin & Ho & st0 & Hst0 & ? & ? & ?).
    split; [assumption|]. split; [assumption|].
    destruct (decide (nodeId = n)) as [<- | Hne].
    + rewrite lookup_insert_eq.
      assert (st0 = st) by congruence. subst st0.
      exists st'. repeat split; congruence.
    + rewrite lookup_insert_ne by assumption. eauto.
  - intros n st0 Hn Hp0. destruct (decide (nodeId = n)) as [<- | Hne].
    + rewrite lookup_insert_eq in Hn. injection Hn as <-.
      apply (H5 nodeId st); congruence.
    + rewrite lookup_insert_ne in Hn by assumption. eauto.
  - intros n st0 Hn. eauto.
  - intros n st0 Hn. destruct (decide (nodeId = n)) as [<- | Hne].
    + rewrite lookup_insert_eq in Hn. injection Hn as <-. rewrite Hg. eauto.
    + rewrite lookup_insert_ne in Hn by assumption. eauto.
Qed.

Lemma Inv_step e op : Inv e -> Inv (step e op).
Proof.
  intros He. destruct op; simpl.
  - now apply Inv_initialize.
  - now apply Inv_playAudioBuffer.
  - now apply Inv_pauseNode.
  - now apply Inv_resumeNode.
  - now apply Inv_stopNode.
  - now apply Inv_onended.
  - unfold setNodeVolume.
    destruct (nodeStates e !! nodeId) as [st|] eqn:Hst; [|assumption].
    now apply Inv_restate with (st := st).
  - unfold muteNode.
    destruct (nodeStates e !! nodeId) as [st|] eqn:Hst; [|assumption].
    now apply Inv_restate with (st := st).
  - unfold unmuteNode.
    destruct (nodeStates e !! nodeId) as [st|] eqn:Hst; [|assumption].
    now apply Inv_restate with (st := st).
Qed.

Lemma Inv_run ops : forall e, Inv e -> Inv (run ops e).
Proof.
  unfold run. induction ops as [|op ops IH]; simpl; intros e He; [assumption|].
  apply IH. now apply Inv_step.
Qed.

Lemma Inv_live_units e n : Inv e -> (live_units n (sounding e) <= 1)%nat.
Proof.
  intros He. apply live_units_le_1; [now apply Inv_NoDup|].
  intros u v Hu Hv Hou Hov. apply (inv_active e He) in Hu, Hv.
  rewrite Hou in Hu. rewrite Hov in Hv. congruence.
Qed.

(** The rendering units of a node are its active node, if it has one. *)
Lemma Inv_units e b :
  Inv e ->
  filter (fun u => src_owner u = b) (sounding e)
  = match activeNodes e !! b with Some s => [s] | None => [] end.
Proof.
  intros He. destruct (activeNodes e !! b) as [s|] eqn:Ha.
  - destruct (inv_state e He b s Ha) as (Hs & Hos & _).
    assert (Hnd : NoDup (filter (fun u => src_owner u = b) (sounding e)))
      by (apply NoDup_filter; now apply Inv_NoDup).
    assert (Hin : s ∈ filter (fun u => src_owner u = b) (sounding e))
      by (apply list_elem_of_filter; tauto).
    assert (Hall : forall u, u ∈ filter (fun u => src_owner u = b) (sounding e) -> u = s).
    { intros u Hu. apply list_elem_of_filter in Hu as [Ho Hu].
      now apply (active_only e b s u). }
    destruct (filter (fun u => src_owner u = b) (sounding e)) as [|x [|y l]].
    + now apply elem_of_nil in Hin.
    + f_equal. apply Hall. apply elem_of_cons. tauto.
    + exfalso. apply NoDup_cons in Hnd as [Hx _]. apply Hx.
      rewrite (Hall x) by (apply elem_of_cons; tauto).
      rewrite (Hall y) by (apply elem_of_cons; right; apply elem_of_cons; tauto).
      apply elem_of_cons. tauto.
  - apply owned_0. intros u Hu Ho.
    apply (inv_active e He) in Hu. rewrite Ho, Ha in Hu. discriminate.
Qed.

(** Calls on one node leave the rendering units of every other node alone. *)
Lemma stopNode_isolated e c b :
  Inv e -> c <> b ->
  filter (fun u => src_owner u = b) (sounding (stopNode e c))
  = filter (fun u => src_owner u = b) (sounding e).
Proof.
  intros He Hne. unfold stopNode.
  destruct (activeNodes e !! c) as [s|] eqn:Ha; simpl; [|reflexivity].
  destruct (inv_state e He c s Ha) as (Hs & Hos & _).
  apply filter_halt_other. intros u Hu Ho.
  unfold same_unit. apply Nat.eqb_neq. intros Hid.
  assert (s = u).
  { apply (unique_id (sounding e)); [apply (inv_ids e He) | assumption ..]. }
  congruence.
Qed.

Lemma playAudioBuffer_isolated e c b audioBuffer loop now :
  Inv e -> c <> b ->
  filter (fun u => src_owner u = b)
         (sounding (playAudioBuffer e c audioBuffer loop now))
  = filter (fun u => src_owner u = b) (sounding e).
Proof.
  intros He Hne. unfold playAudioBuffer.
  destruct (initialized e); simpl; [|reflexivity].
  rewrite filter_cons_False by (simpl; congruence).
  now apply stopNode_isolated.
Qed.

End EngineInvariant.

(** ** The individual manager's bookkeeping invariant *)

Section ManagerInvariant.

Import IndividualPlaybackManager.

Lemma registered_sounding nodeIds :
  sounding (registered nodeIds) = [] /\ fresh (registered nodeIds) = 0%nat.
Proof.
  unfold registered.
  assert (H : forall m, sounding (foldl initializeNode m nodeIds) = sounding m
                        /\ fresh (foldl initializeNode m nodeIds) = fresh m).
  { induction nodeIds as [|n l IH]; simpl; intros m; [tauto|].
    destruct (IH (initializeNode m n)) as [-> ->]. tauto. }
  apply (H create).
Qed.

Lemma MInv_registered nodeIds : MInv (registered nodeIds).
Proof.
  destruct (registered_sounding nodeIds) as [Hs Hf].
  split; rewrite Hs; try constructor; intros u Hu; now apply elem_of_nil in Hu.
Qed.

Lemma stopNode_quiet m nodeId :
  MInv m -> forall u, u ∈ sounding (stopNode m nodeId) -> src_owner u <> nodeId.
Proof.
  intros [H1 _ _] u. unfold stopNode.
  destruct (nodeStates m !! nodeId) as [state|] eqn:Hst; simpl.
  - intros Hu Ho.
    assert (Hu' : u ∈ sounding m).
    { destruct (audioSource state); [apply elem_of_halt in Hu; tauto | assumption]. }
    destruct (H1 u Hu') as [st [Hst' Hsrc]]. rewrite Ho in Hst'.
    assert (st = state) by congruence. subst st. rewrite Hsrc in Hu.
    apply elem_of_halt in Hu as [Hne _]. now rewrite same_unit_refl in Hne.
  - intros Hu Ho. destruct (H1 u Hu) as [st [Hst' _]]. congruence.
Qed.

Lemma MInv_stopNode m nodeId : MInv m -> MInv (stopNode m nodeId).
Proof.
  intros Hm. pose proof (stopNode_quiet m nodeId Hm) as Hq.
  destruct Hm as [H1 H2 H3]. revert Hq. unfold stopNode.
  destruct (nodeStates m !! nodeId) as [state|] eqn:Hst; simpl; intros Hq;
    [|now split].
  assert (Hsub : forall u,
    u ∈ match audioSource state with
        | Some s => halt s (sounding m) | None => sounding m end ->
    u ∈ sounding m).
  { intros u Hu.
    destruct (audioSource state); [apply elem_of_halt in Hu; tauto | assumption]. }
  split; simpl.
  - intros u Hu. pose proof (Hq u Hu) as Hne.
    rewrite lookup_insert_ne by congruence. auto.
  - intros u Hu. auto.
  - destruct (audioSource state); [now apply NoDup_halt | assumption].
Qed.

Lemma stopNode_fresh_m m nodeId : fresh (stopNode m nodeId) = fresh m.
Proof. unfold stopNode. now destruct (nodeStates m !! nodeId). Qed.

Lemma MInv_playNode m nodeId audioBuffer now :
  MInv m -> MInv (playNode m nodeId audioBuffer now).
Proof.
  intros Hm. unfold playNode.
  destruct (nodeStates m !! nodeId) as [state|] eqn:Hst; [|assumption].
  pose proof (stopNode_quiet m nodeId Hm) as Hq.
  destruct (MInv_stopNode m nodeId Hm) as [H1 H2 H3].
  unfold startTimeTracking. split; simpl.
  - intros u Hu. apply elem_of_cons in Hu as [-> | Hu]; simpl.
    + rewrite lookup_insert_eq. eauto.
    + rewrite lookup_insert_ne by (apply not_eq_sym; auto). auto.
  - intros u Hu. apply elem_of_cons in Hu as [-> | Hu]; simpl; [lia|].
    apply H2 in Hu. lia.
  - apply NoDup_cons. split; [|assumption].
    intros Hin. apply H2 in Hin. simpl in Hin. lia.
Qed.

Lemma MInv_pauseNode m nodeId now : MInv m -> MInv (pauseNode m nodeId now).
Proof.
  intros Hm. unfold pauseNode.
  destruct (nodeStates m !! nodeId) as [state|] eqn:Hst; [|assumption].
  destruct (isPlaying state); simpl; [|assumption].
  destruct Hm as [H1 H2 H3].
  assert (Hsub : forall u,
    u ∈ match audioSource state with
        | Some s => halt s (sounding m) | None => sounding m end ->
    u ∈ sounding m /\ src_owner u <> nodeId).
  { intros u Hu.
    assert (Hu' : u ∈ sounding m).
    { destruct (audioSource state); [apply elem_of_halt in Hu; tauto | assumption]. }
    split; [assumption|]. intros Ho.
    destruct (H1 u Hu') as [st [Hst' Hsrc]]. rewrite Ho in Hst'.
    assert (st = state) by congruence. subst st. rewrite Hsrc in Hu.
    apply elem_of_halt in Hu as [Hne _]. now rewrite same_unit_refl in Hne. }
  split; simpl.
  - intros u Hu. apply Hsub in Hu as [Hu Hne].
    rewrite lookup_insert_ne by congruence. auto.
  - intros u Hu. apply Hsub in Hu as [Hu _]. auto.
  - destruct (audioSource state); [now apply NoDup_halt | assumption].
Qed.

Lemma MInv_tick m nodeId now : MInv m -> MInv (tick m nodeId now).
Proof.
  intros Hm. unfold tick.
  destruct (timeTrackers m !! nodeId) as [trk|]; [|assumption].
  destruct Hm as [H1 H2 H3].
  destruct (nodeStates m !! nodeId) as [state|] eqn:Hst; [|now split].
  destruct (isPlaying state); [|now split].
  split; simpl; auto.
  intros u Hu. destruct (H1 u Hu) as [st [Hst' Hsrc]].
  destruct (decide (nodeId = src_owner u)) as [-> | Hne].
  - rewrite lookup_insert_eq. assert (st = state) by congruence. subst st. eauto.
  - rewrite lookup_insert_ne by assumption. eauto.
Qed.

Lemma MInv_onended m unit : MInv m -> MInv (onended m unit).
Proof.
  intros Hm. unfold onended.
  destruct (find _ (sounding m)) as [s|] eqn:Hf; [|assumption].
  apply MInv_stopNode. destruct Hm as [H1 H2 H3]. split; simpl.
  - intros u Hu. apply elem_of_halt in Hu as [_ Hu]. auto.
  - intros u Hu. apply elem_of_halt in Hu as [_ Hu]. auto.
  - now apply NoDup_halt.
Qed.

Lemma MInv_step m op : MInv m -> MInv (step m op).
Proof.
  intros Hm. destruct op; simpl.
  - now apply MInv_playNode.
  - now apply MInv_pauseNode.
  - now apply MInv_stopNode.
  - unfold toggleNode. destruct (nodeStates m !! nodeId) as [state|]; [|assumption].
    destruct (isPlaying state); [now apply MInv_pauseNode | now apply MInv_playNode].
  - now apply MInv_tick.
  - now apply MInv_onended.
Qed.

Lemma MInv_run ops : forall m, MInv m -> MInv (run ops m).
Proof.
  unfold run. induction ops as [|op ops IH]; simpl; intros m Hm; [assumption|].
  apply IH. now apply MInv_step.
Qed.

Lemma MInv_live_units m n : MInv m -> (live_units n (sounding m) <= 1)%nat.
Proof.
  intros [H1 _ H3]. apply live_units_le_1; [assumption|].
  intros u v Hu Hv Hou Hov.
  destruct (H1 u Hu) as [st [Hst Hs]]. destruct (H1 v Hv) as [st' [Hst' Hs']].
  rewrite Hou in Hst. rewrite Hov in Hst'. congruence.
Qed.

End ManagerInvariant.

(** ** Resume *)

Lemma resumeOffset_inside st audioBuffer :
  0.01 < AudioEngine.pauseTime st - AudioEngine.startTime st ->
  AudioEngine.pauseTime st - AudioEngine.startTime st < duration audioBuffer ->
  AudioEngine.resumeOffset st audioBuffer
  = Some (AudioEngine.pauseTime st - AudioEngine.startTime st).
Proof.
  intros H1 H2. unfold AudioEngine.resumeOffset.
  assert (G := proj2 (resume_guard _ (duration audioBuffer)) (conj H1 H2)).
  rewrite G. now rewrite resume_guard_offset.
Qed.

Lemma resumeOffset_outside st audioBuffer :
  ~ (0.01 < AudioEngine.pauseTime st - AudioEngine.startTime st
     /\ AudioEngine.pauseTime st - AudioEngine.startTime st < duration audioBuffer) ->
  AudioEngine.resumeOffset st audioBuffer = None.
Proof.
  intros H. unfold AudioEngine.resumeOffset.
  destruct (Js.ltb 0.01 _ && Js.ltb _ (duration audioBuffer)) eqn:G; [|reflexivity].
  apply resume_guard in G. contradiction.
Qed.

Lemma classic_guard elapsed d :
  (0.01 < elapsed /\ elapsed < d) \/ ~ (0.01 < elapsed /\ elapsed < d).
Proof.
  destruct (Qlt_le_dec 0.01 elapsed) as [H1 | H1];
    [destruct (Qlt_le_dec elapsed d) as [H2 | H2]|].
  - left. tauto.
  - right. intros [_ H]. lra.
  - right. intros [H _]. lra.
Qed.

(** C1 (as the code has it).  [AudioEngine.resumeNode] on a paused node
    creates a fresh unit; with [elapsed = pauseTime - startTime] the stored
    resume offset, the unit starts at [elapsed] exactly when
    [0.01 < elapsed < duration], and at offset 0 for every other value,
    offsets at or beyond the duration included.
    [IndividualPlaybackManager.playNode], the resume path of the individual
    manager, has no such guard: on a paused node it starts the fresh unit at
    the stored [currentTime], whatever its value. *)
Theorem resume_start_offset :
  (forall e nodeId st audioBuffer now,
      AudioEngine.initialized e = true ->
      AudioEngine.nodeStates e !! nodeId = Some st ->
      AudioEngine.isPaused st = true ->
      let elapsed := AudioEngine.pauseTime st - AudioEngine.startTime st in
      let e' := AudioEngine.resumeNode e nodeId audioBuffer now in
      exists src st',
        AudioEngine.activeNodes e' !! nodeId = Some src
        /\ AudioEngine.sounding e' = src :: AudioEngine.sounding e
        /\ src_id src = AudioEngine.fresh e
        /\ src_owner src = nodeId
        /\ src_buffer src = audioBuffer
        /\ AudioEngine.nodeStates e' !! nodeId = Some st'
        /\ AudioEngine.source st' = Some src
        /\ AudioEngine.isPlaying st' = true
        /\ AudioEngine.isPaused st' = false
        /\ (0.01 < elapsed /\ elapsed < duration audioBuffer ->
            src_offset src = elapsed)
        /\ (~ (0.01 < elapsed /\ elapsed < duration audioBuffer) ->
            src_offset src = 0))
  /\ (forall m nodeId state audioBuffer now,
         IndividualPlaybackManager.nodeStates m !! nodeId = Some state ->
         IndividualPlaybackManager.isPaused state = true ->
         let m' := IndividualPlaybackManager.playNode m nodeId audioBuffer now in
         exists src state',
           IndividualPlaybackManager.sounding m'
           = src :: IndividualPlaybackManager.sounding
                      (IndividualPlaybackManager.stopNode m nodeId)
           /\ src_id src = IndividualPlaybackManager.fresh m
           /\ src_owner src = nodeId
           /\ src_buffer src = audioBuffer
           /\ IndividualPlaybackManager.nodeStates m' !! nodeId = Some state'
           /\ IndividualPlaybackManager.audioSource state' = Some src
           /\ IndividualPlaybackManager.isPlaying state' = true
           /\ src_offset src = IndividualPlaybackManager.currentTime state).
Proof.
  split.
  - intros e nodeId st audioBuffer now Hi Hst Hp elapsed e'.
    subst e'. unfold AudioEngine.resumeNode. rewrite Hst, Hp, Hi. simpl.
    destruct (classic_guard elapsed (duration audioBuffer)) as [Hin | Hout].
    + destruct Hin as [H1 H2].
      rewrite (resumeOffset_inside st audioBuffer H1 H2). simpl.
      eexists _, _. rewrite !lookup_insert_eq.
      repeat split; try reflexivity.
      intros Hn. exfalso. apply Hn. split; assumption.
    + rewrite (resumeOffset_outside st audioBuffer Hout). simpl.
      eexists _, _. rewrite !lookup_insert_eq.
      repeat split; try reflexivity.
      intros Hn. contradiction.
  - intros m nodeId state audioBuffer now Hst Hp m'.
    subst m'. unfold IndividualPlaybackManager.playNode. rewrite Hst, Hp.
    unfold IndividualPlaybackManager.startTimeTracking. simpl.
    eexists _, _. rewrite lookup_insert_eq, stopNode_fresh_m.
    repeat split; reflexivity.
Qed.

Lemma resume_start_offset_witness :
  AudioEngine.initialized Scenario.paused_engine = true
  /\ AudioEngine.nodeStates Scenario.paused_engine !! "a" = Some Scenario.paused_state
  /\ AudioEngine.isPaused Scenario.paused_state = true
  /\ exists src,
       AudioEngine.activeNodes
         (AudioEngine.resumeNode Scenario.paused_engine "a" Scenario.clip 3) !! "a"
       = Some src
       /\ src_offset src = 2 - 0.
Proof.
  assert (Hst : AudioEngine.nodeStates Scenario.paused_engine !! "a"
                = Some Scenario.paused_state) by (vm_compute; reflexivity).
  repeat split; try reflexivity; try exact Hst.
  destruct (proj1 resume_start_offset Scenario.paused_engine "a"
              Scenario.paused_state Scenario.clip 3 eq_refl Hst eq_refl)
    as (src & st' & Ha & _ & _ & _ & _ & _ & _ & _ & _ & Hin & _).
  exists src. split; [exact Ha|]. apply Hin. split; reflexivity.
Defined.

(** C1, the claim as stated, fails on the individual manager: a node paused
    at the stored offset 7s and resumed with a clip of 5s gets its fresh unit
    started at offset 7, not at offset 0. *)
Lemma manager_resume_beyond_duration :
  IndividualPlaybackManager.nodeStates Scenario.stale_manager !! "n"
  = Some Scenario.stale_state
  /\ IndividualPlaybackManager.isPaused Scenario.stale_state = true
  /\ duration Scenario.clip <= IndividualPlaybackManager.currentTime Scenario.stale_state
  /\ map src_offset
         (IndividualPlaybackManager.sounding
            (IndividualPlaybackManager.playNode Scenario.stale_manager "n"
               Scenario.clip 20)) = [7]
  /\ ~ 7 == 0.
Proof.
  repeat split; try (vm_compute; reflexivity); vm_compute; discriminate.
Qed.

(** ** At most one live unit per node *)

Lemma play_units e nodeId audioBuffer loop now :
  Inv e -> AudioEngine.initialized e = true ->
  live_units nodeId (AudioEngine.sounding (AudioEngine.stopNode e nodeId)) = 0%nat
  /\ filter (fun u => src_owner u = nodeId)
            (AudioEngine.sounding (AudioEngine.playAudioBuffer e nodeId audioBuffer loop now))
     = [mkSource (AudioEngine.fresh e) nodeId audioBuffer loop (S (AudioEngine.fresh e)) 0].
Proof.
  intros He Hi. pose proof (stopNode_silent e nodeId He) as Hs. split.
  - now apply live_units_0.
  - unfold AudioEngine.playAudioBuffer. rewrite Hi. simpl.
    rewrite filter_cons_True by reflexivity.
    rewrite owned_0 by assumption. now rewrite stopNode_fresh.
Qed.

Lemma resume_units e nodeId st audioBuffer now :
  Inv e -> AudioEngine.nodeStates e !! nodeId = Some st ->
  AudioEngine.isPaused st = true ->
  live_units nodeId (AudioEngine.sounding e) = 0%nat
  /\ exists src,
       filter (fun u => src_owner u = nodeId)
              (AudioEngine.sounding (AudioEngine.resumeNode e nodeId audioBuffer now))
       = [src] /\ src_id src = AudioEngine.fresh e.
Proof.
  intros He Hst Hp. pose proof (paused_silent e nodeId st He Hst Hp) as Hs.
  split; [now apply live_units_0|].
  unfold AudioEngine.resumeNode. rewrite Hst, Hp.
  rewrite (inv_init e He nodeId st Hst). simpl.
  destruct (AudioEngine.resumeOffset st audioBuffer); simpl;
    eexists; rewrite filter_cons_True by reflexivity;
    rewrite owned_0 by assumption; split; reflexivity.
Qed.

Lemma manager_play_units m nodeId state audioBuffer now :
  MInv m -> IndividualPlaybackManager.nodeStates m !! nodeId = Some state ->
  live_units nodeId
    (IndividualPlaybackManager.sounding (IndividualPlaybackManager.stopNode m nodeId))
  = 0%nat
  /\ exists src,
       filter (fun u => src_owner u = nodeId)
              (IndividualPlaybackManager.sounding
                 (IndividualPlaybackManager.playNode m nodeId audioBuffer now))
       = [src] /\ src_id src = IndividualPlaybackManager.fresh m.
Proof.
  intros Hm Hst. pose proof (stopNode_quiet m nodeId Hm) as Hq.
  split; [now apply live_units_0|].
  unfold IndividualPlaybackManager.playNode. rewrite Hst.
  unfold IndividualPlaybackManager.startTimeTracking. simpl.
  eexists. rewrite filter_cons_True by reflexivity.
  rewrite owned_0 by assumption. rewrite stopNode_fresh_m. split; reflexivity.
Qed.

(** The single-unit invariant on the runs whose callbacks are natural ends.
    After every sequence of play, pause, resume and stop calls (and of
    natural ends of units, volume and mute calls, timer ticks), on any nodes,
    each node has at most one live playback unit, in the engine and in the
    individual manager alike.  Every call that brings a node into Playing
    either changes nothing or leaves the node with exactly one live unit, the
    fresh one: [playAudioBuffer] and the manager's [playNode] first stop the
    registered unit, [resumeNode] runs on a paused node, which has none. *)
Theorem one_live_unit_on_natural_runs :
  (forall ops nodeId,
      (live_units nodeId
         (AudioEngine.sounding (AudioEngine.run ops AudioEngine.create)) <= 1)%nat)
  /\ (forall nodeIds ops nodeId,
         (live_units nodeId
            (IndividualPlaybackManager.sounding
               (IndividualPlaybackManager.run ops
                  (IndividualPlaybackManager.registered nodeIds))) <= 1)%nat)
  /\ (forall ops nodeId audioBuffer loop now,
         let e := AudioEngine.run ops AudioEngine.create in
         let e' := AudioEngine.playAudioBuffer e nodeId audioBuffer loop now in
         e' = e
         \/ (live_units nodeId (AudioEngine.sounding (AudioEngine.stopNode e nodeId)) = 0%nat
             /\ exists src,
                 filter (fun u => src_owner u = nodeId) (AudioEngine.sounding e') = [src]
                 /\ src_id src = AudioEngine.fresh e))
  /\ (forall ops nodeId audioBuffer now,
         let e := AudioEngine.run ops AudioEngine.create in
         let e' := AudioEngine.resumeNode e nodeId audioBuffer now in
         e' = e
         \/ (live_units nodeId (AudioEngine.sounding e) = 0%nat
             /\ exists src,
                 filter (fun u => src_owner u = nodeId) (AudioEngine.sounding e') = [src]
                 /\ src_id src = AudioEngine.fresh e))
  /\ (forall nodeIds ops nodeId audioBuffer now,
         let m := IndividualPlaybackManager.run ops
                    (IndividualPlaybackManager.registered nodeIds) in
         let m' := IndividualPlaybackManager.playNode m nodeId audioBuffer now in
         m' = m
         \/ (live_units nodeId
               (IndividualPlaybackManager.sounding
                  (IndividualPlaybackManager.stopNode m nodeId)) = 0%nat
             /\ exists src,
                 filter (fun u => src_owner u = nodeId)
                        (IndividualPlaybackManager.sounding m') = [src]
                 /\ src_id src = IndividualPlaybackManager.fresh m)).
Proof.
  repeat split.
  - intros ops nodeId. apply Inv_live_units, Inv_run, Inv_create.
  - intros nodeIds ops nodeId. apply MInv_live_units, MInv_run, MInv_registered.
  - intros ops nodeId audioBuffer loop now e e'.
    assert (He : Inv e) by apply Inv_run, Inv_create.
    destruct (AudioEngine.initialized e) eqn:Hi.
    + right. destruct (play_units e nodeId audioBuffer loop now He Hi) as [H0 H1].
      split; [assumption|]. eexists. split; [exact H1 | reflexivity].
    + left. subst e'. unfold AudioEngine.playAudioBuffer. now rewrite Hi.
  - intros ops nodeId audioBuffer now e e'.
    assert (He : Inv e) by apply Inv_run, Inv_create.
    destruct (AudioEngine.nodeStates e !! nodeId) as [st|] eqn:Hst.
    + destruct (AudioEngine.isPaused st) eqn:Hp.
      * right. now apply resume_units with (st := st).
      * left. subst e'. unfold AudioEngine.resumeNode. now rewrite Hst, Hp.
    + left. subst e'. unfold AudioEngine.resumeNode. now rewrite Hst.
  - intros nodeIds ops nodeId audioBuffer now m m'.
    assert (Hm : MInv m) by apply MInv_run, MInv_registered.
    destruct (IndividualPlaybackManager.nodeStates m !! nodeId) as [state|] eqn:Hst.
    + right. now apply manager_play_units with (state := state).
    + left. subst m'. unfold IndividualPlaybackManager.playNode. now rewrite Hst.
Qed.

(** C4 (the engine breaks it).  Play, play again, play once more on one
    node, with the [ended] event of the first source arriving after the
    second play, as it does when a source is stopped by [stop()].  The second
    play stops source 0 and registers source 2; the closure of source 0 then
    deletes the registration of the node, which is that of source 2; from
    there neither [stopNode] nor the teardown of the third play reaches
    source 2, and after the third play the node has two live units. *)
Theorem late_ended_leaves_two_live_units :
  let e2 := Scenario.restarted_engine in
  let e3 := AudioEngine.endedHandler e2 "a" in
  let e4 := AudioEngine.playAudioBuffer e3 "a" Scenario.clip false 2 in
  src_id <$> AudioEngine.sounding e2 = [2%nat]
  /\ src_id <$> AudioEngine.activeNodes e2 !! "a" = Some 2%nat
  /\ AudioEngine.activeNodes e3 !! "a" = None
  /\ AudioEngine.sounding e3 = AudioEngine.sounding e2
  /\ AudioEngine.sounding (AudioEngine.stopNode e3 "a") = AudioEngine.sounding e2
  /\ src_id <$> AudioEngine.sounding e4 = [4%nat; 2%nat]
  /\ live_units "a" (AudioEngine.sounding e4) = 2%nat.
Proof. repeat split; vm_compute; reflexivity. Qed.

(** ** Stop and pause in the individual manager *)

(** C2 (as the code has it).  In the individual manager, [stopNode] on a
    registered node, and the natural end of its unit, store the resume offset
    0 and leave the node neither playing nor paused, whatever its state was.
    [pauseNode] never changes the stored offset [currentTime]: after a pause
    it is the position the tracking interval wrote at its last tick (the
    start offset when no tick came), not the position at the clock of the
    pause, which only goes to [pausedAt]; a following [playNode] starts the
    fresh unit at exactly that stored offset and keeps it stored. *)
Theorem stop_resets_pause_keeps :
  forall m nodeId state,
    IndividualPlaybackManager.nodeStates m !! nodeId = Some state ->
    IndividualPlaybackManager.nodeStates
      (IndividualPlaybackManager.stopNode m nodeId) !! nodeId
    = Some (IndividualPlaybackManager.mkState false false 0 None None)
    /\ (forall unit s,
          find (fun u => Nat.eqb unit (src_id u)) (IndividualPlaybackManager.sounding m)
          = Some s ->
          src_owner s = nodeId ->
          IndividualPlaybackManager.nodeStates
            (IndividualPlaybackManager.onended m unit) !! nodeId
          = Some (IndividualPlaybackManager.mkState false false 0 None None))
    /\ (forall now,
          IndividualPlaybackManager.currentTime <$>
            IndividualPlaybackManager.nodeStates
              (IndividualPlaybackManager.pauseNode m nodeId now) !! nodeId
          = Some (IndividualPlaybackManager.currentTime state))
    /\ (forall now,
          IndividualPlaybackManager.isPlaying state = true ->
          IndividualPlaybackManager.nodeStates
            (IndividualPlaybackManager.pauseNode m nodeId now) !! nodeId
          = Some (IndividualPlaybackManager.mkState false true
                    (IndividualPlaybackManager.currentTime state) None (Some now)))
    /\ (forall trk t now,
          IndividualPlaybackManager.isPlaying state = true ->
          IndividualPlaybackManager.timeTrackers m !! nodeId = Some trk ->
          IndividualPlaybackManager.currentTime <$>
            IndividualPlaybackManager.nodeStates
              (IndividualPlaybackManager.pauseNode
                 (IndividualPlaybackManager.tick m nodeId t) nodeId now) !! nodeId
          = Some (IndividualPlaybackManager.trk_startTime trk
                  + (t - IndividualPlaybackManager.startRealTime trk)))
    /\ (forall now audioBuffer later,
          IndividualPlaybackManager.isPlaying state = true ->
          let paused := IndividualPlaybackManager.pauseNode m nodeId now in
          let resumed := IndividualPlaybackManager.playNode paused nodeId audioBuffer later in
          map src_offset (IndividualPlaybackManager.sounding resumed)
          = IndividualPlaybackManager.currentTime state
              :: map src_offset (IndividualPlaybackManager.sounding paused)
          /\ IndividualPlaybackManager.currentTime <$>
               IndividualPlaybackManager.nodeStates resumed !! nodeId
             = Some (IndividualPlaybackManager.currentTime state)).
Proof.
  intros m nodeId state Hst.
  split; [|split; [|split; [|split; [|split]]]].
  - unfold IndividualPlaybackManager.stopNode. rewrite Hst. simpl.
    apply lookup_insert_eq.
  - intros unit s Hf Ho. unfold IndividualPlaybackManager.onended. rewrite Hf.
    unfold IndividualPlaybackManager.stopNode. simpl. rewrite Ho, Hst. simpl.
    apply lookup_insert_eq.
  - intros now. unfold IndividualPlaybackManager.pauseNode. rewrite Hst.
    destruct (IndividualPlaybackManager.isPlaying state); simpl.
    + now rewrite lookup_insert_eq.
    + now rewrite Hst.
  - intros now Hp. unfold IndividualPlaybackManager.pauseNode. rewrite Hst, Hp.
    simpl. apply lookup_insert_eq.
  - intros trk t now Hp Ht. unfold IndividualPlaybackManager.tick.
    rewrite Ht, Hst, Hp. unfold IndividualPlaybackManager.pauseNode. simpl.
    rewrite lookup_insert_eq. simpl.
    now rewrite lookup_insert_eq.
  - intros now audioBuffer later Hp.
    unfold IndividualPlaybackManager.pauseNode. rewrite Hst, Hp. simpl.
    unfold IndividualPlaybackManager.playNode. simpl.
    rewrite lookup_insert_eq. simpl. split.
    + unfold IndividualPlaybackManager.stopNode. simpl.
      rewrite lookup_insert_eq. reflexivity.
    + now rewrite lookup_insert_eq.
Qed.

Lemma stop_resets_pause_keeps_witness :
  IndividualPlaybackManager.nodeStates Scenario.tracked_manager !! "n"
  = Some Scenario.tracked_state
  /\ IndividualPlaybackManager.nodeStates
       (IndividualPlaybackManager.stopNode Scenario.tracked_manager "n") !! "n"
     = Some (IndividualPlaybackManager.mkState false false 0 None None)
  /\ IndividualPlaybackManager.currentTime <$>
       IndividualPlaybackManager.nodeStates
         (IndividualPlaybackManager.pauseNode Scenario.tracked_manager "n" 10.15) !! "n"
     = Some (0 + (10.1 - 10)).
Proof.
  assert (Hst : IndividualPlaybackManager.nodeStates Scenario.tracked_manager !! "n"
                = Some Scenario.tracked_state) by (vm_compute; reflexivity).
  destruct (stop_resets_pause_keeps Scenario.tracked_manager "n"
              Scenario.tracked_state Hst) as (Hstop & _ & Hpause & _).
  split; [exact Hst|]. split; [exact Hstop|]. exact (Hpause 10.15).
Defined.

(** C2, the claim as stated, fails on the individual manager: with the last
    tick at clock 10.1 and the pause at clock 10.15 of a unit started at clock
    10, the playback position at the pause is 0.15s but the stored offset
    after the pause is the 0.1s of the last tick. *)
Lemma pause_stores_last_tick :
  exists elapsed stored,
    IndividualPlaybackManager.position Scenario.tracked_manager "n" 10.15 = Some elapsed
    /\ IndividualPlaybackManager.currentTime <$>
         IndividualPlaybackManager.nodeStates
           (IndividualPlaybackManager.pauseNode Scenario.tracked_manager "n" 10.15) !! "n"
       = Some stored
    /\ elapsed == 0.15 /\ stored == 0.1 /\ ~ stored == elapsed.
Proof.
  eexists _, _. split; [vm_compute; reflexivity|].
  split; [vm_compute; reflexivity|].
  repeat split; vm_compute; discriminate || reflexivity.
Qed.

(** ** Volume and mute *)



(** ** A fresh play and the gain stage *)

(** C10.  On a node that already has playback state, over an initialised
    engine (states are only ever created by one), [playAudioBuffer] replaces
    the gain stage in the state by a freshly created gain node of value 1, to
    which the new unit is connected, and leaves the stored [volume] and
    [isMuted] as they were.  So a node of stored volume below 1, or a muted one, is rendered at
    gain 1 after the play, until [setNodeVolume], [muteNode] or
    [unmuteNode] writes the gain again. *)
Theorem play_resets_gain :
  forall e nodeId st audioBuffer loop now,
    AudioEngine.initialized e = true ->
    AudioEngine.nodeStates e !! nodeId = Some st ->
    let e' := AudioEngine.playAudioBuffer e nodeId audioBuffer loop now in
    exists st' src,
      AudioEngine.nodeStates e' !! nodeId = Some st'
      /\ AudioEngine.gainNode st' = mkGain (S (AudioEngine.fresh e)) 1
      /\ ((gain_id (AudioEngine.gainNode st) < AudioEngine.fresh e)%nat ->
          gain_id (AudioEngine.gainNode st) <> gain_id (AudioEngine.gainNode st'))
      /\ AudioEngine.volume st' = AudioEngine.volume st
      /\ AudioEngine.isMuted st' = AudioEngine.isMuted st
      /\ AudioEngine.activeNodes e' !! nodeId = Some src
      /\ src ∈ AudioEngine.sounding e'
      /\ src_out src = gain_id (AudioEngine.gainNode st')
      /\ AudioEngine.effectiveGain e' nodeId = Some 1
      /\ (forall v, AudioEngine.effectiveGain (AudioEngine.setNodeVolume e' nodeId v) nodeId
                    = Some (if AudioEngine.isMuted st then 0 else Js.clamp01 v))
      /\ AudioEngine.effectiveGain (AudioEngine.muteNode e' nodeId) nodeId = Some 0
      /\ AudioEngine.effectiveGain (AudioEngine.unmuteNode e' nodeId) nodeId
         = Some (AudioEngine.volume st).
Proof.
  intros e nodeId st audioBuffer loop now Hi Hst e'.
  assert (Hst1 : AudioEngine.nodeStates (AudioEngine.stopNode e nodeId) !! nodeId
                 = Some (AudioEngine.halted st)).
  { unfold AudioEngine.stopNode.
    destruct (AudioEngine.activeNodes e !! nodeId); simpl;
      now rewrite lookup_alter_eq, Hst. }
  subst e'. unfold AudioEngine.playAudioBuffer. rewrite Hi. simpl.
  rewrite Hst1, stopNode_fresh. simpl.
  eexists _, _. rewrite !lookup_insert_eq.
  split; [reflexivity|]. simpl.
  repeat split; try reflexivity; try lia.
  - apply elem_of_cons. tauto.
  - unfold AudioEngine.effectiveGain. simpl. now rewrite lookup_insert_eq.
  - intros v. unfold AudioEngine.effectiveGain, AudioEngine.setNodeVolume. simpl.
    rewrite lookup_insert_eq. simpl. now rewrite lookup_insert_eq.
  - unfold AudioEngine.effectiveGain, AudioEngine.muteNode. simpl.
    rewrite lookup_insert_eq. simpl. now rewrite lookup_insert_eq.
  - unfold AudioEngine.effectiveGain, AudioEngine.unmuteNode. simpl.
    rewrite lookup_insert_eq. simpl. now rewrite lookup_insert_eq.
Qed.

Lemma play_resets_gain_witness :
  AudioEngine.initialized Scenario.muted_engine = true
  /\ AudioEngine.nodeStates Scenario.muted_engine !! "a" = Some Scenario.muted_state
  /\ AudioEngine.volume Scenario.muted_state = 0.8
  /\ AudioEngine.isMuted Scenario.muted_state = true
  /\ exists st',
       AudioEngine.nodeStates
         (AudioEngine.playAudioBuffer Scenario.muted_engine "a" Scenario.clip false 4) !! "a"
       = Some st'
       /\ gain_value (AudioEngine.gainNode st') = 1
       /\ AudioEngine.volume st' = 0.8
       /\ AudioEngine.isMuted st' = true.
Proof.
  assert (Hst : AudioEngine.nodeStates Scenario.muted_engine !! "a"
                = Some Scenario.muted_state) by (vm_compute; reflexivity).
  destruct (play_resets_gain Scenario.muted_engine "a" Scenario.muted_state
              Scenario.clip false 4 eq_refl Hst)
    as (st' & src & H1 & H2 & _ & H3 & H4 & _).
  split; [reflexivity|]. split; [exact Hst|]. split; [reflexivity|].
  split; [reflexivity|].
  exists st'. split; [exact H1|]. rewrite H2, H3, H4. repeat split.
Defined.

(** ** Group play and group stop *)

Section Propagation.

Import NodeManager.


Lemma stopNode_other e c b :
  c <> b -> engineEntry (AudioEngine.stopNode e c) b = engineEntry e b.
Proof.
  intros Hne. unfold engineEntry, AudioEngine.stopNode.
  destruct (AudioEngine.activeNodes e !! c); simpl;
    rewrite ?lookup_delete_ne, lookup_alter_ne by assumption; reflexivity.
Qed.

Lemma playAudioBuffer_other e c b audioBuffer loop now :
  c <> b ->
  engineEntry (AudioEngine.playAudioBuffer e c audioBuffer loop now) b
  = engineEntry e b.
Proof.
  intros Hne. unfold AudioEngine.playAudioBuffer.
  destruct (AudioEngine.initialized e); simpl; [|reflexivity].
  rewrite <- (stopNode_other e c b Hne). unfold engineEntry. simpl.
  now rewrite !lookup_insert_ne by assumption.
Qed.


Lemma playConnected_other loop now m c b :
  c <> b ->
  nodes (playConnected loop now m c) !! b = nodes m !! b
  /\ engineEntry (audioEngine (playConnected loop now m c)) b
     = engineEntry (audioEngine m) b.
Proof.
  intros Hne. unfold playConnected.
  destruct (nodes m !! c) as [cn|]; [|tauto].
  destruct (audioBuffer cn) as [buf|]; [|tauto].
  destruct (isPlaying cn); simpl; [tauto|].
  rewrite lookup_alter_ne by assumption. split; [reflexivity|].
  now apply playAudioBuffer_other.
Qed.





Lemma stopConnected_silences m b : silenced (stopConnected m b) b.
Proof.
  unfold silenced, stopConnected, AudioEngine.stopNode. simpl.
  split; [|split].
  - destruct (AudioEngine.activeNodes (audioEngine m) !! b) eqn:E; simpl;
      [apply lookup_delete_eq | assumption].
  - intros st Hst.
    assert (Hx : exists x, st = AudioEngine.halted x).
    { destruct (AudioEngine.activeNodes (audioEngine m) !! b); simpl in Hst;
        apply lookup_alter_Some in Hst as [[_ [x [_ ->]]] | [Hne _]];
        eauto; congruence. }
    destruct Hx as [x ->]. repeat split.
  - intros n Hn. apply lookup_alter_Some in Hn as [[_ [x [_ ->]]] | [Hne _]];
      reflexivity || congruence.
Qed.

Lemma stopConnected_keeps m c b : silenced m b -> silenced (stopConnected m c) b.
Proof.
  destruct (decide (c = b)) as [-> | Hne]; [intros _; apply stopConnected_silences|].
  intros (H1 & H2 & H3). unfold silenced, stopConnected. simpl.
  pose proof (stopNode_other (audioEngine m) c b Hne) as E.
  unfold engineEntry in E. injection E as E1 E2. rewrite E1, E2.
  rewrite lookup_alter_ne by assumption. tauto.
Qed.

Lemma propagate_stop l b : forall m, silenced m b -> silenced (foldl stopConnected m l) b.
Proof.
  induction l as [|c l IH]; simpl; intros m Hs; [assumption|].
  apply IH. now apply stopConnected_keeps.
Qed.

Lemma propagate_stop_reaches l b :
  forall m, b ∈ l -> silenced (foldl stopConnected m l) b.
Proof.
  induction l as [|c l IH]; simpl; intros m Hin.
  - now apply elem_of_nil in Hin.
  - apply elem_of_cons in Hin as [-> | Hin].
    + apply propagate_stop, stopConnected_silences.
    + now apply IH.
Qed.


Lemma Inv_stopNode_group m a :
  Inv (audioEngine m) -> Inv (audioEngine (stopNode m a)).
Proof.
  intros He. unfold stopNode.
  assert (H : forall l m0, Inv (audioEngine m0) ->
            Inv (audioEngine (foldl stopConnected m0 l))).
  { induction l as [|c l IH]; simpl; intros m0 H0; [assumption|].
    apply IH. simpl. now apply Inv_stopNode. }
  assert (H1 : Inv (audioEngine (stopConnected m a)))
    by (simpl; now apply Inv_stopNode).
  destruct (nodes (stopConnected m a) !! a); [now apply H | assumption].
Qed.

End Propagation.




(** ** The connection graph *)

Section Graph.

Import NodeManager.

Lemma elem_of_without n x l : x ∈ without n l <-> x <> n /\ x ∈ l.
Proof. unfold without. now rewrite list_elem_of_filter. Qed.

Lemma without_absent n l : n ∉ l -> without n l = l.
Proof.
  unfold without. induction l as [|x l IH]; intros Hn; [reflexivity|].
  apply not_elem_of_cons in Hn as [Hne Hn].
  rewrite filter_cons_True by congruence. now rewrite IH.
Qed.

Lemma without_idem n l : without n (without n l) = without n l.
Proof.
  apply without_absent. rewrite elem_of_without. tauto.
Qed.

Lemma links_Some m x l :
  links m x = Some l <-> exists nx, nodes m !! x = Some nx /\ connections nx = l.
Proof.
  unfold links. destruct (nodes m !! x) as [nx|]; simpl; split.
  - intros [= <-]. eauto.
  - intros (nx' & [= <-] & <-). reflexivity.
  - discriminate.
  - intros (nx' & Hx & _). discriminate.
Qed.

Lemma linked_alt m :
  linked m <->
  forall a la b, links m a = Some la -> b ∈ la ->
                 exists lb, links m b = Some lb /\ a ∈ lb.
Proof.
  split.
  - intros H a la b Ha Hb. apply links_Some in Ha as (na & Ha & <-).
    destruct (H a na b Ha Hb) as (nb & Hnb & Hin).
    exists (connections nb). split; [|assumption]. apply links_Some. eauto.
  - intros H a na b Ha Hb.
    destruct (H a (connections na) b) as (lb & Hlb & Hin); [|assumption|].
    + apply links_Some. eauto.
    + apply links_Some in Hlb as (nb & Hnb & <-). eauto.
Qed.

Lemma links_alter m x c f :
  links (updateNodeState m c f) x
  = if decide (c = x) then connections <$> (f <$> nodes m !! x) else links m x.
Proof.
  unfold links, updateNodeState. simpl.
  destruct (decide (c = x)) as [-> | Hne].
  - now rewrite lookup_alter_eq.
  - now rewrite lookup_alter_ne.
Qed.

Lemma links_stopConnected m c x : links (stopConnected m c) x = links m x.
Proof.
  unfold stopConnected. rewrite links_alter. simpl.
  destruct (decide (c = x)) as [-> | Hne]; [|reflexivity].
  unfold links. now destruct (nodes m !! x).
Qed.

Lemma links_stopNode m nodeId x : links (stopNode m nodeId) x = links m x.
Proof.
  unfold stopNode.
  assert (H : forall l m0, links (foldl stopConnected m0 l) x = links m0 x).
  { induction l as [|c l IH]; simpl; intros m0; [reflexivity|].
    now rewrite IH, links_stopConnected. }
  destruct (nodes (stopConnected m nodeId) !! nodeId);
    rewrite ?H; apply links_stopConnected.
Qed.

Lemma links_disconnect m nodeId c x :
  x <> nodeId ->
  links (disconnectNodes m nodeId c) x
  = (fun l => if decide (x = c) then without nodeId l else l) <$> links m x.
Proof.
  intros Hne. unfold disconnectNodes. rewrite links_alter.
  destruct (decide (c = x)) as [-> | Hc].
  - unfold updateNodeState, links. simpl.
    rewrite lookup_alter_ne by congruence.
    destruct (nodes m !! x); simpl; [|reflexivity].
    now rewrite decide_True by reflexivity.
  - rewrite links_alter. rewrite decide_False by congruence.
    destruct (links m x); simpl; [|reflexivity].
    now rewrite decide_False by congruence.
Qed.

Lemma links_disconnect_all nodeId x l :
  x <> nodeId ->
  forall m,
    links (foldl (fun m c => disconnectNodes m nodeId c) m l) x
    = (fun cs => if decide (x ∈ l) then without nodeId cs else cs) <$> links m x.
Proof.
  intros Hne. induction l as [|c l IH]; simpl; intros m.
  - destruct (links m x) as [cs|]; [|reflexivity].
    change (Some (if decide (x ∈ []) then without nodeId cs else cs) = Some cs).
    destruct (decide (x ∈ [])) as [H | H]; [now apply elem_of_nil in H | reflexivity].
  - rewrite IH, links_disconnect by assumption.
    destruct (links m x) as [cs|]; simpl; [|reflexivity]. f_equal.
    destruct (decide (x = c)) as [-> | Hc].
    + rewrite (decide_True (P := c ∈ c :: l)) by (apply elem_of_cons; tauto).
      destruct (decide (c ∈ l)); [apply without_idem | reflexivity].
    + destruct (decide (x ∈ l)) as [Hl | Hl].
      * rewrite decide_True by (apply elem_of_cons; tauto). reflexivity.
      * rewrite decide_False; [reflexivity|].
        intros Hin. apply elem_of_cons in Hin. tauto.
Qed.

Lemma engine_disconnect_all nodeId l :
  forall m, audioEngine (foldl (fun m c => disconnectNodes m nodeId c) m l)
            = audioEngine m.
Proof.
  induction l as [|c l IH]; simpl; intros m; [reflexivity|]. now rewrite IH.
Qed.

Lemma stopNode_silences m nodeId : silenced (stopNode m nodeId) nodeId.
Proof.
  unfold stopNode.
  destruct (nodes (stopConnected m nodeId) !! nodeId);
    [apply propagate_stop|]; apply stopConnected_silences.
Qed.

(** The links every remaining node has after [removeNode]. *)
Lemma links_removeNode m nodeId x :
  linked m -> x <> nodeId ->
  links (removeNode m nodeId) x = without nodeId <$> links m x.
Proof.
  intros Hl Hne. unfold removeNode.
  destruct (nodes m !! nodeId) as [node|] eqn:Hn.
  - unfold links at 1. simpl. rewrite lookup_delete_ne by congruence.
    fold (links (foldl (fun m0 c => disconnectNodes m0 nodeId c)
                       (stopNode m nodeId) (connections node)) x).
    rewrite links_disconnect_all, links_stopNode by assumption.
    destruct (links m x) as [cs|] eqn:Hx; simpl; [|reflexivity]. f_equal.
    destruct (decide (x ∈ connections node)) as [Hin | Hout]; [reflexivity|].
    symmetry. apply without_absent. intros Hc.
    apply links_Some in Hx as (nx & Hx & <-).
    destruct (Hl x nx nodeId Hx Hc) as (nb & Hnb & Hin).
    assert (nb = node) by congruence. subst nb. contradiction.
  - destruct (links m x) as [cs|] eqn:Hx; simpl; [|reflexivity]. f_equal.
    symmetry. apply without_absent. intros Hc.
    apply links_Some in Hx as (nx & Hx & <-).
    destruct (Hl x nx nodeId Hx Hc) as (nb & Hnb & _). congruence.
Qed.

Lemma removeNode_gone m nodeId : nodes (removeNode m nodeId) !! nodeId = None.
Proof.
  unfold removeNode. destruct (nodes m !! nodeId) eqn:Hn; [|assumption].
  simpl. apply lookup_delete_eq.
Qed.

End Graph.

(** C5.  On a connection graph whose lists are symmetric, [removeNode]
    first runs the group stop of the node: the engine is left as by
    [stopNode], with no active unit, a halted state and (over an engine that
    keeps its books) no rendering unit for the node.  It then
    takes the node out of the lists of all its neighbours and deletes its
    record: afterwards the node is gone, every remaining node keeps its links
    except the one to the deleted node, no remaining node lists the deleted
    id, and the lists are symmetric again. *)
Theorem remove_leaves_no_dangling :
  forall m nodeId,
    linked m ->
    let m' := NodeManager.removeNode m nodeId in
    NodeManager.nodes m' !! nodeId = None
    /\ (forall x nx, NodeManager.nodes m' !! x = Some nx ->
                     nodeId ∉ NodeManager.connections nx)
    /\ (forall x, x <> nodeId ->
                  links m' x = NodeManager.without nodeId <$> links m x)
    /\ linked m'
    /\ (is_Some (NodeManager.nodes m !! nodeId) ->
        NodeManager.audioEngine m'
        = NodeManager.audioEngine (NodeManager.stopNode m nodeId)
        /\ AudioEngine.activeNodes (NodeManager.audioEngine m') !! nodeId = None
        /\ (forall st,
               AudioEngine.nodeStates (NodeManager.audioEngine m') !! nodeId = Some st ->
               AudioEngine.isPlaying st = false /\ AudioEngine.isPaused st = false
               /\ AudioEngine.source st = None)
        /\ (Inv (NodeManager.audioEngine m) ->
            filter (fun u => src_owner u = nodeId)
                   (AudioEngine.sounding (NodeManager.audioEngine m')) = [])).
Proof.
  intros m nodeId Hl m'.
  assert (Hgone : NodeManager.nodes m' !! nodeId = None) by apply removeNode_gone.
  assert (Hlinks : forall x, x <> nodeId ->
            links m' x = NodeManager.without nodeId <$> links m x)
    by (intros x Hx; now apply links_removeNode).
  assert (Hnone : forall x nx, NodeManager.nodes m' !! x = Some nx ->
            nodeId ∉ NodeManager.connections nx).
  { intros x nx Hx Hin.
    assert (Hne : x <> nodeId) by congruence.
    assert (Hlx : links m' x = Some (NodeManager.connections nx))
      by (apply links_Some; eauto).
    rewrite Hlinks in Hlx by assumption.
    destruct (links m x) as [cs|]; simpl in Hlx; [|discriminate].
    injection Hlx as Hlx. rewrite <- Hlx in Hin.
    apply elem_of_without in Hin. tauto. }
  split; [assumption|]. split; [assumption|]. split; [assumption|]. split.
  - apply linked_alt. intros a la b Ha Hb.
    assert (Hane : a <> nodeId).
    { intros ->. apply links_Some in Ha as (na & Ha & _). congruence. }
    rewrite Hlinks in Ha by assumption.
    destruct (links m a) as [cs|] eqn:Hcs; simpl in Ha; [|discriminate].
    injection Ha as <-. apply elem_of_without in Hb as [Hbne Hb].
    destruct (proj1 (linked_alt m) Hl a cs b Hcs Hb) as (lb & Hlb & Hin).
    exists (NodeManager.without nodeId lb). rewrite Hlinks, Hlb by assumption.
    split; [reflexivity|]. apply elem_of_without. tauto.
  - intros [node Hn]. subst m'. unfold NodeManager.removeNode.
    rewrite Hn. simpl. rewrite engine_disconnect_all.
    destruct (stopNode_silences m nodeId) as (S1 & S2 & _).
    split; [reflexivity|]. split; [exact S1|]. split; [exact S2|].
    intros He. rewrite (Inv_units _ nodeId (Inv_stopNode_group m nodeId He)).
    now rewrite S1.
Qed.

Lemma trio_linked : linked Scenario.trio.
Proof.
  intros a na b Ha Hb. unfold Scenario.trio in Ha. simpl in Ha.
  repeat (apply lookup_insert_Some in Ha as [[<- <-] | [? Ha]];
          [simpl in Hb;
           repeat (apply elem_of_cons in Hb as [-> | Hb]);
           try (now apply elem_of_nil in Hb);
           (eexists; split; [vm_compute; reflexivity | simpl; set_solver]) |]).
  rewrite lookup_empty in Ha. discriminate.
Qed.

Lemma remove_leaves_no_dangling_witness :
  linked Scenario.trio
  /\ NodeManager.nodes (NodeManager.removeNode Scenario.trio "a") !! "a" = None
  /\ links (NodeManager.removeNode Scenario.trio "a") "b"
     = NodeManager.without "a" <$> links Scenario.trio "b"
  /\ NodeManager.without "a" <$> links Scenario.trio "b" = Some [].
Proof.
  destruct (remove_leaves_no_dangling Scenario.trio "a" trio_linked)
    as (Hgone & _ & Hlinks & _).
  split; [exact trio_linked|]. split; [exact Hgone|].
  split; [apply Hlinks; discriminate | vm_compute; reflexivity].
Defined.

(** ** Connecting *)

Lemma connectNodes_links m a b na nb :
  NodeManager.nodes m !! a = Some na -> NodeManager.nodes m !! b = Some nb ->
  a <> b -> b ∉ NodeManager.connections na ->
  links (NodeManager.connectNodes m a b) a = Some (NodeManager.connections na ++ [b])
  /\ links (NodeManager.connectNodes m a b) b = Some (NodeManager.connections nb ++ [a])
  /\ (forall x, x <> a -> x <> b ->
                NodeManager.nodes (NodeManager.connectNodes m a b) !! x
                = NodeManager.nodes m !! x).
Proof.
  intros Ha Hb Hne Hout. unfold NodeManager.connectNodes. rewrite Ha, Hb.
  rewrite bool_decide_eq_false_2 by assumption. simpl.
  repeat split.
  - rewrite links_alter, decide_False by congruence.
    rewrite links_alter, decide_True by reflexivity. now rewrite Ha.
  - rewrite links_alter, decide_True by reflexivity.
    unfold NodeManager.updateNodeState. simpl.
    rewrite lookup_alter_ne by assumption. now rewrite Hb.
  - intros x Hxa Hxb. simpl. now rewrite !lookup_alter_ne by congruence.
Qed.

Lemma connectNodes_present m a b na :
  NodeManager.nodes m !! a = Some na -> b ∈ NodeManager.connections na ->
  NodeManager.connectNodes m a b = m.
Proof.
  intros Ha Hin. unfold NodeManager.connectNodes. rewrite Ha.
  destruct (NodeManager.nodes m !! b); [|reflexivity].
  now rewrite bool_decide_eq_true_2 by assumption.
Qed.

Lemma connectNodes_engine m a b :
  NodeManager.audioEngine (NodeManager.connectNodes m a b) = NodeManager.audioEngine m.
Proof.
  unfold NodeManager.connectNodes.
  destruct (NodeManager.nodes m !! a) as [na|]; [|reflexivity].
  destruct (NodeManager.nodes m !! b); [|reflexivity].
  now destruct (bool_decide (b ∈ NodeManager.connections na)).
Qed.

(** Connecting two distinct nodes keeps the lists symmetric and free of
    parallel links and self-links. *)
Lemma connectNodes_graph m a b na nb :
  NodeManager.nodes m !! a = Some na -> NodeManager.nodes m !! b = Some nb ->
  a <> b -> linked m -> simple m ->
  linked (NodeManager.connectNodes m a b) /\ simple (NodeManager.connectNodes m a b).
Proof.
  intros Ha Hb Hne Hl Hs.
  destruct (decide (b ∈ NodeManager.connections na)) as [Hin | Hout].
  { rewrite (connectNodes_present m a b na Ha Hin). tauto. }
  destruct (connectNodes_links m a b na nb Ha Hb Hne Hout) as (La & Lb & Lx).
  assert (Hab : a ∉ NodeManager.connections nb).
  { intros Hin. destruct (Hl b nb a Hb Hin) as (na' & Ha' & Hin').
    assert (na' = na) by congruence. subst na'. contradiction. }
  set (m' := NodeManager.connectNodes m a b) in *.
  assert (Lother : forall x, x <> a -> x <> b -> links m' x = links m x).
  { intros x Hxa Hxb. unfold links. now rewrite Lx. }
  assert (Hgrow : forall y ly, links m y = Some ly ->
            exists ly', links m' y = Some ly' /\ forall z, z ∈ ly -> z ∈ ly').
  { intros y ly Hy. destruct (decide (y = a)) as [-> | Hya].
    - exists (NodeManager.connections na ++ [b]). split; [assumption|].
      assert (ly = NodeManager.connections na).
      { unfold links in Hy. rewrite Ha in Hy. now injection Hy as <-. }
      subst ly. intros z Hz. apply elem_of_app. tauto.
    - destruct (decide (y = b)) as [-> | Hyb].
      + exists (NodeManager.connections nb ++ [a]). split; [assumption|].
        assert (ly = NodeManager.connections nb).
        { unfold links in Hy. rewrite Hb in Hy. now injection Hy as <-. }
        subst ly. intros z Hz. apply elem_of_app. tauto.
      + exists ly. rewrite Lother by assumption. tauto. }
  split.
  - apply linked_alt. intros x lx y Hx Hy.
    assert (Hold : forall lx0, links m x = Some lx0 -> y ∈ lx0 ->
              exists ly', links m' y = Some ly' /\ x ∈ ly').
    { intros lx0 Hx0 Hy0.
      destruct (proj1 (linked_alt m) Hl x lx0 y Hx0 Hy0) as (ly & Hly & Hin).
      destruct (Hgrow y ly Hly) as (ly' & Hly' & Hsub). eauto. }
    destruct (decide (x = a)) as [-> | Hxa].
    + rewrite La in Hx. injection Hx as <-.
      apply elem_of_app in Hy as [Hy | Hy].
      * apply (Hold (NodeManager.connections na)); [|assumption].
        unfold links. now rewrite Ha.
      * apply list_elem_of_singleton in Hy as ->.
        exists (NodeManager.connections nb ++ [a]). split; [assumption|].
        apply elem_of_app. right. now apply list_elem_of_singleton.
    + destruct (decide (x = b)) as [-> | Hxb].
      * rewrite Lb in Hx. injection Hx as <-.
        apply elem_of_app in Hy as [Hy | Hy].
        -- apply (Hold (NodeManager.connections nb)); [|assumption].
           unfold links. now rewrite Hb.
        -- apply list_elem_of_singleton in Hy as ->.
           exists (NodeManager.connections na ++ [b]). split; [assumption|].
           apply elem_of_app. right. now apply list_elem_of_singleton.
      * rewrite Lother in Hx by assumption. now apply (Hold lx).
  - intros x nx Hx.
    assert (Hlx : links m' x = Some (NodeManager.connections nx))
      by (apply links_Some; eauto).
    destruct (Hs a na Ha) as [Nda Sa]. destruct (Hs b nb Hb) as [Ndb Sb].
    destruct (decide (x = a)) as [-> | Hxa].
    + rewrite La in Hlx. injection Hlx as <-. split.
      * apply NoDup_app. repeat split; try assumption.
        -- intros z Hz Hz'. apply list_elem_of_singleton in Hz' as ->. contradiction.
        -- apply NoDup_singleton.
      * rewrite elem_of_app, list_elem_of_singleton. tauto.
    + destruct (decide (x = b)) as [-> | Hxb].
      * rewrite Lb in Hlx. injection Hlx as <-. split.
        -- apply NoDup_app. repeat split; try assumption.
           ++ intros z Hz Hz'. apply list_elem_of_singleton in Hz' as ->. contradiction.
           ++ apply NoDup_singleton.
        -- rewrite elem_of_app, list_elem_of_singleton. intros [? | ?]; congruence.
      * rewrite Lx in Hx by assumption. now apply Hs.
Qed.

(** *** The operations keep the lists symmetric *)

Lemma linked_same_links m m' :
  (forall x, links m' x = links m x) -> linked m -> linked m'.
Proof.
  intros E Hl. apply linked_alt. intros a la b Ha Hb. rewrite E in Ha.
  destruct (proj1 (linked_alt m) Hl a la b Ha Hb) as (lb & Hlb & Hin).
  exists lb. now rewrite E.
Qed.

Lemma links_playConnected loop now m c x :
  links (NodeManager.playConnected loop now m c) x = links m x.
Proof.
  unfold NodeManager.playConnected.
  destruct (NodeManager.nodes m !! c) as [cn|] eqn:Hc; [|reflexivity].
  destruct (NodeManager.audioBuffer cn); [|reflexivity].
  destruct (NodeManager.isPlaying cn); [reflexivity|]. simpl.
  rewrite links_alter. simpl.
  destruct (decide (c = x)) as [-> | Hne]; [|reflexivity].
  unfold links. now destruct (NodeManager.nodes m !! x).
Qed.

Lemma links_playNode m a loop now x :
  links (NodeManager.playNode m a loop now) x = links m x.
Proof.
  unfold NodeManager.playNode.
  destruct (NodeManager.nodes m !! a) as [na|] eqn:Ha; [|reflexivity].
  destruct (NodeManager.audioBuffer na); [|reflexivity].
  assert (H : forall l m0,
            links (foldl (NodeManager.playConnected loop now) m0 l) x = links m0 x).
  { induction l as [|c l IH]; simpl; intros m0; [reflexivity|].
    now rewrite IH, links_playConnected. }
  rewrite H, links_alter. simpl.
  destruct (decide (a = x)) as [-> | Hne]; [|reflexivity].
  unfold links. now destruct (NodeManager.nodes m !! x).
Qed.

Lemma linked_playNode m a loop now :
  linked m -> linked (NodeManager.playNode m a loop now).
Proof. apply linked_same_links. intros x. apply links_playNode. Qed.

Lemma linked_stopNode m a : linked m -> linked (NodeManager.stopNode m a).
Proof. apply linked_same_links. intros x. apply links_stopNode. Qed.

Lemma linked_updateNodePosition m a x y :
  linked m -> linked (NodeManager.updateNodePosition m a x y).
Proof.
  apply linked_same_links. intros z. unfold NodeManager.updateNodePosition.
  rewrite links_alter. destruct (decide (a = z)) as [-> | Hne]; [|reflexivity].
  unfold links. now destruct (NodeManager.nodes m !! z).
Qed.

(** A node created under an id nobody holds or lists. *)
Lemma linked_createNode m newId newColor file x y m' node :
  linked m -> NodeManager.nodes m !! newId = None ->
  NodeManager.createNode m newId newColor file x y = inr (m', node) ->
  linked m'.
Proof.
  intros Hl Hfresh Hc. unfold NodeManager.createNode in Hc.
  destruct (NodeManager.loadAudioFile _ file) as [err | buf]; [discriminate|].
  injection Hc as <- <-. intros a na b Ha Hb. simpl in *.
  apply lookup_insert_Some in Ha as [[<- <-] | [Hne Ha]].
  - simpl in Hb. now apply elem_of_nil in Hb.
  - destruct (Hl a na b Ha Hb) as (nb & Hnb & Hin).
    exists nb. split; [|assumption].
    rewrite lookup_insert_ne; [assumption | congruence].
Qed.

Lemma links_disconnectNodes m a b x :
  links (NodeManager.disconnectNodes m a b) x
  = (fun l => (if decide (x = b) then NodeManager.without a else id)
                ((if decide (x = a) then NodeManager.without b else id) l))
      <$> links m x.
Proof.
  unfold NodeManager.disconnectNodes. rewrite !links_alter.
  unfold links. simpl.
  destruct (decide (b = x)) as [-> | Hb]; destruct (decide (a = x)) as [-> | Ha].
  - rewrite lookup_alter_eq. destruct (NodeManager.nodes m !! x); simpl; [|reflexivity].
    now rewrite !decide_True by reflexivity.
  - rewrite lookup_alter_ne by assumption.
    destruct (NodeManager.nodes m !! x); simpl; [|reflexivity].
    rewrite decide_True by reflexivity. now rewrite decide_False by congruence.
  - destruct (NodeManager.nodes m !! x); simpl; [|reflexivity].
    rewrite decide_False by congruence. now rewrite decide_True by reflexivity.
  - destruct (NodeManager.nodes m !! x); simpl; [|reflexivity].
    now rewrite !decide_False by congruence.
Qed.

Lemma linked_disconnectNodes m a b :
  linked m -> linked (NodeManager.disconnectNodes m a b).
Proof.
  intros Hl. apply linked_alt. intros x lx y Hx Hy.
  rewrite links_disconnectNodes in Hx.
  destruct (links m x) as [lx0|] eqn:Hx0; simpl in Hx; [|discriminate].
  injection Hx as <-.
  assert (Hy0 : y ∈ lx0 /\ (x = b -> y <> a) /\ (x = a -> y <> b)).
  { destruct (decide (x = b)), (decide (x = a)); simpl in Hy;
      rewrite ?elem_of_without in Hy; intuition congruence. }
  destruct Hy0 as (Hin & Hxb & Hxa).
  destruct (proj1 (linked_alt m) Hl x lx0 y Hx0 Hin) as (ly & Hly & Hxin).
  rewrite links_disconnectNodes, Hly. simpl. eexists. split; [reflexivity|].
  destruct (decide (y = b)), (decide (y = a));
    simpl; rewrite ?elem_of_without; intuition congruence.
Qed.

Lemma linked_connectNodes m a b : linked m -> linked (NodeManager.connectNodes m a b).
Proof.
  intros Hl. unfold NodeManager.connectNodes.
  destruct (NodeManager.nodes m !! a) as [na|] eqn:Ha; [|assumption].
  destruct (NodeManager.nodes m !! b) as [nb|] eqn:Hb; [|assumption].
  destruct (bool_decide (b ∈ NodeManager.connections na)) eqn:Hin; [assumption|].
  simpl. set (m' := NodeManager.updateNodeState _ b _).
  assert (Hlinks : forall x,
            links m' x
            = (fun l => (if decide (x = b) then (fun l => l ++ [a]) else id)
                          ((if decide (x = a) then (fun l => l ++ [b]) else id) l))
                <$> links m x).
  { intros x. subst m'. rewrite !links_alter. unfold links. simpl.
    destruct (decide (b = x)) as [-> | Hbx]; destruct (decide (a = x)) as [-> | Hax].
    - rewrite lookup_alter_eq. destruct (NodeManager.nodes m !! x); simpl; [|reflexivity].
      now rewrite !decide_True by reflexivity.
    - rewrite lookup_alter_ne by assumption.
      destruct (NodeManager.nodes m !! x); simpl; [|reflexivity].
      rewrite decide_True by reflexivity. now rewrite decide_False by congruence.
    - destruct (NodeManager.nodes m !! x); simpl; [|reflexivity].
      rewrite decide_False by congruence. now rewrite decide_True by reflexivity.
    - destruct (NodeManager.nodes m !! x); simpl; [|reflexivity].
      now rewrite !decide_False by congruence. }
  assert (La : links m a = Some (NodeManager.connections na))
    by (unfold links; now rewrite Ha).
  assert (Lb : links m b = Some (NodeManager.connections nb))
    by (unfold links; now rewrite Hb).
  apply linked_alt. intros x lx y Hx Hy. rewrite Hlinks in Hx.
  destruct (links m x) as [lx0|] eqn:Hx0; simpl in Hx; [|discriminate].
  injection Hx as <-.
  assert (Hy0 : y ∈ lx0 \/ (x = a /\ y = b) \/ (x = b /\ y = a)).
  { destruct (decide (x = b)), (decide (x = a)); simpl in Hy;
      rewrite ?elem_of_app, ?list_elem_of_singleton in Hy; intuition congruence. }
  destruct Hy0 as [Hold | [[-> ->] | [-> ->]]].
  - destruct (proj1 (linked_alt m) Hl x lx0 y Hx0 Hold) as (ly & Hly & Hxin).
    rewrite Hlinks, Hly. simpl. eexists. split; [reflexivity|].
    destruct (decide (y = b)), (decide (y = a)); simpl;
      rewrite ?elem_of_app; tauto.
  - rewrite Hlinks, Lb. simpl. eexists. split; [reflexivity|].
    rewrite decide_True by reflexivity.
    apply elem_of_app. right. now apply list_elem_of_singleton.
  - rewrite Hlinks, La. simpl. eexists. split; [reflexivity|].
    rewrite (decide_True (P := a = a)) by reflexivity.
    destruct (decide (a = b)); simpl; rewrite ?elem_of_app, ?list_elem_of_singleton;
      tauto.
Qed.

(** C6 (as the code has it).  For two distinct existing nodes [a] and [b],
    [connectNodes a b] changes nothing when [a] already lists [b]; otherwise it
    appends [b] to the list of [a] and [a] to the list of [b] and touches
    nothing else.  On a graph with symmetric lists, no parallel links and no
    self-links it leaves such a graph again, now with [a] and [b] linked both
    ways.  [connectNodes] itself has no test for [a = b]; the rejection of a
    self-connection is the guard of the connection gesture in
    [handleConnectionStart], which calls [connectNodes] only with two
    different ids. *)
Theorem connect_adds_symmetric_link :
  (forall m a b na nb,
      NodeManager.nodes m !! a = Some na ->
      NodeManager.nodes m !! b = Some nb ->
      a <> b ->
      let m' := NodeManager.connectNodes m a b in
      NodeManager.audioEngine m' = NodeManager.audioEngine m
      /\ (b ∈ NodeManager.connections na -> m' = m)
      /\ (b ∉ NodeManager.connections na ->
          links m' a = Some (NodeManager.connections na ++ [b])
          /\ links m' b = Some (NodeManager.connections nb ++ [a])
          /\ forall x, x <> a -> x <> b ->
                       NodeManager.nodes m' !! x = NodeManager.nodes m !! x)
      /\ (linked m -> simple m ->
          linked m' /\ simple m'
          /\ exists la lb, links m' a = Some la /\ links m' b = Some lb
                           /\ b ∈ la /\ a ∈ lb))
  /\ (forall app nodeId connecting,
         App.mode app = App.connect ->
         App.connectingNodeId app = Some connecting ->
         App.nodeManager (App.handleConnectionStart app nodeId)
         = if decide (connecting = nodeId) then App.nodeManager app
           else NodeManager.connectNodes (App.nodeManager app) connecting nodeId).
Proof.
  split.
  - intros m a b na nb Ha Hb Hne m'. subst m'.
    split; [apply connectNodes_engine|].
    split; [now apply connectNodes_present|].
    split; [now apply connectNodes_links|].
    intros Hl Hs.
    destruct (connectNodes_graph m a b na nb Ha Hb Hne Hl Hs) as [Hl' Hs'].
    split; [assumption|]. split; [assumption|].
    destruct (decide (b ∈ NodeManager.connections na)) as [Hin | Hout].
    + rewrite (connectNodes_present m a b na Ha Hin).
      destruct (Hl a na b Ha Hin) as (nb' & Hb' & Hin').
      exists (NodeManager.connections na), (NodeManager.connections nb').
      unfold links. rewrite Ha, Hb'. tauto.
    + destruct (connectNodes_links m a b na nb Ha Hb Hne Hout) as (La & Lb & _).
      exists (NodeManager.connections na ++ [b]), (NodeManager.connections nb ++ [a]).
      repeat split; try assumption;
        apply elem_of_app; right; now apply list_elem_of_singleton.
  - intros app nodeId connecting Hm Hc. unfold App.handleConnectionStart.
    rewrite Hm, Hc. destruct (decide (connecting = nodeId)) as [-> | Hne].
    + now rewrite String.eqb_refl.
    + apply String.eqb_neq in Hne. now rewrite Hne.
Qed.

(** C6, the claim as stated, fails: [connectNodes] on one and the same
    existing node does not reject the call, it lists the node in its own
    connections, twice. *)
Lemma connect_self_is_not_rejected :
  links Scenario.solo "a" = Some []
  /\ links (NodeManager.connectNodes Scenario.solo "a" "a") "a" = Some ["a"; "a"].
Proof. split; vm_compute; reflexivity. Qed.

Lemma connect_adds_symmetric_link_witness :
  NodeManager.nodes Scenario.trio !! "b" = Some (Scenario.node "b" true ["a"])
  /\ NodeManager.nodes Scenario.trio !! "c" = Some (Scenario.node "c" false ["a"])
  /\ "b" <> "c"
  /\ links (NodeManager.connectNodes Scenario.trio "b" "c") "b" = Some ["a"; "c"]
  /\ links (NodeManager.connectNodes Scenario.trio "b" "c") "c" = Some ["a"; "b"].
Proof.
  assert (Hb : NodeManager.nodes Scenario.trio !! "b"
               = Some (Scenario.node "b" true ["a"])) by (vm_compute; reflexivity).
  assert (Hc : NodeManager.nodes Scenario.trio !! "c"
               = Some (Scenario.node "c" false ["a"])) by (vm_compute; reflexivity).
  assert (Hne : "b" <> "c") by discriminate.
  destruct (proj1 connect_adds_symmetric_link Scenario.trio "b" "c" _ _ Hb Hc Hne)
    as (_ & _ & Hadd & _).
  assert (Hout : "c" ∉ NodeManager.connections (Scenario.node "b" true ["a"])).
  { simpl. intros Hin. apply list_elem_of_singleton in Hin. discriminate. }
  destruct (Hadd Hout) as (La & Lb & _).
  repeat split; assumption.
Defined.

(** ** Upload validation *)

Lemma handleFileUpload_rejected app file x y newId newColor :
  FileHandling.isValid (FileHandling.validateAudioFile file) = false ->
  App.handleFileUpload app file x y newId newColor
  = App.mkApp (App.nodeManager app) (App.canvasNodes app) (App.mode app)
              (App.connectingNodeId app)
              (App.effects app
                 ++ [App.Alert (FileHandling.error (FileHandling.validateAudioFile file))]).
Proof.
  intros H. unfold App.handleFileUpload. now rewrite H.
Qed.

Lemma handleFileUpload_effects app file x y newId newColor :
  FileHandling.isValid (FileHandling.validateAudioFile file) = true ->
  App.effects (App.handleFileUpload app file x y newId newColor)
  = App.effects app
      ++ (if AudioEngine.initialized (NodeManager.audioEngine (App.nodeManager app))
          then [App.DecodeAudioData file] else []).
Proof.
  intros H. unfold App.handleFileUpload. rewrite H. simpl.
  destruct (NodeManager.createNode _ _ _ _ _ _) as [err | [m1 newNode]];
    [reflexivity|].
  now destruct (App.autoConnect m1 (App.canvasNodes app) newNode).
Qed.

(** C8.  [validateAudioFile] rejects exactly the files of more than
    30 * 1024 * 1024 bytes as too large: a file of exactly that size passes the
    size check and is accepted when its type is on the allow-list, a file of
    one byte more is rejected with the file-too-large message whatever its
    type.  [handleFileUpload] validates first: on any rejection it only shows
    the message, the node manager and the canvas keep their nodes and no
    decode is attempted; a decode is attempted only for a file that passed
    both checks. *)
Theorem upload_validated_before_decode :
  (forall file,
      file_size file = (30 * 1024 * 1024)%Z ->
      file_type file ∈ FileHandling.allowedTypes ->
      FileHandling.validateAudioFile file = FileHandling.mkValidation true None)
  /\ (forall file,
         file_size file = (30 * 1024 * 1024 + 1)%Z ->
         FileHandling.validateAudioFile file
         = FileHandling.mkValidation false (Some FileHandling.tooLarge))
  /\ (forall file,
         (file_size file <= 30 * 1024 * 1024)%Z ->
         file_type file ∉ FileHandling.allowedTypes ->
         FileHandling.validateAudioFile file
         = FileHandling.mkValidation false (Some FileHandling.unsupported))
  /\ (forall app file x y newId newColor,
         FileHandling.isValid (FileHandling.validateAudioFile file) = false ->
         let app' := App.handleFileUpload app file x y newId newColor in
         App.nodeManager app' = App.nodeManager app
         /\ App.canvasNodes app' = App.canvasNodes app
         /\ App.effects app'
            = App.effects app
                ++ [App.Alert (FileHandling.error (FileHandling.validateAudioFile file))])
  /\ (forall app file x y newId newColor f,
         App.DecodeAudioData f
           ∈ App.effects (App.handleFileUpload app file x y newId newColor) ->
         App.DecodeAudioData f ∈ App.effects app
         \/ (f = file
             /\ (file_size file <= 30 * 1024 * 1024)%Z
             /\ file_type file ∈ FileHandling.allowedTypes)).
Proof.
  repeat split.
  - intros file Hs Ht. unfold FileHandling.validateAudioFile, FileHandling.maxSize.
    rewrite Hs. simpl. now rewrite bool_decide_eq_true_2.
  - intros file Hs. unfold FileHandling.validateAudioFile, FileHandling.maxSize.
    now rewrite Hs.
  - intros file Hs Ht. unfold FileHandling.validateAudioFile, FileHandling.maxSize.
    destruct (30 * 1024 * 1024 <? file_size file)%Z eqn:E; [apply Z.ltb_lt in E; lia|].
    now rewrite bool_decide_eq_false_2.
  - now rewrite handleFileUpload_rejected.
  - now rewrite handleFileUpload_rejected.
  - now rewrite handleFileUpload_rejected.
  - intros app file x y newId newColor f Hin.
    destruct (FileHandling.isValid (FileHandling.validateAudioFile file)) eqn:Hv.
    + rewrite handleFileUpload_effects in Hin by assumption.
      apply elem_of_app in Hin as [Hin | Hin]; [tauto|]. right.
      destruct (AudioEngine.initialized _); [|now apply elem_of_nil in Hin].
      apply list_elem_of_singleton in Hin. injection Hin as ->.
      split; [reflexivity|].
      unfold FileHandling.validateAudioFile, FileHandling.maxSize in Hv.
      destruct (30 * 1024 * 1024 <? file_size file)%Z eqn:E; [discriminate|].
      apply Z.ltb_ge in E. split; [assumption|].
      destruct (bool_decide (file_type file ∈ FileHandling.allowedTypes)) eqn:Ht;
        [now apply bool_decide_eq_true in Ht | discriminate].
    + rewrite handleFileUpload_rejected in Hin by assumption. simpl in Hin.
      apply elem_of_app in Hin as [Hin | Hin]; [tauto|].
      apply list_elem_of_singleton in Hin. discriminate.
Qed.

Lemma upload_validated_before_decode_witness :
  FileHandling.validateAudioFile (Scenario.upload (30 * 1024 * 1024))
  = FileHandling.mkValidation true None
  /\ FileHandling.validateAudioFile (Scenario.upload (30 * 1024 * 1024 + 1))
     = FileHandling.mkValidation false (Some FileHandling.tooLarge)
  /\ App.nodeManager
       (App.handleFileUpload Scenario.app (Scenario.upload (30 * 1024 * 1024 + 1))
          0 0 "node_1" "#ffffff")
     = App.nodeManager Scenario.app.
Proof.
  destruct upload_validated_before_decode as (Hok & Hbig & _ & Hrej & _).
  split; [apply Hok; [reflexivity | apply (bool_decide_unpack _); vm_compute; exact I]|].
  split; [apply Hbig; reflexivity|].
  apply Hrej. reflexivity.
Defined.

(** ** The export file name *)









(** * Further properties *)

(** ** The engine's transport *)

Section EngineTransport.

Import AudioEngine.

Lemma find_live e s :
  Inv e -> s ∈ sounding e ->
  find (fun u => Nat.eqb (src_id s) (src_id u)) (sounding e) = Some s.
Proof.
  intros He Hs.
  destruct (find _ _) as [u|] eqn:E.
  - apply find_some in E as [Hu Hid].
    apply list_elem_of_In in Hu. apply Nat.eqb_eq in Hid.
    f_equal. symmetry. now apply (unique_id (sounding e)); [apply (inv_ids e He) | ..].
  - apply find_none with (x := s) in E; [| now apply list_elem_of_In].
    now rewrite Nat.eqb_refl in E.
Qed.

(** X1.  The natural end of a rendering unit leaves the engine as [stopNode] on
    its owner does. *)
Theorem natural_end_is_stop e s :
  Inv e -> s ∈ sounding e ->
  onended e (src_id s) = stopNode e (src_owner s).
Proof.
  intros He Hs. unfold onended. rewrite (find_live e s He Hs).
  unfold endedHandler, stopNode. simpl.
  rewrite (inv_active e He s Hs). f_equal.
  apply alter_ext. intros st Hst.
  destruct (inv_state e He _ _ (inv_active e He s Hs)) as (_ & _ & st' & Hst' & _ & Hp & _).
  rewrite Hst in Hst'. injection Hst' as <-.
  unfold ended_state, halted. now rewrite Hp.
Qed.



Lemma stopNode_rest e n :
  activeNodes e !! n = None ->
  (forall st, nodeStates e !! n = Some st -> halted st = st) ->
  stopNode e n = e.
Proof.
  intros Ha Hs. unfold stopNode. rewrite Ha. destruct e as [i g a st l f].
  simpl in *. f_equal. now apply alter_id.
Qed.

(** X3.  After [stopNode] neither [resumeNode] nor [pauseNode] does anything on
    the node, and a second [stopNode] changes nothing. *)
Theorem stop_cancels_pause e n audioBuffer now :
  let stopped := stopNode e n in
  resumeNode stopped n audioBuffer now = stopped
  /\ pauseNode stopped n now = stopped
  /\ stopNode stopped n = stopped
  /\ isNodePaused stopped n = false
  /\ isNodePlaying stopped n = false.
Proof.
  intros stopped.
  assert (Hst : nodeStates stopped !! n = halted <$> nodeStates e !! n).
  { unfold stopped, stopNode.
    destruct (activeNodes e !! n); simpl; apply lookup_alter_eq. }
  assert (Hact : activeNodes stopped !! n = None).
  { unfold stopped, stopNode.
    destruct (activeNodes e !! n) eqn:E; simpl; [apply lookup_delete_eq | exact E]. }
  repeat split.
  - unfold resumeNode. rewrite Hst. now destruct (nodeStates e !! n).
  - unfold pauseNode. rewrite Hst. now destruct (nodeStates e !! n).
  - apply stopNode_rest; [exact Hact |].
    intros x Hx. rewrite Hst in Hx.
    destruct (nodeStates e !! n); [| discriminate]. now injection Hx as <-.
  - unfold isNodePaused. rewrite Hst. now destruct (nodeStates e !! n).
  - unfold isNodePlaying. rewrite Hact.
    apply bool_decide_eq_false_2. intros [? ?]; discriminate.
Qed.

(** X4.  A second [pauseNode] leaves the stored pause time alone, and a second
    [resumeNode] starts no second unit. *)
Theorem pause_and_resume_once e n t1 t2 b1 b2 :
  pauseNode (pauseNode e n t1) n t2 = pauseNode e n t1
  /\ resumeNode (resumeNode e n b1 t1) n b2 t2 = resumeNode e n b1 t1.
Proof.
  split.
  - unfold pauseNode at 2 3. destruct (nodeStates e !! n) as [st|] eqn:E.
    + destruct (isPlaying st && negb (isPaused st)) eqn:G.
      * unfold pauseNode. simpl. now rewrite lookup_insert_eq.
      * unfold pauseNode. now rewrite E, G.
    + unfold pauseNode. now rewrite E.
  - unfold resumeNode at 2 3. destruct (nodeStates e !! n) as [st|] eqn:E.
    + destruct (isPaused st && initialized e) eqn:G.
      * unfold resumeNode. destruct (resumeOffset st b1); simpl;
          now rewrite lookup_insert_eq.
      * unfold resumeNode. now rewrite E, G.
    + unfold resumeNode. now rewrite E.
Qed.

(** X5.  Pause, resume, pause: the elapsed time the second pause stores is the
    time played before the first pause plus the time played since the resume,
    when the first lies inside the guard of [resumeNode]; otherwise it is the
    time since the resume alone.  The time spent paused is never counted. *)
Theorem pause_resume_accumulates e n st audioBuffer t1 t2 t3 :
  initialized e = true ->
  nodeStates e !! n = Some st ->
  isPlaying st = true -> isPaused st = false ->
  let played := t1 - startTime st in
  let e' := pauseNode (resumeNode (pauseNode e n t1) n audioBuffer t2) n t3 in
  exists st',
    nodeStates e' !! n = Some st'
    /\ isPaused st' = true /\ isPlaying st' = false
    /\ (0.01 < played /\ played < duration audioBuffer ->
        pauseTime st' - startTime st' == played + (t3 - t2))
    /\ (~ (0.01 < played /\ played < duration audioBuffer) ->
        pauseTime st' - startTime st' == t3 - t2).
Proof.
  intros Hi Hst Hpl Hpa played e'.
  unfold e', pauseNode at 2. rewrite Hst, Hpl, Hpa, Hi. simpl.
  unfold resumeNode. simpl. rewrite lookup_insert_eq. simpl.
  destruct (classic_guard played (duration audioBuffer)) as [G | G].
  - rewrite resumeOffset_inside by (simpl; tauto).
    unfold pauseNode. simpl. rewrite lookup_insert_eq. simpl.
    eexists. split; [apply lookup_insert_eq |]. simpl.
    split; [reflexivity | split; [reflexivity | split; [| tauto]]].
    intros _. unfold played. ring.
  - rewrite resumeOffset_outside by (simpl; tauto).
    unfold pauseNode. simpl. rewrite lookup_insert_eq. simpl.
    eexists. split; [apply lookup_insert_eq |]. simpl.
    split; [reflexivity | split; [reflexivity | split; [tauto |]]].
    intros _. ring.
Qed.


Lemma halt_comm a b live : halt a (halt b live) = halt b (halt a live).
Proof.
  unfold halt. rewrite !list_filter_filter. apply list_filter_iff. tauto.
Qed.

(** [stopNode] on two ids commutes: the order in which [stopAllNodes] visits
    the keys does not matter. *)
Lemma stopNode_comm e a b : stopNode (stopNode e a) b = stopNode (stopNode e b) a.
Proof.
  destruct (decide (a = b)) as [-> | Hab]; [reflexivity |].
  unfold stopNode.
  destruct (activeNodes e !! a) as [sa|] eqn:Ea,
           (activeNodes e !! b) as [sb|] eqn:Eb; simpl;
    rewrite ?lookup_delete_ne, ?Ea, ?Eb by congruence; simpl;
    f_equal;
    first [apply delete_delete | apply halt_comm | apply alter_alter_ne; congruence].
Qed.

Lemma stopNodes_perm l1 l2 :
  l1 ≡ₚ l2 -> forall e, foldl stopNode e l1 = foldl stopNode e l2.
Proof.
  induction 1 as [| x l1 l2 _ IH | x y l | l1 l2 l3 _ IH1 _ IH2]; intros e; simpl.
  - reflexivity.
  - apply IH.
  - now rewrite stopNode_comm.
  - now rewrite IH1.
Qed.

Lemma stopNodes_active l n :
  forall e, activeNodes (foldl stopNode e l) !! n
            = if decide (n ∈ l) then None else activeNodes e !! n.
Proof.
  induction l as [| c l IH]; intros e; cbn [foldl].
  - rewrite decide_False; [reflexivity | apply not_elem_of_nil].
  - rewrite IH. destruct (decide (n ∈ l)) as [Hn | Hn].
    + rewrite decide_True; [reflexivity | now apply list_elem_of_further].
    + destruct (decide (n = c)) as [-> | Hc].
      * rewrite decide_True by apply list_elem_of_here.
        unfold stopNode. destruct (activeNodes e !! c) eqn:E; simpl;
          [apply lookup_delete_eq | exact E].
      * rewrite decide_False by (rewrite elem_of_cons; tauto).
        unfold stopNode. destruct (activeNodes e !! c) eqn:E; simpl;
          [now apply lookup_delete_ne | reflexivity].
Qed.

Lemma stopNodes_states l n :
  forall e, nodeStates (foldl stopNode e l) !! n
            = if decide (n ∈ l) then halted <$> nodeStates e !! n
              else nodeStates e !! n.
Proof.
  induction l as [| c l IH]; intros e; cbn [foldl].
  - rewrite decide_False; [reflexivity | apply not_elem_of_nil].
  - rewrite IH.
    assert (H : nodeStates (stopNode e c) !! n
                = if decide (c = n) then halted <$> nodeStates e !! n
                  else nodeStates e !! n).
    { unfold stopNode. destruct (activeNodes e !! c); simpl;
        (destruct (decide (c = n)) as [-> | Hc];
         [apply lookup_alter_eq | now apply lookup_alter_ne]). }
    rewrite H. clear H IH.
    destruct (decide (n ∈ c :: l)) as [Hcl | Hcl], (decide (n ∈ l)) as [Hn | Hn],
             (decide (c = n)) as [Hc | Hc]; try reflexivity.
    + now destruct (nodeStates e !! n).
    + apply elem_of_cons in Hcl as [-> | ?]; tauto.
    + destruct Hcl. now apply list_elem_of_further.
    + destruct Hcl. now apply list_elem_of_further.
    + destruct Hcl. subst. apply list_elem_of_here.
Qed.

Lemma Inv_stopNodes l : forall e, Inv e -> Inv (foldl stopNode e l).
Proof.
  induction l as [| c l IH]; intros e He; simpl; [exact He |].
  apply IH, Inv_stopNode, He.
Qed.

Lemma active_keys e n :
  n ∈ (map_to_list (activeNodes e)).*1 <-> is_Some (activeNodes e !! n).
Proof.
  rewrite list_elem_of_fmap. split.
  - intros ([k s] & -> & H). apply elem_of_map_to_list in H. now exists s.
  - intros [s H]. exists (n, s). split; [reflexivity | now apply elem_of_map_to_list].
Qed.

(** X6.  [stopAllNodes] under the bookkeeping invariant: no node is registered as
    active and no unit is rendered any more; the states keep their gain stage,
    and a paused node stays paused, so [stopAllNodes] does not cancel a
    pause.  The order in which the keys are visited is immaterial. *)
Theorem stopAllNodes_silences e :
  Inv e ->
  let e' := stopAllNodes e in
  activeNodes e' = ∅
  /\ sounding e' = []
  /\ (forall n, isNodePlaying e' n = false)
  /\ (forall n, isNodePaused e' n = isNodePaused e n)
  /\ (forall n, gainStage <$> nodeStates e' !! n = gainStage <$> nodeStates e !! n)
  /\ (forall n st, nodeStates e' !! n = Some st -> isPlaying st = false)
  /\ (forall l, l ≡ₚ (map_to_list (activeNodes e)).*1 -> foldl stopNode e l = e')
  /\ Inv e'.
Proof.
  intros He e'.
  assert (Ha : activeNodes e' = ∅).
  { apply map_eq. intros n. rewrite lookup_empty.
    unfold e', stopAllNodes. rewrite stopNodes_active.
    destruct (decide _) as [Hn | Hn]; [reflexivity |].
    rewrite active_keys in Hn.
    destruct (activeNodes e !! n) eqn:E; [| reflexivity].
    destruct Hn. now exists a. }
  assert (He' : Inv e') by now apply Inv_stopNodes.
  assert (Hs : forall n, nodeStates e' !! n
                         = if decide (is_Some (activeNodes e !! n))
                           then halted <$> nodeStates e !! n
                           else nodeStates e !! n).
  { intros n. unfold e', stopAllNodes. rewrite stopNodes_states.
    destruct (decide (n ∈ _)) as [Hn | Hn]; rewrite active_keys in Hn.
    - now rewrite decide_True.
    - now rewrite decide_False. }
  split; [exact Ha |]. split.
  { destruct (sounding e') as [| u l] eqn:E; [reflexivity |].
    assert (Hu : u ∈ sounding e') by (rewrite E; apply list_elem_of_here).
    apply (inv_active e' He') in Hu. rewrite Ha, lookup_empty in Hu. discriminate. }
  split.
  { intros n. unfold isNodePlaying. rewrite Ha, lookup_empty.
    apply bool_decide_eq_false_2. intros [? ?]; discriminate. }
  split.
  { intros n. unfold isNodePaused. rewrite Hs.
    destruct (decide _) as [[s Hn] | Hn]; [| reflexivity].
    destruct (inv_state e He n s Hn) as (_ & _ & st & -> & _ & -> & _).
    reflexivity. }
  split.
  { intros n. rewrite Hs. destruct (decide _); [| reflexivity].
    now destruct (nodeStates e !! n). }
  split.
  { intros n st Hst.
    destruct (isPlaying st) eqn:Hp; [| reflexivity].
    destruct (inv_playing e' He' n st Hst Hp) as [s Hn].
    rewrite Ha, lookup_empty in Hn. discriminate. }
  split; [| exact He'].
  intros l Hl. now apply stopNodes_perm.
Qed.


(** X8.  The transport operations (pause, resume, stop, the natural end) and
    [initialize] never touch the gain stage of a node: its gain node, volume
    and mute flag stay as they are across any run of them. *)
Theorem transport_keeps_gain ops n :
  forall e,
    Forall (fun op => transport op = true) ops ->
    gainStage <$> nodeStates (run ops e) !! n = gainStage <$> nodeStates e !! n.
Proof.
  induction ops as [| op ops IH]; intros e Hops; [reflexivity |].
  apply Forall_cons in Hops as [Hop Hops].
  change (run (op :: ops) e) with (run ops (step e op)).
  rewrite (IH _ Hops). clear IH Hops.
  destruct op; try discriminate Hop; simpl.
  - unfold initialize. now destruct (initialized e).
  - unfold pauseNode. destruct (nodeStates e !! nodeId) as [st|] eqn:E; [| reflexivity].
    destruct (isPlaying st && negb (isPaused st)); [| reflexivity]. simpl.
    destruct (decide (nodeId = n)) as [-> | Hn].
    + now rewrite lookup_insert_eq, E.
    + now rewrite lookup_insert_ne.
  - unfold resumeNode. destruct (nodeStates e !! nodeId) as [st|] eqn:E; [| reflexivity].
    destruct (isPaused st && initialized e); [| reflexivity].
    destruct (resumeOffset st audioBuffer); simpl;
      (destruct (decide (nodeId = n)) as [-> | Hn];
       [now rewrite lookup_insert_eq, E | now rewrite lookup_insert_ne]).
  - unfold stopNode. destruct (activeNodes e !! nodeId); simpl;
      (destruct (decide (nodeId = n)) as [-> | Hn];
       [rewrite lookup_alter_eq; now destruct (nodeStates e !! n)
       | now rewrite lookup_alter_ne]).
  - unfold onended. destruct (find _ _) as [s|]; [| reflexivity]. simpl.
    destruct (decide (src_owner s = n)) as [-> | Hn].
    + rewrite lookup_alter_eq. now destruct (nodeStates e !! _).
    + now rewrite lookup_alter_ne.
Qed.


End EngineTransport.

Lemma natural_end_is_stop_witness :
  Inv Scenario.playing_engine
  /\ mkSource 0 "a" Scenario.clip false 1 0 ∈ AudioEngine.sounding Scenario.playing_engine
  /\ AudioEngine.onended Scenario.playing_engine 0
     = AudioEngine.stopNode Scenario.playing_engine "a".
Proof.
  assert (He : Inv Scenario.playing_engine) by apply Inv_run, Inv_create.
  assert (Hs : mkSource 0 "a" Scenario.clip false 1 0
               ∈ AudioEngine.sounding Scenario.playing_engine)
    by apply list_elem_of_here.
  split; [exact He | split; [exact Hs |]].
  exact (natural_end_is_stop Scenario.playing_engine _ He Hs).
Defined.

Lemma pause_resume_accumulates_witness :
  AudioEngine.initialized Scenario.playing_engine = true
  /\ AudioEngine.nodeStates Scenario.playing_engine !! "a" = Some Scenario.playing_state
  /\ exists st',
       AudioEngine.nodeStates
         (AudioEngine.pauseNode
            (AudioEngine.resumeNode
               (AudioEngine.pauseNode Scenario.playing_engine "a" 2) "a" Scenario.clip 5)
            "a" 6) !! "a" = Some st'
       /\ AudioEngine.pauseTime st' - AudioEngine.startTime st' == 3.
Proof.
  assert (Hst : AudioEngine.nodeStates Scenario.playing_engine !! "a"
                = Some Scenario.playing_state) by (vm_compute; reflexivity).
  split; [reflexivity | split; [exact Hst |]].
  destruct (pause_resume_accumulates Scenario.playing_engine "a" Scenario.playing_state
              Scenario.clip 2 5 6 eq_refl Hst eq_refl eq_refl)
    as (st' & H1 & _ & _ & Hin & _).
  exists st'. split; [exact H1 |].
  rewrite Hin; [reflexivity | split; reflexivity].
Defined.

Lemma stopAllNodes_silences_witness :
  Inv Scenario.mixed_engine
  /\ AudioEngine.isNodePlaying Scenario.mixed_engine "a" = true
  /\ AudioEngine.sounding (AudioEngine.stopAllNodes Scenario.mixed_engine) = []
  /\ AudioEngine.isNodePaused (AudioEngine.stopAllNodes Scenario.mixed_engine) "b" = true.
Proof.
  assert (He : Inv Scenario.mixed_engine) by apply Inv_run, Inv_create.
  destruct (stopAllNodes_silences Scenario.mixed_engine He) as (_ & Hs & _ & Hp & _).
  split; [exact He | split; [vm_compute; reflexivity | split; [exact Hs |]]].
  rewrite Hp. vm_compute. reflexivity.
Defined.

Lemma transport_keeps_gain_witness :
  Forall (fun op => transport op = true)
         [AudioEngine.Pause "a" 1; AudioEngine.Resume "a" Scenario.clip 2;
          AudioEngine.Stop "a"]
  /\ gainStage <$>
       AudioEngine.nodeStates
         (AudioEngine.run [AudioEngine.Pause "a" 1; AudioEngine.Resume "a" Scenario.clip 2;
                           AudioEngine.Stop "a"] Scenario.muted_engine) !! "a"
     = Some (mkGain 1 0, 0.8, true).
Proof.
  assert (H : Forall (fun op => transport op = true)
                [AudioEngine.Pause "a" 1; AudioEngine.Resume "a" Scenario.clip 2;
                 AudioEngine.Stop "a"]) by (repeat constructor).
  split; [exact H |].
  rewrite (transport_keeps_gain _ "a" Scenario.muted_engine H).
  vm_compute. reflexivity.
Defined.

(** ** The reach of group play and group stop *)

Section Reach.

Import NodeManager.

Lemma stopConnected_other m c b :
  c <> b ->
  nodes (stopConnected m c) !! b = nodes m !! b
  /\ engineEntry (audioEngine (stopConnected m c)) b = engineEntry (audioEngine m) b.
Proof.
  intros Hne. unfold stopConnected. simpl.
  rewrite lookup_alter_ne by assumption. split; [reflexivity |].
  now apply stopNode_other.
Qed.

Lemma propagate_play_outside loop now b l :
  b ∉ l ->
  forall m,
    nodes (foldl (playConnected loop now) m l) !! b = nodes m !! b
    /\ engineEntry (audioEngine (foldl (playConnected loop now) m l)) b
       = engineEntry (audioEngine m) b.
Proof.
  induction l as [| c l IH]; intros Hb m; simpl; [tauto |].
  apply not_elem_of_cons in Hb as [Hc Hl].
  destruct (IH Hl (playConnected loop now m c)) as [-> ->].
  apply playConnected_other. congruence.
Qed.

Lemma propagate_stop_outside b l :
  b ∉ l ->
  forall m,
    nodes (foldl stopConnected m l) !! b = nodes m !! b
    /\ engineEntry (audioEngine (foldl stopConnected m l)) b
       = engineEntry (audioEngine m) b.
Proof.
  induction l as [| c l IH]; intros Hb m; simpl; [tauto |].
  apply not_elem_of_cons in Hb as [Hc Hl].
  destruct (IH Hl (stopConnected m c)) as [-> ->].
  apply stopConnected_other. congruence.
Qed.

Lemma propagate_play_units loop now b l :
  b ∉ l ->
  forall m,
    Inv (audioEngine m) ->
    Inv (audioEngine (foldl (playConnected loop now) m l))
    /\ filter (fun u => src_owner u = b)
              (AudioEngine.sounding (audioEngine (foldl (playConnected loop now) m l)))
       = filter (fun u => src_owner u = b) (AudioEngine.sounding (audioEngine m)).
Proof.
  induction l as [| c l IH]; intros Hb m He; simpl; [tauto |].
  apply not_elem_of_cons in Hb as [Hc Hl].
  assert (H : Inv (audioEngine (playConnected loop now m c))
              /\ filter (fun u => src_owner u = b)
                        (AudioEngine.sounding (audioEngine (playConnected loop now m c)))
                 = filter (fun u => src_owner u = b) (AudioEngine.sounding (audioEngine m))).
  { unfold playConnected.
    destruct (nodes m !! c) as [cn|]; [| tauto].
    destruct (audioBuffer cn) as [buf|]; [| tauto].
    destruct (isPlaying cn); [tauto |]. simpl.
    split; [now apply Inv_playAudioBuffer |].
    apply playAudioBuffer_isolated; [assumption | congruence]. }
  destruct H as [He' Hu]. destruct (IH Hl _ He') as [Hi ->]. tauto.
Qed.

Lemma propagate_stop_units b l :
  b ∉ l ->
  forall m,
    Inv (audioEngine m) ->
    Inv (audioEngine (foldl stopConnected m l))
    /\ filter (fun u => src_owner u = b)
              (AudioEngine.sounding (audioEngine (foldl stopConnected m l)))
       = filter (fun u => src_owner u = b) (AudioEngine.sounding (audioEngine m)).
Proof.
  induction l as [| c l IH]; intros Hb m He; simpl; [tauto |].
  apply not_elem_of_cons in Hb as [Hc Hl].
  assert (He' : Inv (audioEngine (stopConnected m c)))
    by (simpl; now apply Inv_stopNode).
  destruct (IH Hl _ He') as [Hi ->]. split; [exact Hi |]. simpl.
  apply stopNode_isolated; [assumption | congruence].
Qed.

Lemma playNode_outside m a c loop now :
  c <> a -> c ∉ neighbors m a ->
  nodes (playNode m a loop now) !! c = nodes m !! c
  /\ engineEntry (audioEngine (playNode m a loop now)) c = engineEntry (audioEngine m) c
  /\ (Inv (audioEngine m) ->
      filter (fun u => src_owner u = c)
             (AudioEngine.sounding (audioEngine (playNode m a loop now)))
      = filter (fun u => src_owner u = c) (AudioEngine.sounding (audioEngine m))).
Proof.
  intros Hca Hc. unfold neighbors in Hc. unfold playNode.
  destruct (nodes m !! a) as [na|]; [| tauto].
  destruct (audioBuffer na) as [buf|]; [| tauto].
  set (m1 := updateNodeState _ _ _).
  destruct (propagate_play_outside loop now c _ Hc m1) as [-> ->].
  split; [| split].
  - unfold m1. simpl. now rewrite lookup_alter_ne.
  - unfold m1. simpl. now apply playAudioBuffer_other.
  - intros He.
    assert (He1 : Inv (audioEngine m1)) by (simpl; now apply Inv_playAudioBuffer).
    destruct (propagate_play_units loop now c _ Hc m1 He1) as [_ ->].
    unfold m1. simpl. now apply playAudioBuffer_isolated.
Qed.

Lemma stopNode_outside m a c :
  c <> a -> c ∉ neighbors m a ->
  nodes (stopNode m a) !! c = nodes m !! c
  /\ engineEntry (audioEngine (stopNode m a)) c = engineEntry (audioEngine m) c
  /\ (Inv (audioEngine m) ->
      filter (fun u => src_owner u = c)
             (AudioEngine.sounding (audioEngine (stopNode m a)))
      = filter (fun u => src_owner u = c) (AudioEngine.sounding (audioEngine m))).
Proof.
  intros Hca Hc. unfold neighbors in Hc. unfold stopNode.
  destruct (stopConnected_other m a c (not_eq_sym Hca)) as [Hn He].
  assert (Hu : Inv (audioEngine m) ->
               Inv (audioEngine (stopConnected m a))
               /\ filter (fun u => src_owner u = c)
                         (AudioEngine.sounding (audioEngine (stopConnected m a)))
                  = filter (fun u => src_owner u = c)
                           (AudioEngine.sounding (audioEngine m))).
  { intros Hi. simpl. split; [now apply Inv_stopNode |].
    now apply stopNode_isolated. }
  assert (Hl : nodes (stopConnected m a) !! a = set_isPlaying false <$> nodes m !! a).
  { unfold stopConnected. simpl. apply lookup_alter_eq. }
  rewrite Hl. destruct (nodes m !! a) as [na|]; simpl; [| tauto].
  destruct (propagate_stop_outside c _ Hc (stopConnected m a)) as [-> ->].
  split; [assumption | split; [assumption |]].
  intros Hi. destruct (Hu Hi) as [Hi' <-].
  now apply propagate_stop_units.
Qed.

(** X9.  Group play and group stop reach one hop and no further: a node that is
    neither the one addressed nor listed by it keeps its record, its engine
    entry and, under the bookkeeping invariant, its rendering units. *)
Theorem group_transport_is_one_hop m a c loop now :
  c <> a -> c ∉ neighbors m a ->
  let played := playNode m a loop now in
  let stopped := stopNode m a in
  nodes played !! c = nodes m !! c
  /\ engineEntry (audioEngine played) c = engineEntry (audioEngine m) c
  /\ nodes stopped !! c = nodes m !! c
  /\ engineEntry (audioEngine stopped) c = engineEntry (audioEngine m) c
  /\ (Inv (audioEngine m) ->
      let units e := filter (fun u => src_owner u = c) (AudioEngine.sounding e) in
      units (audioEngine played) = units (audioEngine m)
      /\ units (audioEngine stopped) = units (audioEngine m)).
Proof.
  intros Hca Hc played stopped.
  destruct (playNode_outside m a c loop now Hca Hc) as (H1 & H2 & H3).
  destruct (stopNode_outside m a c Hca Hc) as (H4 & H5 & H6).
  repeat split; auto.
Qed.


Lemma set_connections_same n : set_connections (connections n) n = n.
Proof. now destruct n. Qed.

Lemma without_snoc b l : b ∉ l -> without b (l ++ [b]) = l.
Proof.
  intros Hb. unfold without. rewrite filter_app.
  rewrite filter_cons_False by (intros H; now apply H).
  rewrite filter_nil, app_nil_r. now apply without_absent.
Qed.

Lemma disconnectNodes_absent m a b :
  linked m -> b ∉ neighbors m a -> disconnectNodes m a b = m.
Proof.
  intros Hl Hb. unfold disconnectNodes, updateNodeState. destruct m as [e ns]. simpl.
  f_equal.
  assert (Ha : forall n, ns !! a = Some n ->
                         set_connections (without b (connections n)) n = n).
  { intros n Hn. unfold neighbors in Hb. simpl in Hb. rewrite Hn in Hb.
    rewrite without_absent by assumption. apply set_connections_same. }
  rewrite (alter_id _ ns a) by exact Ha.
  f_equal. apply alter_id. intros n Hn.
  rewrite without_absent; [apply set_connections_same |].
  intros Hin. destruct (Hl b n a Hn Hin) as (na & Hna & Hba).
  apply Hb. unfold neighbors. simpl in *. now rewrite Hna.
Qed.

(** X10.  Connecting two unlinked nodes and disconnecting them again gives the
    manager back, in either order of the arguments of [disconnectNodes];
    disconnecting two nodes that are not linked changes nothing. *)
Theorem connect_disconnect_round_trip m a b na nb :
  nodes m !! a = Some na -> nodes m !! b = Some nb -> a <> b ->
  linked m -> b ∉ connections na ->
  disconnectNodes (connectNodes m a b) a b = m
  /\ disconnectNodes (connectNodes m a b) b a = m
  /\ disconnectNodes m a b = m.
Proof.
  intros Ha Hb Hab Hl Hin.
  assert (Hin' : a ∉ connections nb).
  { intros H. destruct (Hl b nb a Hb H) as (na' & Hna' & Hba). congruence. }
  assert (E : forall x,
             nodes (connectNodes m a b) !! x
             = if decide (x = a) then Some (set_connections (connections na ++ [b]) na)
               else if decide (x = b) then Some (set_connections (connections nb ++ [a]) nb)
               else nodes m !! x).
  { intros x. unfold connectNodes. rewrite Ha, Hb.
    rewrite bool_decide_eq_false_2 by assumption. simpl.
    destruct (decide (x = a)) as [-> | Hxa].
    - rewrite lookup_alter_ne by congruence. now rewrite lookup_alter_eq, Ha.
    - destruct (decide (x = b)) as [-> | Hxb].
      + rewrite lookup_alter_eq, lookup_alter_ne by congruence. now rewrite Hb.
      + now rewrite !lookup_alter_ne by congruence. }
  assert (Ee : audioEngine (connectNodes m a b) = audioEngine m)
    by apply connectNodes_engine.
  split; [| split].
  - destruct m as [e ns]. unfold disconnectNodes, updateNodeState. simpl in *.
    rewrite Ee. f_equal. apply map_eq. intros x.
    destruct (decide (x = b)) as [-> | Hxb].
    + rewrite lookup_alter_eq, lookup_alter_ne, E by congruence.
      rewrite decide_False, decide_True by congruence. simpl.
      rewrite without_snoc by assumption. rewrite Hb. now destruct nb.
    + rewrite lookup_alter_ne by congruence.
      destruct (decide (x = a)) as [-> | Hxa].
      * rewrite lookup_alter_eq, E, decide_True by reflexivity. simpl.
        rewrite without_snoc by assumption. rewrite Ha. now destruct na.
      * rewrite lookup_alter_ne, E by congruence.
        now rewrite !decide_False by assumption.
  - destruct m as [e ns]. unfold disconnectNodes, updateNodeState. simpl in *.
    rewrite Ee. f_equal. apply map_eq. intros x.
    destruct (decide (x = a)) as [-> | Hxa].
    + rewrite lookup_alter_eq, lookup_alter_ne, E by congruence.
      rewrite decide_True by reflexivity. simpl.
      rewrite without_snoc by assumption. rewrite Ha. now destruct na.
    + rewrite lookup_alter_ne by congruence.
      destruct (decide (x = b)) as [-> | Hxb].
      * rewrite lookup_alter_eq, E, decide_False, decide_True by congruence. simpl.
        rewrite without_snoc by assumption. rewrite Hb. now destruct nb.
      * rewrite lookup_alter_ne, E by congruence.
        now rewrite !decide_False by assumption.
  - apply disconnectNodes_absent; [assumption |].
    unfold neighbors. now rewrite Ha.
Qed.

Lemma neighbors_links m x : neighbors m x = default [] (links m x).
Proof. unfold neighbors, links. now destruct (nodes m !! x). Qed.

(** X11.  Once two nodes are disconnected neither lists the other, and a group
    play or group stop on one of them leaves the other's record and engine
    entry as they were. *)
Theorem disconnect_ends_group m a b loop now :
  a <> b ->
  let m' := disconnectNodes m a b in
  audioEngine m' = audioEngine m
  /\ (b ∉ neighbors m' a) /\ (a ∉ neighbors m' b)
  /\ nodes (playNode m' a loop now) !! b = nodes m' !! b
  /\ engineEntry (audioEngine (playNode m' a loop now)) b = engineEntry (audioEngine m) b
  /\ nodes (stopNode m' a) !! b = nodes m' !! b
  /\ engineEntry (audioEngine (stopNode m' a)) b = engineEntry (audioEngine m) b.
Proof.
  intros Hab m'.
  assert (Hba : b <> a) by congruence.
  assert (Ha : b ∉ neighbors m' a).
  { rewrite neighbors_links. unfold m'. rewrite links_disconnectNodes.
    rewrite decide_False, decide_True by congruence.
    destruct (links m a); simpl; [| apply not_elem_of_nil].
    unfold id. rewrite elem_of_without. tauto. }
  assert (Hb : a ∉ neighbors m' b).
  { rewrite neighbors_links. unfold m'. rewrite links_disconnectNodes.
    rewrite decide_True, decide_False by congruence.
    destruct (links m b); simpl; [| apply not_elem_of_nil].
    unfold id. rewrite elem_of_without. tauto. }
  destruct (playNode_outside m' a b loop now Hba Ha) as (H1 & H2 & _).
  destruct (stopNode_outside m' a b Hba Ha) as (H3 & H4 & _).
  repeat split; assumption.
Qed.

Lemma disconnect_all_flags nodeId l x :
  forall m,
    isPlaying <$> nodes (foldl (fun m c => disconnectNodes m nodeId c) m l) !! x
    = isPlaying <$> nodes m !! x.
Proof.
  induction l as [| c l IH]; intros m; simpl; [reflexivity |].
  rewrite IH. unfold disconnectNodes, updateNodeState. simpl.
  destruct (decide (c = x)) as [-> | Hc].
  - rewrite lookup_alter_eq.
    destruct (decide (nodeId = x)) as [-> | Hn].
    + rewrite lookup_alter_eq. now destruct (nodes m !! x).
    + rewrite lookup_alter_ne by assumption. now destruct (nodes m !! x).
  - rewrite lookup_alter_ne by assumption.
    destruct (decide (nodeId = x)) as [-> | Hn].
    + rewrite lookup_alter_eq. now destruct (nodes m !! x).
    + now rewrite lookup_alter_ne.
Qed.

(** X12.  Removing a node stops its whole group: every node it listed is left
    without an active node, with a halted state and with its flag down, and,
    under the bookkeeping invariant, without a rendering unit. *)
Theorem remove_stops_the_group m a na b :
  nodes m !! a = Some na -> b ∈ connections na ->
  let m' := removeNode m a in
  silenced m' b
  /\ (Inv (audioEngine m) ->
      filter (fun u => src_owner u = b) (AudioEngine.sounding (audioEngine m')) = []).
Proof.
  intros Ha Hb m'.
  assert (Hs : silenced (stopNode m a) b).
  { unfold stopNode.
    assert (Hl : nodes (stopConnected m a) !! a = set_isPlaying false <$> nodes m !! a)
      by (unfold stopConnected; simpl; apply lookup_alter_eq).
    rewrite Hl, Ha. simpl. now apply propagate_stop_reaches. }
  assert (Ee : audioEngine m' = audioEngine (stopNode m a)).
  { unfold m', removeNode. rewrite Ha. simpl. apply engine_disconnect_all. }
  destruct Hs as (H1 & H2 & H3).
  split.
  - unfold silenced. rewrite Ee. split; [assumption | split; [assumption |]].
    intros n Hn. unfold m', removeNode in Hn. rewrite Ha in Hn. simpl in Hn.
    apply lookup_delete_Some in Hn as [Hne Hn].
    pose proof (disconnect_all_flags a (connections na) b (stopNode m a)) as E.
    rewrite Hn in E. simpl in E.
    destruct (nodes (stopNode m a) !! b) as [n0|] eqn:E0; [| discriminate].
    injection E as ->. now apply H3.
  - intros Hi. rewrite Ee.
    rewrite (Inv_units _ b (Inv_stopNode_group m a Hi)). now rewrite H1.
Qed.

End Reach.

Lemma group_transport_is_one_hop_witness :
  "c" <> "b"
  /\ ("c" ∉ NodeManager.neighbors Scenario.trio "b")
  /\ NodeManager.nodes (NodeManager.playNode Scenario.trio "b" false 1) !! "c"
     = NodeManager.nodes Scenario.trio !! "c"
  /\ engineEntry (NodeManager.audioEngine (NodeManager.stopNode Scenario.trio "b")) "c"
     = engineEntry (NodeManager.audioEngine Scenario.trio) "c".
Proof.
  assert (Hne : "c" <> "b") by discriminate.
  assert (Hc : "c" ∉ NodeManager.neighbors Scenario.trio "b")
    by (apply (bool_decide_unpack _); vm_compute; exact I).
  destruct (group_transport_is_one_hop Scenario.trio "b" "c" false 1 Hne Hc)
    as (H1 & _ & _ & H4 & _).
  repeat split; assumption.
Defined.

Lemma connect_disconnect_round_trip_witness :
  NodeManager.nodes Scenario.trio !! "b" = Some (Scenario.node "b" true ["a"])
  /\ NodeManager.nodes Scenario.trio !! "c" = Some (Scenario.node "c" false ["a"])
  /\ linked Scenario.trio
  /\ NodeManager.disconnectNodes (NodeManager.connectNodes Scenario.trio "b" "c") "b" "c"
     = Scenario.trio.
Proof.
  assert (Hb : NodeManager.nodes Scenario.trio !! "b"
               = Some (Scenario.node "b" true ["a"])) by (vm_compute; reflexivity).
  assert (Hc : NodeManager.nodes Scenario.trio !! "c"
               = Some (Scenario.node "c" false ["a"])) by (vm_compute; reflexivity).
  assert (Hne : "b" <> "c") by discriminate.
  assert (Hin : "c" ∉ NodeManager.connections (Scenario.node "b" true ["a"]))
    by (apply (bool_decide_unpack _); vm_compute; exact I).
  destruct (connect_disconnect_round_trip Scenario.trio "b" "c" _ _ Hb Hc Hne
              trio_linked Hin) as (H1 & _).
  repeat split; try assumption. apply trio_linked.
Defined.

Lemma disconnect_ends_group_witness :
  "a" <> "b"
  /\ ("b" ∉ NodeManager.neighbors (NodeManager.disconnectNodes Scenario.trio "a" "b") "a")
  /\ NodeManager.nodes
       (NodeManager.stopNode (NodeManager.disconnectNodes Scenario.trio "a" "b") "a") !! "b"
     = NodeManager.nodes (NodeManager.disconnectNodes Scenario.trio "a" "b") !! "b".
Proof.
  assert (Hne : "a" <> "b") by discriminate.
  destruct (disconnect_ends_group Scenario.trio "a" "b" false 1 Hne)
    as (_ & H1 & _ & _ & _ & H2 & _).
  repeat split; assumption.
Defined.

Lemma remove_stops_the_group_witness :
  NodeManager.nodes Scenario.trio !! "a" = Some (Scenario.node "a" false ["b"; "c"])
  /\ "b" ∈ NodeManager.connections (Scenario.node "a" false ["b"; "c"])
  /\ AudioEngine.isNodePlaying (NodeManager.audioEngine Scenario.trio) "b" = true
  /\ silenced (NodeManager.removeNode Scenario.trio "a") "b".
Proof.
  assert (Ha : NodeManager.nodes Scenario.trio !! "a"
               = Some (Scenario.node "a" false ["b"; "c"])) by (vm_compute; reflexivity).
  assert (Hin : "b" ∈ NodeManager.connections (Scenario.node "a" false ["b"; "c"]))
    by apply list_elem_of_here.
  destruct (remove_stops_the_group Scenario.trio "a" _ "b" Ha Hin) as (H1 & _).
  split; [exact Ha | split; [exact Hin | split; [vm_compute; reflexivity | exact H1]]].
Defined.

(** ** The individual manager's flags and intervals *)

Section ManagerTracking.

Import IndividualPlaybackManager.

Lemma TInv_local m m' n :
  TInv m ->
  (forall x, x <> n -> nodeStates m' !! x = nodeStates m !! x
                       /\ timeTrackers m' !! x = timeTrackers m !! x) ->
  (is_Some (timeTrackers m' !! n)
   <-> exists st, nodeStates m' !! n = Some st /\ isPlaying st = true) ->
  (forall st, nodeStates m' !! n = Some st -> settled st) ->
  TInv m'.
Proof.
  intros [H1 H2] Hx Hn Hs. split.
  - intros x. destruct (decide (x = n)) as [-> | Hne]; [exact Hn |].
    destruct (Hx x Hne) as [-> ->]. apply H1.
  - intros x st. destruct (decide (x = n)) as [-> | Hne]; [apply Hs |].
    destruct (Hx x Hne) as [-> _]. apply H2.
Qed.

Lemma registered_states nodeIds n :
  nodeStates (registered nodeIds) !! n
  = if decide (n ∈ nodeIds) then Some (mkState false false 0 None None) else None.
Proof.
  unfold registered.
  assert (H : forall m,
             nodeStates (foldl initializeNode m nodeIds) !! n
             = if decide (n ∈ nodeIds) then Some (mkState false false 0 None None)
               else nodeStates m !! n).
  { induction nodeIds as [| c l IH]; intros m; cbn [foldl].
    - destruct (decide (n ∈ [])) as [H | H]; [now apply elem_of_nil in H | reflexivity].
    - rewrite IH. clear IH.
      destruct (decide (n ∈ c :: l)) as [Hcl | Hcl], (decide (n ∈ l)) as [Hn | Hn];
        try reflexivity.
      + apply elem_of_cons in Hcl as [-> | ?]; [| tauto].
        unfold initializeNode. simpl. apply lookup_insert_eq.
      + destruct Hcl. now apply list_elem_of_further.
      + unfold initializeNode. simpl. apply lookup_insert_ne.
        intros ->. apply Hcl, list_elem_of_here. }
  rewrite H. now destruct (decide _).
Qed.

Lemma registered_trackers nodeIds : timeTrackers (registered nodeIds) = ∅.
Proof.
  unfold registered.
  assert (H : forall m, timeTrackers (foldl initializeNode m nodeIds) = timeTrackers m).
  { induction nodeIds as [| c l IH]; intros m; simpl; [reflexivity |]. now rewrite IH. }
  apply (H create).
Qed.

Lemma TInv_registered nodeIds : TInv (registered nodeIds).
Proof.
  split.
  - intros n. rewrite registered_trackers, lookup_empty, registered_states.
    split; [intros [? ?]; discriminate |].
    intros (st & Hst & Hp). destruct (decide _); [| discriminate].
    now injection Hst as <-.
  - intros n st. rewrite registered_states.
    destruct (decide _); [| discriminate]. now intros [= <-].
Qed.

Lemma stopNode_other_m m n x :
  x <> n -> nodeStates (stopNode m n) !! x = nodeStates m !! x
            /\ timeTrackers (stopNode m n) !! x = timeTrackers m !! x.
Proof.
  intros Hx. unfold stopNode. destruct (nodeStates m !! n); [| tauto]. simpl.
  now rewrite lookup_insert_ne, lookup_delete_ne by congruence.
Qed.

Lemma stopNode_at m n :
  nodeStates (stopNode m n) !! n
  = (fun _ => mkState false false 0 None None) <$> nodeStates m !! n.
Proof.
  unfold stopNode. destruct (nodeStates m !! n) eqn:E; simpl;
    [apply lookup_insert_eq | exact E].
Qed.

Lemma TInv_stopNode m n : TInv m -> TInv (stopNode m n).
Proof.
  intros Hm. apply (TInv_local m _ n Hm).
  - intros x Hx. now apply stopNode_other_m.
  - rewrite stopNode_at. unfold stopNode.
    destruct (nodeStates m !! n) as [st|] eqn:E; simpl.
    + rewrite lookup_delete_eq. split; [intros [? ?]; discriminate |].
      intros (st' & [= <-] & Hp). discriminate.
    + rewrite (tinv_tracker m Hm n), E. split; intros (? & ? & ?); discriminate.
  - intros st. rewrite stopNode_at.
    destruct (nodeStates m !! n); [| discriminate]. now intros [= <-].
Qed.

Lemma playNode_other_m m n x audioBuffer now :
  x <> n -> nodeStates (playNode m n audioBuffer now) !! x = nodeStates m !! x
            /\ timeTrackers (playNode m n audioBuffer now) !! x = timeTrackers m !! x.
Proof.
  intros Hx. unfold playNode. destruct (nodeStates m !! n) eqn:E; [| tauto].
  unfold startTimeTracking. simpl.
  rewrite !lookup_insert_ne by congruence. now apply stopNode_other_m.
Qed.

Lemma TInv_playNode m n audioBuffer now : TInv m -> TInv (playNode m n audioBuffer now).
Proof.
  intros Hm. apply (TInv_local m _ n Hm).
  - intros x Hx. now apply playNode_other_m.
  - unfold playNode. destruct (nodeStates m !! n) as [st|] eqn:E.
    + unfold startTimeTracking. simpl. rewrite !lookup_insert_eq.
      split; [eauto | intros _; eauto].
    + rewrite (tinv_tracker m Hm n), E. reflexivity.
  - intros st. unfold playNode. destruct (nodeStates m !! n) as [st0|] eqn:E.
    + unfold startTimeTracking. simpl. rewrite lookup_insert_eq.
      intros [= <-]. unfold settled. simpl. eauto.
    + rewrite E. discriminate.
Qed.

Lemma pauseNode_other_m m n x now :
  x <> n -> nodeStates (pauseNode m n now) !! x = nodeStates m !! x
            /\ timeTrackers (pauseNode m n now) !! x = timeTrackers m !! x.
Proof.
  intros Hx. unfold pauseNode. destruct (nodeStates m !! n) as [st|]; [| tauto].
  destruct (isPlaying st); simpl; [| tauto].
  now rewrite lookup_insert_ne, lookup_delete_ne by congruence.
Qed.

Lemma TInv_pauseNode m n now : TInv m -> TInv (pauseNode m n now).
Proof.
  intros Hm. unfold pauseNode.
  destruct (nodeStates m !! n) as [st|] eqn:E; [| assumption].
  destruct (isPlaying st) eqn:Hp; simpl; [| assumption].
  apply (TInv_local m _ n Hm); simpl.
  - intros x Hx. now rewrite lookup_insert_ne, lookup_delete_ne by congruence.
  - rewrite lookup_delete_eq, lookup_insert_eq. split; [intros [? ?]; discriminate |].
    intros (st' & [= <-] & H). discriminate.
  - intros st'. rewrite lookup_insert_eq. now intros [= <-].
Qed.

Lemma TInv_tick m n now : TInv m -> TInv (tick m n now).
Proof.
  intros Hm. unfold tick.
  destruct (timeTrackers m !! n) as [trk|] eqn:Et; [| assumption].
  destruct (proj1 (tinv_tracker m Hm n)) as (st & Hst & Hp); [eauto |].
  rewrite Hst, Hp.
  apply (TInv_local m _ n Hm); simpl.
  - intros x Hx. now rewrite lookup_insert_ne by congruence.
  - rewrite Et, lookup_insert_eq. split; [| eauto].
    intros _. eexists. split; reflexivity.
  - intros st'. rewrite lookup_insert_eq. intros [= <-].
    pose proof (tinv_settled m Hm n st Hst) as Hs. unfold settled in *. simpl.
    now rewrite Hp in *.
Qed.

Lemma TInv_onended m unit : TInv m -> TInv (onended m unit).
Proof.
  intros Hm. unfold onended. destruct (find _ _) as [s|]; [| assumption].
  apply TInv_stopNode. destruct Hm as [H1 H2]. now split.
Qed.

Lemma TInv_step m op : TInv m -> TInv (step m op).
Proof.
  intros Hm. destruct op; simpl.
  - now apply TInv_playNode.
  - now apply TInv_pauseNode.
  - now apply TInv_stopNode.
  - unfold toggleNode. destruct (nodeStates m !! nodeId) as [st|]; [| assumption].
    destruct (isPlaying st); [now apply TInv_pauseNode | now apply TInv_playNode].
  - now apply TInv_tick.
  - now apply TInv_onended.
Qed.

Lemma TInv_run ops : forall m, TInv m -> TInv (run ops m).
Proof.
  unfold run. induction ops as [| op ops IH]; simpl; intros m Hm; [assumption |].
  apply IH. now apply TInv_step.
Qed.

(** X13.  On every run of the individual manager the tracking interval of a node
    is armed exactly while its state says playing; a playing state is not
    paused and holds a source; a state that is not playing holds no source
    and no unit is rendered for its node. *)
Theorem tracker_armed_while_playing nodeIds ops n :
  let m := run ops (registered nodeIds) in
  (is_Some (timeTrackers m !! n)
   <-> exists st, nodeStates m !! n = Some st /\ isPlaying st = true)
  /\ (forall st, nodeStates m !! n = Some st -> isPlaying st = true ->
                 isPaused st = false
                 /\ exists s, audioSource st = Some s)
  /\ (forall st, nodeStates m !! n = Some st -> isPlaying st = false ->
                 audioSource st = None /\ live_units n (sounding m) = 0%nat)
  /\ (nodeStates m !! n = None -> live_units n (sounding m) = 0%nat).
Proof.
  intros m.
  assert (Ht : TInv m) by apply TInv_run, TInv_registered.
  assert (Hm : MInv m) by apply MInv_run, MInv_registered.
  split; [apply (tinv_tracker m Ht) |]. split; [| split].
  - intros st Hst Hp. pose proof (tinv_settled m Ht n st Hst) as Hs.
    unfold settled in Hs. rewrite Hp in Hs. destruct Hs as [? [s ?]]. eauto.
  - intros st Hst Hp. pose proof (tinv_settled m Ht n st Hst) as Hs.
    unfold settled in Hs. rewrite Hp in Hs. split; [assumption |].
    apply live_units_0. intros u Hu Ho.
    destruct (minv_source m Hm u Hu) as (st' & Hst' & Hsrc). congruence.
  - intros Hst. apply live_units_0. intros u Hu Ho.
    destruct (minv_source m Hm u Hu) as (st' & Hst' & Hsrc). congruence.
Qed.


Lemma pauseAll_run l now :
  forall m, pauseAllNodes m l now = run ((fun n => Pause n now) <$> l) m.
Proof.
  unfold pauseAllNodes, run. induction l as [| c l IH]; intros m; simpl; [reflexivity |].
  apply IH.
Qed.

Lemma pauseAll_outside l n now :
  n ∉ l ->
  forall m, nodeStates (pauseAllNodes m l now) !! n = nodeStates m !! n
            /\ timeTrackers (pauseAllNodes m l now) !! n = timeTrackers m !! n.
Proof.
  unfold pauseAllNodes.
  induction l as [| c l IH]; intros Hn m; simpl; [tauto |].
  apply not_elem_of_cons in Hn as [Hc Hl].
  destruct (IH Hl (pauseNode m c now)) as [-> ->].
  now apply pauseNode_other_m.
Qed.

Lemma pauseNode_at m n st now :
  nodeStates m !! n = Some st ->
  nodeStates (pauseNode m n now) !! n = Some (paused_at now st).
Proof.
  intros Hst. unfold pauseNode, paused_at. rewrite Hst.
  destruct (isPlaying st); simpl; [apply lookup_insert_eq | exact Hst].
Qed.

Lemma paused_at_twice now st : paused_at now (paused_at now st) = paused_at now st.
Proof. unfold paused_at. now destruct (isPlaying st) eqn:E; simpl; rewrite ?E. Qed.

Lemma pauseAll_inside l n now :
  forall m st,
    nodeStates m !! n = Some st ->
    nodeStates (pauseAllNodes m l now) !! n
    = Some (if decide (n ∈ l) then paused_at now st else st).
Proof.
  unfold pauseAllNodes.
  induction l as [| c l IH]; intros m st Hst; cbn [foldl].
  - destruct (decide (n ∈ [])) as [H | H]; [now apply elem_of_nil in H | exact Hst].
  - destruct (decide (c = n)) as [-> | Hc].
    + rewrite (IH _ _ (pauseNode_at m n st now Hst)).
      destruct (decide (n ∈ n :: l)) as [_ | H]; [| destruct H; apply list_elem_of_here].
      destruct (decide (n ∈ l)); [apply f_equal, paused_at_twice | reflexivity].
    + destruct (pauseNode_other_m m c n now (not_eq_sym Hc)) as [Hs _].
      rewrite <- Hs in Hst. rewrite (IH _ _ Hst).
      destruct (decide (n ∈ c :: l)) as [Hcl | Hcl], (decide (n ∈ l)) as [Hn | Hn];
        try reflexivity.
      * apply elem_of_cons in Hcl as [-> | ?]; tauto.
      * destruct Hcl. now apply list_elem_of_further.
Qed.

(** X14.  [pauseAllNodes] on a run of the manager: a listed node that was playing
    is paused at its stored position, a listed node that was not playing and
    every node outside the list keep their state; afterwards no listed node
    has an armed interval or a rendering unit. *)
Theorem pauseAllNodes_pauses nodeIds ops l now :
  let m := run ops (registered nodeIds) in
  let m' := pauseAllNodes m l now in
  (forall n, n ∉ l ->
             nodeStates m' !! n = nodeStates m !! n
             /\ timeTrackers m' !! n = timeTrackers m !! n)
  /\ (forall n st, n ∈ l -> nodeStates m !! n = Some st ->
                   nodeStates m' !! n
                   = Some (if isPlaying st
                           then mkState false true (currentTime st) None (Some now)
                           else st))
  /\ (forall n, n ∈ l ->
                timeTrackers m' !! n = None /\ live_units n (sounding m') = 0%nat).
Proof.
  intros m m'. split; [| split].
  - intros n Hn. now apply pauseAll_outside.
  - intros n st Hn Hst. unfold m'. rewrite (pauseAll_inside l n now m st Hst).
    now rewrite decide_True.
  - intros n Hn.
    assert (Ht : TInv m').
    { unfold m'. rewrite pauseAll_run. apply TInv_run, TInv_run, TInv_registered. }
    assert (Hm : MInv m').
    { unfold m'. rewrite pauseAll_run. apply MInv_run, MInv_run, MInv_registered. }
    assert (Ht0 : TInv m) by apply TInv_run, TInv_registered.
    assert (Hq : forall st', nodeStates m' !! n = Some st' -> isPlaying st' = false).
    { intros st' Hst'.
      destruct (nodeStates m !! n) as [st|] eqn:E.
      - unfold m' in Hst'. rewrite (pauseAll_inside l n now m st E) in Hst'.
        rewrite decide_True in Hst' by assumption. injection Hst' as <-.
        unfold paused_at. now destruct (isPlaying st) eqn:Hp.
      - assert (H : forall k m0, nodeStates m0 !! n = None ->
                                 nodeStates (pauseAllNodes m0 k now) !! n = None).
        { unfold pauseAllNodes. induction k as [| c k IH]; intros m0 H0; simpl;
            [exact H0 |].
          apply IH. unfold pauseNode. destruct (nodeStates m0 !! c) as [sc|] eqn:Ec;
            [| exact H0].
          destruct (isPlaying sc); simpl; [| exact H0].
          rewrite lookup_insert_ne; [exact H0 | congruence]. }
        unfold m' in Hst'. rewrite (H l m E) in Hst'. discriminate. }
    split.
    + destruct (timeTrackers m' !! n) as [trk|] eqn:Et; [| reflexivity].
      destruct (proj1 (tinv_tracker m' Ht n)) as (st' & Hst' & Hp); [eauto |].
      rewrite (Hq st' Hst') in Hp. discriminate.
    + apply live_units_0. intros u Hu Ho.
      destruct (minv_source m' Hm u Hu) as (st' & Hst' & Hsrc). rewrite Ho in Hst'.
      pose proof (tinv_settled m' Ht n st' Hst') as Hs. unfold settled in Hs.
      rewrite (Hq st' Hst') in Hs. congruence.
Qed.

Lemma playNode_playing m n st audioBuffer now :
  nodeStates m !! n = Some st -> playing_from (playNode m n audioBuffer now) n audioBuffer.
Proof.
  intros Hst. unfold playing_from, playNode. rewrite Hst.
  unfold startTimeTracking. simpl. rewrite !lookup_insert_eq.
  eexists _, _. repeat split; try reflexivity. eauto.
Qed.

Lemma playAll_step m c l audioBuffers now :
  playAllNodes m (c :: l) audioBuffers now
  = playAllNodes (match audioBuffers !! c with
                  | Some audioBuffer => playNode m c audioBuffer now
                  | None => m
                  end) l audioBuffers now.
Proof. reflexivity. Qed.

Lemma playAll_outside l n audioBuffers now :
  n ∉ l \/ audioBuffers !! n = None ->
  forall m, nodeStates (playAllNodes m l audioBuffers now) !! n = nodeStates m !! n
            /\ timeTrackers (playAllNodes m l audioBuffers now) !! n
               = timeTrackers m !! n.
Proof.
  induction l as [| c l IH]; intros Hn m; [split; reflexivity |].
  rewrite playAll_step.
  assert (Hl : n ∉ l \/ audioBuffers !! n = None).
  { destruct Hn as [Hn | Hn]; [left | now right].
    apply not_elem_of_cons in Hn. tauto. }
  destruct (IH Hl (match audioBuffers !! c with
                   | Some audioBuffer => playNode m c audioBuffer now
                   | None => m
                   end)) as [-> ->].
  destruct (audioBuffers !! c) as [buf|] eqn:Ec; [| tauto].
  apply playNode_other_m. intros ->.
  destruct Hn as [Hn | Hn]; [apply Hn, list_elem_of_here | congruence].
Qed.

Lemma playAll_keeps l n audioBuffer audioBuffers now :
  audioBuffers !! n = Some audioBuffer ->
  forall m, playing_from m n audioBuffer ->
            playing_from (playAllNodes m l audioBuffers now) n audioBuffer.
Proof.
  intros Hb. induction l as [| c l IH]; intros m Hm; [exact Hm |].
  rewrite playAll_step. apply IH.
  destruct (decide (c = n)) as [-> | Hc].
  - rewrite Hb. destruct Hm as (st & _ & Hst & _). now apply (playNode_playing m n st).
  - destruct (audioBuffers !! c) as [buf|]; [| exact Hm].
    destruct Hm as (st & s & Hst & Hm).
    destruct (playNode_other_m m c n buf now (not_eq_sym Hc)) as [E1 E2].
    exists st, s. now rewrite E1, E2.
Qed.

Lemma playAll_reaches l n audioBuffer audioBuffers now :
  n ∈ l -> audioBuffers !! n = Some audioBuffer ->
  forall m, is_Some (nodeStates m !! n) ->
            playing_from (playAllNodes m l audioBuffers now) n audioBuffer.
Proof.
  intros Hn Hb.
  induction l as [| c l IH]; intros m [st Hst]; [now apply elem_of_nil in Hn |].
  rewrite playAll_step.
  destruct (decide (c = n)) as [-> | Hc].
  - rewrite Hb. apply (playAll_keeps l n audioBuffer audioBuffers now Hb).
    now apply (playNode_playing m n st).
  - apply elem_of_cons in Hn as [-> | Hn]; [congruence |].
    apply (IH Hn).
    destruct (audioBuffers !! c) as [bc|]; [| eauto].
    destruct (playNode_other_m m c n bc now (not_eq_sym Hc)) as [-> _]. eauto.
Qed.

(** X15.  [playAllNodes]: every listed node that is registered and has a buffer in
    the map ends up playing from that buffer, with its interval armed; a node
    outside the list, or without a buffer in the map, keeps its state and its
    interval. *)
Theorem playAllNodes_plays m l audioBuffers now :
  let m' := playAllNodes m l audioBuffers now in
  (forall n audioBuffer,
      n ∈ l -> audioBuffers !! n = Some audioBuffer -> is_Some (nodeStates m !! n) ->
      exists st s,
        nodeStates m' !! n = Some st /\ isPlaying st = true /\ isPaused st = false
        /\ audioSource st = Some s /\ src_owner s = n /\ src_buffer s = audioBuffer
        /\ is_Some (timeTrackers m' !! n))
  /\ (forall n, n ∉ l \/ audioBuffers !! n = None ->
                nodeStates m' !! n = nodeStates m !! n
                /\ timeTrackers m' !! n = timeTrackers m !! n).
Proof.
  intros m'. split; [| intros n Hn; now apply playAll_outside].
  intros n buf Hn Hb Hreg. now apply playAll_reaches.
Qed.

Lemma stopNodes_states_m l n :
  forall m, nodeStates (foldl stopNode m l) !! n
            = if decide (n ∈ l)
              then (fun _ => mkState false false 0 None None) <$> nodeStates m !! n
              else nodeStates m !! n.
Proof.
  induction l as [| c l IH]; intros m; cbn [foldl].
  - destruct (decide (n ∈ [])) as [H | H]; [now apply elem_of_nil in H | reflexivity].
  - rewrite IH. clear IH.
    destruct (decide (n ∈ c :: l)) as [Hcl | Hcl], (decide (n ∈ l)) as [Hn | Hn].
    + destruct (decide (c = n)) as [-> | Hc].
      * rewrite stopNode_at. now destruct (nodeStates m !! n).
      * now destruct (stopNode_other_m m c n (not_eq_sym Hc)) as [-> _].
    + apply elem_of_cons in Hcl as [-> | ?]; [| tauto]. apply stopNode_at.
    + destruct Hcl. now apply list_elem_of_further.
    + apply stopNode_other_m. intros ->. apply Hcl, list_elem_of_here.
Qed.

Lemma stopNodes_trackers_m l n :
  forall m, timeTrackers m !! n = None -> timeTrackers (foldl stopNode m l) !! n = None.
Proof.
  induction l as [| c l IH]; intros m Hm; simpl; [exact Hm |].
  apply IH. unfold stopNode. destruct (nodeStates m !! c); simpl; [| exact Hm].
  destruct (decide (c = n)) as [-> | Hc];
    [apply lookup_delete_eq | now rewrite lookup_delete_ne].
Qed.

Lemma MInv_stopNodes l : forall m, MInv m -> MInv (foldl stopNode m l).
Proof.
  induction l as [| c l IH]; intros m Hm; simpl; [exact Hm |].
  apply IH, MInv_stopNode, Hm.
Qed.

Lemma state_keys m n :
  n ∈ (map_to_list (nodeStates m)).*1 <-> is_Some (nodeStates m !! n).
Proof.
  rewrite list_elem_of_fmap. split.
  - intros ([k s] & -> & H). apply elem_of_map_to_list in H. now exists s.
  - intros [s H]. exists (n, s). split; [reflexivity | now apply elem_of_map_to_list].
Qed.

Lemma stopNode_comm_m m a b : stopNode (stopNode m a) b = stopNode (stopNode m b) a.
Proof.
  destruct (decide (a = b)) as [-> | Hab]; [reflexivity |].
  unfold stopNode.
  destruct (nodeStates m !! a) as [sa|] eqn:Ea,
           (nodeStates m !! b) as [sb|] eqn:Eb; simpl;
    rewrite ?lookup_insert_ne, ?Ea, ?Eb by congruence; simpl; try reflexivity.
  f_equal.
  - now apply insert_insert_ne.
  - apply delete_delete.
  - destruct (audioSource sa), (audioSource sb); try reflexivity. apply halt_comm.
Qed.

Lemma stopNodes_perm_m l1 l2 :
  l1 ≡ₚ l2 -> forall m, foldl stopNode m l1 = foldl stopNode m l2.
Proof.
  induction 1 as [| x l1 l2 _ IH | x y l | l1 l2 l3 _ IH1 _ IH2]; intros m; simpl.
  - reflexivity.
  - apply IH.
  - now rewrite stopNode_comm_m.
  - now rewrite IH1.
Qed.
(** X16.  [dispose] resets every registered node and disarms every interval; the
    registered ids stay registered.  Under the bookkeeping invariant no unit
    is rendered afterwards.  The order in which the nodes are visited is
    immaterial. *)
Theorem dispose_resets m :
  let m' := dispose m in
  timeTrackers m' = ∅
  /\ (forall n, nodeStates m' !! n
                = (fun _ => mkState false false 0 None None) <$> nodeStates m !! n)
  /\ (MInv m -> sounding m' = [])
  /\ (forall l, l ≡ₚ (map_to_list (nodeStates m)).*1 ->
                foldl stopNode (mkManager (nodeStates m) ∅ (sounding m) (fresh m)) l = m').
Proof.
  intros m'.
  assert (Hs : forall n, nodeStates m' !! n
                         = (fun _ => mkState false false 0 None None)
                             <$> nodeStates m !! n).
  { intros n. unfold m', dispose. rewrite stopNodes_states_m. simpl.
    destruct (decide _) as [Hn | Hn]; [reflexivity |].
    rewrite state_keys in Hn. destruct (nodeStates m !! n); [| reflexivity].
    destruct Hn. eauto. }
  split; [| split; [exact Hs | split]].
  - apply map_eq. intros n. rewrite lookup_empty.
    unfold m', dispose. apply stopNodes_trackers_m. simpl. apply lookup_empty.
  - intros Hm.
    assert (Hm' : MInv m').
    { unfold m', dispose. apply MInv_stopNodes. destruct Hm as [H1 H2 H3]. now split. }
    destruct (sounding m') as [| u k] eqn:E; [reflexivity |].
    assert (Hu : u ∈ sounding m') by (rewrite E; apply list_elem_of_here).
    destruct (minv_source m' Hm' u Hu) as (st & Hst & Hsrc).
    rewrite Hs in Hst. destruct (nodeStates m !! src_owner u); [| discriminate].
    injection Hst as <-. discriminate.
  - intros l Hl. now apply stopNodes_perm_m.
Qed.


End ManagerTracking.


(** ** Durations and waveforms *)






Lemma two_digits s :
  (0 <= s < 60)%Z ->
  String.length (Js.padStart 2 "0" (Js.toString s)) = 2%nat
  /\ ((s < 10)%Z -> Js.padStart 2 "0" (Js.toString s) = ("0" ++ Js.toString s)%string)
  /\ ((10 <= s)%Z -> Js.padStart 2 "0" (Js.toString s) = Js.toString s).
Proof.
  intros Hs.
  assert (H : forallb (fun k =>
                let t := Js.padStart 2 "0" (Js.toString (Z.of_nat k)) in
                Nat.eqb (String.length t) 2
                && (if (k <? 10)%nat
                    then String.eqb t ("0" ++ Js.toString (Z.of_nat k))
                    else String.eqb t (Js.toString (Z.of_nat k))))
              (seq 0 60) = true) by (vm_compute; reflexivity).
  rewrite forallb_forall in H.
  specialize (H (Z.to_nat s)). rewrite Z2Nat.id in H by lia.
  assert (Hin : In (Z.to_nat s) (seq 0 60)) by (apply in_seq; lia).
  apply H in Hin. cbv zeta in Hin. apply andb_true_iff in Hin as [Hl Hc].
  apply Nat.eqb_eq in Hl. split; [exact Hl |].
  destruct (Z.to_nat s <? 10)%nat eqn:E.
  - apply String.eqb_eq in Hc. apply Nat.ltb_lt in E. split; [intros _; exact Hc | lia].
  - apply String.eqb_eq in Hc. apply Nat.ltb_ge in E. split; [lia | intros _; exact Hc].
Qed.


(** X19.  The recorder's [formatDuration] of an elapsed time in milliseconds, a
    non-negative integer of the exactly representable range, shows its whole
    seconds the same way. *)
Theorem recorder_formatDuration_clock ms :
  (0 <= ms <= 2 ^ 53)%Z ->
  let total := (ms / 1000)%Z in
  let mins := (total / 60)%Z in
  let secs := (total mod 60)%Z in
  let field := Js.padStart 2 "0" (Js.toString secs) in
  SessionRecorder.formatDuration ms = (Js.toString mins ++ ":" ++ field)%string
  /\ String.length field = 2%nat
  /\ (0 <= secs < 60)%Z /\ (60 * mins + secs = total)%Z
  /\ (1000 * total <= ms < 1000 * total + 1000)%Z.
Proof.
  intros Hs total mins secs field.
  assert (Ht : (0 <= total)%Z) by (apply Z.div_pos; lia).
  assert (Hm : (0 <= secs < 60)%Z) by (apply Z.mod_pos_bound; lia).
  destruct (two_digits secs Hm) as (H1 & _).
  split.
  - unfold SessionRecorder.formatDuration. fold total. rewrite Z.rem_mod_nonneg by lia. reflexivity.
  - repeat split; try assumption; try lia.
    + unfold mins, secs. symmetry. apply Z.div_mod. lia.
    + unfold total. pose proof (Z.mul_div_le ms 1000 ltac:(lia)). lia.
    + unfold total. pose proof (Z.div_mod ms 1000 ltac:(lia)).
      pose proof (Z.mod_pos_bound ms 1000 ltac:(lia)). lia.
Qed.

Lemma sum_abs_lower l :
  forall acc, acc <= foldl (fun sum v => sum + Qabs v) acc l.
Proof.
  induction l as [| v l IH]; intros acc; simpl; [lra |].
  pose proof (IH (acc + Qabs v)). pose proof (Qabs_nonneg v). lra.
Qed.

Lemma sum_abs_upper B l :
  Forall (fun v => Qabs v <= B) l ->
  forall acc,
    foldl (fun sum v => sum + Qabs v) acc l
    <= acc + B * inject_Z (Z.of_nat (length l)).
Proof.
  induction 1 as [| v l Hv _ IH]; intros acc.
  - cbn [foldl length]. change (inject_Z (Z.of_nat 0)) with 0. lra.
  - cbn [foldl length]. specialize (IH (acc + Qabs v)).
    rewrite Nat2Z.inj_succ, <- Z.add_1_r, inject_Z_plus.
    change (inject_Z 1) with 1. lra.
Qed.

(** X20.  [generateWaveformData] returns exactly [samples] entries.  When the
    channel holds at least [samples] samples every entry is a number, not
    negative and no larger than any bound on the magnitudes of the samples;
    when it holds fewer, every entry is [NaN]. *)
Theorem waveform_entries channelData samples :
  let waveformData := FileHandling.generateWaveformData channelData samples in
  length waveformData = samples
  /\ ((samples <= length channelData)%nat ->
      forall i r, waveformData !! i = Some r ->
        exists v, r = Some v /\ 0 <= v
                  /\ forall B, Forall (fun x => Qabs x <= B) channelData -> v <= B)
  /\ ((length channelData < samples)%nat ->
      forall i r, waveformData !! i = Some r -> r = None).
Proof.
  intros waveformData. unfold waveformData, FileHandling.generateWaveformData. cbv zeta.
  split; [now rewrite length_fmap, length_seq |].
  set (blockSize := (length channelData / samples)%nat).
  split.
  - intros Hle i r Hr.
    apply list_lookup_fmap_Some in Hr as (j & -> & Hj).
    apply lookup_seq in Hj as [-> Hi]. simpl in *.
    assert (Hs : (0 < samples)%nat) by lia.
    assert (Hb : (0 < blockSize)%nat).
    { unfold blockSize. apply Nat.div_str_pos. lia. }
    assert (Hfit : (i * blockSize + blockSize <= length channelData)%nat).
    { transitivity (samples * blockSize)%nat; [nia |].
      unfold blockSize. apply Nat.Div0.mul_div_le. }
    rewrite Nat.min_l by exact Hfit.
    replace (i * blockSize + blockSize - i * blockSize)%nat with blockSize by lia.
    destruct (Nat.eqb_spec blockSize 0) as [E | _]; [lia |].
    set (block := take blockSize (drop (i * blockSize) channelData)).
    assert (Hlen : length block = blockSize).
    { unfold block. rewrite length_take, length_drop. lia. }
    assert (Hpos : 0 < inject_Z (Z.of_nat blockSize)).
    { change 0 with (inject_Z 0). rewrite <- Zlt_Qlt. lia. }
    eexists. split; [reflexivity |]. split.
    + apply Qle_shift_div_l; [exact Hpos |].
      pose proof (sum_abs_lower block 0). lra.
    + intros B HB. apply Qle_shift_div_r; [exact Hpos |].
      assert (Hblock : Forall (fun x => Qabs x <= B) block).
      { unfold block. apply Forall_take, Forall_drop, HB. }
      pose proof (sum_abs_upper B block Hblock 0) as H. rewrite Hlen in H. lra.
  - intros Hlt i r Hr.
    apply list_lookup_fmap_Some in Hr as (j & -> & Hj).
    apply lookup_seq in Hj as [-> Hi]. simpl.
    assert (Hb : blockSize = 0%nat).
    { unfold blockSize. apply Nat.div_small. lia. }
    rewrite Hb. now rewrite Nat.mul_0_r.
Qed.


Lemma recorder_formatDuration_clock_witness :
  (0 <= 65250 <= 2 ^ 53)%Z /\ SessionRecorder.formatDuration 65250 = "1:05"%string.
Proof.
  assert (H0 : (0 <= 65250 <= 2 ^ 53)%Z) by (split; discriminate).
  destruct (recorder_formatDuration_clock 65250 H0) as (H & _).
  split; [exact H0 |]. rewrite H. vm_compute. reflexivity.
Defined.

(** ** The handlers of the application *)

Section Handlers.

Import NodeManager.

Lemma stopNode_keeps_silenced m a b : silenced m b -> silenced (stopNode m a) b.
Proof.
  intros Hs. unfold stopNode.
  assert (H1 : silenced (stopConnected m a) b) by now apply stopConnected_keeps.
  destruct (nodes (stopConnected m a) !! a); [now apply propagate_stop | exact H1].
Qed.

Lemma reset_silences l b :
  forall m, silenced m b \/ b ∈ map id l ->
            silenced (foldl (fun m node => stopNode m (id node)) m l) b.
Proof.
  induction l as [| c l IH]; intros m H; simpl in *.
  - destruct H as [H | H]; [exact H | now apply elem_of_nil in H].
  - apply IH. destruct H as [H | H].
    + left. now apply stopNode_keeps_silenced.
    + apply elem_of_cons in H as [-> | H]; [left; apply stopNode_silences | now right].
Qed.

Lemma reset_Inv l :
  forall m, Inv (audioEngine m) ->
            Inv (audioEngine (foldl (fun m node => stopNode m (id node)) m l)).
Proof.
  induction l as [| c l IH]; intros m H; simpl; [exact H |].
  apply IH. now apply Inv_stopNode_group.
Qed.

Lemma reset_links l x :
  forall m, links (foldl (fun m node => stopNode m (id node)) m l) x = links m x.
Proof.
  induction l as [| c l IH]; intros m; simpl; [reflexivity |].
  rewrite IH. apply links_stopNode.
Qed.

(** X21.  [handleResetAll] silences every node of the canvas: none of them keeps an
    active node, an unhalted state or a raised flag, in the manager or in the
    canvas snapshot, and under the bookkeeping invariant none has a rendering
    unit; the links are left as they are. *)
Theorem reset_all_silences app :
  let app' := App.handleResetAll app in
  (forall node, node ∈ App.canvasNodes app ->
                silenced (App.nodeManager app') (id node)
                /\ (Inv (audioEngine (App.nodeManager app)) ->
                    live_units (id node)
                      (AudioEngine.sounding (audioEngine (App.nodeManager app'))) = 0%nat))
  /\ (forall node, node ∈ App.canvasNodes app' -> isPlaying node = false)
  /\ map id (App.canvasNodes app') = map id (App.canvasNodes app)
  /\ (forall x, links (App.nodeManager app') x = links (App.nodeManager app) x).
Proof.
  intros app'. split; [| split; [| split]].
  - intros node Hn.
    assert (Hs : silenced (App.nodeManager app') (id node)).
    { apply reset_silences. right. apply list_elem_of_In, in_map, list_elem_of_In, Hn. }
    split; [exact Hs |]. intros Hi.
    unfold live_units, app', App.handleResetAll. simpl.
    rewrite (Inv_units _ (id node) (reset_Inv _ _ Hi)).
    destruct Hs as [Hs _]. simpl in Hs. now rewrite Hs.
  - intros node Hn. simpl in Hn. apply list_elem_of_In, in_map_iff in Hn as (n0 & <- & _).
    reflexivity.
  - simpl. rewrite map_map. reflexivity.
  - intros x. apply reset_links.
Qed.

Lemma linked_removeNode m a : linked m -> linked (removeNode m a).
Proof.
  intros Hl. apply linked_alt. intros x lx b Hx Hb.
  assert (Hxa : x <> a).
  { intros ->. apply links_Some in Hx as (na & Hx & _).
    now rewrite removeNode_gone in Hx. }
  rewrite links_removeNode in Hx by assumption.
  destruct (links m x) as [cs|] eqn:Hcs; simpl in Hx; [| discriminate].
  injection Hx as <-. apply elem_of_without in Hb as [Hba Hb].
  destruct (proj1 (linked_alt m) Hl x cs b Hcs Hb) as (lb & Hlb & Hin).
  exists (without a lb). rewrite links_removeNode, Hlb by assumption.
  split; [reflexivity |]. apply elem_of_without. tauto.
Qed.




(** [handleNodeDelete] removes the node from the manager and from the
    canvas and, on symmetric lists, from every list that named it. *)
Lemma node_delete_leaves_no_trace app nodeId :
  linked (App.nodeManager app) ->
  let app' := App.handleNodeDelete app nodeId in
  nodes (App.nodeManager app') !! nodeId = None
  /\ (forall x nx, nodes (App.nodeManager app') !! x = Some nx ->
                   nodeId ∉ connections nx)
  /\ linked (App.nodeManager app')
  /\ (forall node, node ∈ App.canvasNodes app' <->
                   node ∈ App.canvasNodes app /\ id node <> nodeId).
Proof.
  intros Hl app'.
  pose proof (linked_removeNode _ nodeId Hl) as Hl'.
  split; [apply removeNode_gone |]. split.
  { intros x nx Hx Hin. destruct (Hl' x nx nodeId Hx Hin) as (nb & Hnb & _).
    simpl in Hnb. now rewrite removeNode_gone in Hnb. }
  split; [exact Hl' |].
  intros node. simpl. rewrite list_elem_of_filter. tauto.
Qed.

Lemma mute_toggle_state app nodeId st :
  AudioEngine.nodeStates (audioEngine (App.nodeManager app)) !! nodeId = Some st ->
  AudioEngine.nodeStates
    (audioEngine (App.nodeManager (App.handleMuteToggle app nodeId))) !! nodeId
  = Some (AudioEngine.mkState (AudioEngine.source st)
            (mkGain (gain_id (AudioEngine.gainNode st))
                    (if AudioEngine.isMuted st then AudioEngine.volume st else 0))
            (AudioEngine.isPlaying st) (AudioEngine.isPaused st)
            (AudioEngine.startTime st) (AudioEngine.pauseTime st)
            (AudioEngine.volume st) (negb (AudioEngine.isMuted st))).
Proof.
  intros Hst. unfold App.handleMuteToggle, AudioEngine.getNodeState.
  rewrite Hst. cbn [App.nodeManager audioEngine].
  unfold AudioEngine.unmuteNode, AudioEngine.muteNode. rewrite Hst.
  destruct (AudioEngine.isMuted st); simpl; now rewrite lookup_insert_eq.
Qed.

(** X23.  Two taps on mute restore the mute flag and leave the gain at what the
    flag and the stored volume ask for; one tap flips the flag.  A node the
    engine has no state for is left alone. *)
Theorem mute_toggle_twice app nodeId :
  let e := audioEngine (App.nodeManager app) in
  let once := App.handleMuteToggle app nodeId in
  let twice := App.handleMuteToggle once nodeId in
  (AudioEngine.nodeStates e !! nodeId = None -> once = app)
  /\ (forall st,
         AudioEngine.nodeStates e !! nodeId = Some st ->
         (exists st1,
             AudioEngine.nodeStates (audioEngine (App.nodeManager once)) !! nodeId
             = Some st1
             /\ AudioEngine.isMuted st1 = negb (AudioEngine.isMuted st)
             /\ AudioEngine.volume st1 = AudioEngine.volume st
             /\ gain_value (AudioEngine.gainNode st1)
                = if AudioEngine.isMuted st then AudioEngine.volume st else 0)
         /\ (exists st2,
                AudioEngine.nodeStates (audioEngine (App.nodeManager twice)) !! nodeId
                = Some st2
                /\ AudioEngine.isMuted st2 = AudioEngine.isMuted st
                /\ AudioEngine.volume st2 = AudioEngine.volume st
                /\ gain_value (AudioEngine.gainNode st2)
                   = if AudioEngine.isMuted st then 0 else AudioEngine.volume st)).
Proof.
  intros e once twice. split.
  - intros Hn. unfold once, App.handleMuteToggle, AudioEngine.getNodeState.
    fold e. rewrite Hn. destruct app as [[? ?] ? ? ? ?]. reflexivity.
  - intros st Hst.
    pose proof (mute_toggle_state app nodeId st Hst) as H1. fold once in H1.
    pose proof (mute_toggle_state once nodeId _ H1) as H2. fold twice in H2.
    split; eexists; (split; [eassumption |]); simpl;
      destruct (AudioEngine.isMuted st); tauto.
Qed.

End Handlers.


(** ** Auto-connection of an upload *)

Section AutoConnect.

Import NodeManager.

Lemma filter_all {A} (P : A -> Prop) `{forall x, Decision (P x)} (l : list A) :
  (forall x, x ∈ l -> P x) -> filter P l = l.
Proof.
  induction l as [| c l IH]; intros Hl; [reflexivity |].
  rewrite filter_cons_True by (apply Hl, list_elem_of_here).
  f_equal. apply IH. intros x Hx. now apply Hl, list_elem_of_further.
Qed.

Lemma foldl_over_map {A B C} (f : A -> C -> A) (g : B -> C) (l : list B) :
  forall a, foldl (fun a b => f a (g b)) a l = foldl f a (map g l).
Proof. induction l as [| c l IH]; intros a; simpl; [reflexivity | apply IH]. Qed.

Lemma connectNodes_links_at m a b x :
  a <> b -> x <> b -> is_Some (nodes m !! b) ->
  links (connectNodes m a b) x
  = (fun cs => if decide (x = a /\ b ∉ cs) then cs ++ [b] else cs) <$> links m x.
Proof.
  intros Hab Hxb [nb Hb]. unfold connectNodes.
  destruct (nodes m !! a) as [na|] eqn:Ha.
  - rewrite Hb. destruct (decide (b ∈ connections na)) as [Hin | Hin].
    + rewrite bool_decide_eq_true_2 by assumption. simpl.
      unfold links. destruct (nodes m !! x) as [nx|] eqn:Hx; simpl; [| reflexivity].
      f_equal. destruct (decide _) as [[-> Hn] | _]; [| reflexivity].
      rewrite Ha in Hx. injection Hx as <-. contradiction.
    + rewrite bool_decide_eq_false_2 by assumption. simpl.
      rewrite !links_alter. rewrite decide_False by congruence.
      destruct (decide (a = x)) as [<- | Hax].
      * unfold links. rewrite Ha. simpl. f_equal.
        rewrite decide_True; [reflexivity | tauto].
      * destruct (links m x) as [cs|]; simpl; [| reflexivity]. f_equal.
        rewrite decide_False; [reflexivity |]. intros [-> _]. congruence.
  - unfold links. destruct (nodes m !! x) as [nx|] eqn:Hx; simpl; [| reflexivity].
    f_equal. destruct (decide _) as [[-> Hn] | _]; [| reflexivity]. congruence.
Qed.

Lemma connectNodes_keeps m a b x :
  is_Some (nodes (connectNodes m a b) !! x) <-> is_Some (nodes m !! x).
Proof.
  unfold connectNodes.
  destruct (nodes m !! a) as [na|]; [| reflexivity].
  destruct (nodes m !! b) as [nb|]; [| reflexivity].
  destruct (negb _); [| reflexivity]. simpl.
  now rewrite !lookup_alter_is_Some.
Qed.

Lemma autolink_links newId l :
  forall m,
    is_Some (nodes m !! newId) ->
    (forall a, a ∈ l -> a <> newId) ->
    forall x, x <> newId ->
      links (foldl (fun m a => connectNodes m a newId) m l) x
      = (fun cs => if decide (x ∈ l /\ newId ∉ cs) then cs ++ [newId] else cs)
          <$> links m x.
Proof.
  induction l as [| c l IH]; intros m Hn Hl x Hx; cbn [foldl].
  - destruct (links m x) as [cs|]; [| reflexivity].
    reflexivity.
  - assert (Hc : c <> newId) by (apply Hl, list_elem_of_here).
    assert (Hn' : is_Some (nodes (connectNodes m c newId) !! newId))
      by now apply connectNodes_keeps.
    assert (Hl' : forall a, a ∈ l -> a <> newId)
      by (intros a Ha; apply Hl; now apply list_elem_of_further).
    rewrite (IH _ Hn' Hl' x Hx).
    rewrite (connectNodes_links_at m c newId x Hc Hx Hn).
    destruct (links m x) as [cs|]; simpl; [| reflexivity]. f_equal.
    destruct (decide (x = c /\ newId ∉ cs)) as [[-> Hcs] | H1].
    + rewrite decide_False.
      * rewrite decide_True; [reflexivity |]. split; [apply list_elem_of_here | assumption].
      * intros [_ H]. apply H, elem_of_app. right. apply list_elem_of_here.
    + destruct (decide (x ∈ l /\ newId ∉ cs)) as [[H2 H3] | H2].
      * rewrite decide_True; [reflexivity |].
        split; [now apply list_elem_of_further | assumption].
      * rewrite decide_False; [reflexivity |]. intros [H3 H4].
        apply elem_of_cons in H3 as [-> | H3]; tauto.
Qed.

Lemma connectNodes_fields m a b x l :
  set_connections l <$> nodes (connectNodes m a b) !! x
  = set_connections l <$> nodes m !! x.
Proof.
  unfold connectNodes.
  destruct (nodes m !! a) as [na|]; [| reflexivity].
  destruct (nodes m !! b) as [nb|]; [| reflexivity].
  destruct (negb _); [| reflexivity]. simpl.
  destruct (decide (b = x)) as [-> | Hb], (decide (a = x)) as [-> | Ha];
    rewrite ?lookup_alter_eq, ?lookup_alter_ne by assumption;
    rewrite ?lookup_alter_eq, ?lookup_alter_ne by assumption;
    now destruct (nodes m !! x).
Qed.

Lemma autolink_fields newId l x cs :
  forall m, set_connections cs <$> nodes (foldl (fun m a => connectNodes m a newId) m l) !! x
            = set_connections cs <$> nodes m !! x.
Proof.
  induction l as [| c l IH]; intros m; simpl; [reflexivity |].
  rewrite IH. apply connectNodes_fields.
Qed.

Lemma autolink_engine newId l :
  forall m, audioEngine (foldl (fun m a => connectNodes m a newId) m l) = audioEngine m.
Proof.
  induction l as [| c l IH]; intros m; simpl; [reflexivity |].
  rewrite IH. apply connectNodes_engine.
Qed.

Lemma autolink_keeps newId l x :
  forall m, is_Some (nodes (foldl (fun m a => connectNodes m a newId) m l) !! x)
            <-> is_Some (nodes m !! x).
Proof.
  induction l as [| c l IH]; intros m; simpl; [reflexivity |].
  rewrite IH. apply connectNodes_keeps.
Qed.


Lemma validated_upload app file x y newId newColor audio :
  FileHandling.isValid (FileHandling.validateAudioFile file) = true ->
  AudioEngine.initialized (audioEngine (App.nodeManager app)) = true ->
  file_audio file = Some audio ->
  let node := mkNode newId x y (Some audio) (file_name file) false [] newColor in
  let m1 := mkManager (audioEngine (App.nodeManager app))
                      (<[newId := node]> (nodes (App.nodeManager app))) in
  App.handleFileUpload app file x y newId newColor
  = App.mkApp (App.autoConnect m1 (App.canvasNodes app) node).1
              (App.autoConnect m1 (App.canvasNodes app) node).2
              (App.mode app) (App.connectingNodeId app)
              (App.effects app ++ [App.DecodeAudioData file]).
Proof.
  intros Hv Hi Ha node m1. unfold App.handleFileUpload.
  rewrite Hv, Hi. simpl. unfold createNode, loadAudioFile. rewrite Hi, Ha. simpl.
  fold node. fold m1. now destruct (App.autoConnect m1 (App.canvasNodes app) node).
Qed.

(** X24.  An accepted upload onto a canvas that shows nodes of the manager links
    the new node with every one of them, both ways, in the manager and in
    the canvas snapshot; the adjacency lists stay symmetric and the engine is
    not touched.  On an empty canvas the node is added without links. *)
Theorem upload_auto_connects app file x y newId newColor audio :
  FileHandling.isValid (FileHandling.validateAudioFile file) = true ->
  AudioEngine.initialized (audioEngine (App.nodeManager app)) = true ->
  file_audio file = Some audio ->
  nodes (App.nodeManager app) !! newId = None ->
  linked (App.nodeManager app) ->
  (forall p, p ∈ App.canvasNodes app ->
             is_Some (nodes (App.nodeManager app) !! id p) /\ newId ∉ connections p) ->
  let m := App.nodeManager app in
  let app' := App.handleFileUpload app file x y newId newColor in
  let m' := App.nodeManager app' in
  let ids := map id (App.canvasNodes app) in
  nodes m' !! newId
  = Some (mkNode newId x y (Some audio) (file_name file) false ids newColor)
  /\ (forall a, a <> newId ->
                links m' a
                = (fun cs => if decide (a ∈ ids) then cs ++ [newId] else cs) <$> links m a)
  /\ linked m'
  /\ App.canvasNodes app'
     = map (fun p => set_connections (connections p ++ [newId]) p) (App.canvasNodes app)
         ++ [mkNode newId x y (Some audio) (file_name file) false ids newColor]
  /\ audioEngine m' = audioEngine m.
Proof.
  intros Hv Hi Ha Hfresh Hl Hcanvas m app' m' ids.
  fold m in Hi, Hfresh, Hl, Hcanvas.
  set (node := mkNode newId x y (Some audio) (file_name file) false [] newColor).
  set (m1 := mkManager (audioEngine m) (<[newId := node]> (nodes m))).
  assert (Happ : app' = App.mkApp (App.autoConnect m1 (App.canvasNodes app) node).1
                                  (App.autoConnect m1 (App.canvasNodes app) node).2
                                  (App.mode app) (App.connectingNodeId app)
                                  (App.effects app ++ [App.DecodeAudioData file]))
    by now apply validated_upload.
  assert (Hm' : m' = (App.autoConnect m1 (App.canvasNodes app) node).1)
    by (unfold m'; now rewrite Happ).
  assert (Hc' : App.canvasNodes app' = (App.autoConnect m1 (App.canvasNodes app) node).2)
    by now rewrite Happ.
  rewrite Hc', Hm'. clear Happ Hm' Hc'. clearbody m' app'. clear m' app'.
  assert (Hids : forall a, a ∈ ids -> a <> newId /\ is_Some (nodes m !! a)).
  { intros a Ha'. apply list_elem_of_In, in_map_iff in Ha' as (p & <- & Hp).
    apply list_elem_of_In, Hcanvas in Hp as [Hp _]. split; [| exact Hp].
    intros E. rewrite E, Hfresh in Hp.
    now destruct Hp. }
  assert (Hno : forall a cs, links m a = Some cs -> newId ∉ cs).
  { intros a cs Hcs Hin. apply links_Some in Hcs as (na & Hna & <-).
    destruct (Hl a na newId Hna Hin) as (nb & Hnb & _). congruence. }
  assert (Hl1 : forall a, a <> newId -> links m1 a = links m a).
  { intros a Hne. unfold links, m1. simpl. now rewrite lookup_insert_ne. }
  assert (Hfilter : filter (fun n => App.listed (id node) n = false) (App.canvasNodes app)
                    = App.canvasNodes app).
  { apply filter_all. intros p Hp. destruct (Hcanvas p Hp) as [_ Hn].
    unfold App.listed. simpl. now apply bool_decide_eq_false_2. }
  subst ids. remember (App.canvasNodes app) as canvas eqn:Hcv. clear Hcv.
  set (ids := map id canvas) in *.
  destruct (decide (canvas = [])) as [-> | Hnonempty].
  - (* the first node of the canvas *)
    unfold App.autoConnect. simpl. unfold m1. simpl.
    split; [apply lookup_insert_eq |]. split.
    { intros a Hne. rewrite <- (Hl1 a Hne). unfold m1.
      destruct (links _ a); simpl; [| reflexivity].
      now destruct (decide (a ∈ ids)) as [H | _]; [apply elem_of_nil in H |]. }
    split; [| split; reflexivity].
    apply (linked_createNode m newId newColor file x y _ node Hl Hfresh).
    unfold createNode, loadAudioFile. now rewrite Hi, Ha.
  - assert (Hlen : (2 <=? length (canvas ++ [node]))%nat = true).
    { apply Nat.leb_le. rewrite length_app. simpl.
      destruct canvas; [now destruct Hnonempty | simpl; lia]. }
    set (m2 := foldl (fun m0 existingNode => connectNodes m0 (id existingNode) (id node))
                     m1 (canvas)).
    assert (Hm2 : m2 = foldl (fun m0 a => connectNodes m0 a newId) m1 ids).
    { unfold m2, ids. apply (foldl_over_map (fun m0 a => connectNodes m0 a newId) id). }
    assert (Hauto : App.autoConnect m1 (canvas) node
                    = (updateNodeState m2 newId (set_connections ids),
                       map (fun p => if negb (String.eqb (id p) newId)
                                        && negb (App.listed newId p)
                                     then set_connections (connections p ++ [newId]) p
                                     else p)
                           (canvas ++ [set_connections ids node]))).
    { unfold App.autoConnect. rewrite Hlen, Hfilter. reflexivity. }
    rewrite Hauto. simpl.
    assert (Hnew1 : is_Some (nodes m1 !! newId)).
    { unfold m1. simpl. rewrite lookup_insert_eq. eauto. }
    assert (Hlinks2 : forall a, a <> newId ->
              links m2 a
              = (fun cs => if decide (a ∈ ids) then cs ++ [newId] else cs) <$> links m a).
    { intros a Hne. rewrite Hm2.
      rewrite (autolink_links newId ids m1 Hnew1 (fun a H => proj1 (Hids a H)) a Hne).
      rewrite (Hl1 a Hne).
      destruct (links m a) as [cs|] eqn:Hcs; simpl; [| reflexivity]. f_equal.
      pose proof (Hno a cs Hcs).
      destruct (decide (a ∈ ids)), (decide (a ∈ ids /\ newId ∉ cs)); tauto. }
    assert (Hnode2 : nodes m2 !! newId <> None).
    { rewrite Hm2. intros E.
      destruct (proj2 (autolink_keeps newId ids newId m1) Hnew1) as [? ?]. congruence. }
    split.
    { rewrite lookup_alter_eq, Hm2.
      rewrite (autolink_fields newId ids newId ids m1). unfold m1. simpl.
      now rewrite lookup_insert_eq. }
    assert (Hlinks' : forall a, a <> newId ->
              links (updateNodeState m2 newId (set_connections ids)) a
              = (fun cs => if decide (a ∈ ids) then cs ++ [newId] else cs) <$> links m a).
    { intros a Hne. rewrite links_alter, decide_False by congruence. now apply Hlinks2. }
    assert (Hnew' : links (updateNodeState m2 newId (set_connections ids)) newId = Some ids).
    { rewrite links_alter, decide_True by reflexivity. rewrite Hm2.
      rewrite (autolink_fields newId ids newId ids m1). unfold m1. simpl.
      now rewrite lookup_insert_eq. }
    split; [exact Hlinks' |]. split.
    { apply linked_alt. intros a la b Hla Hb.
      destruct (decide (a = newId)) as [-> | Hane].
      - rewrite Hnew' in Hla. injection Hla as <-.
        destruct (Hids b Hb) as [Hbne [nb Hnb]].
        rewrite (Hlinks' b Hbne). unfold links at 1. rewrite Hnb. simpl.
        eexists. split; [reflexivity |]. rewrite decide_True by assumption.
        apply elem_of_app. right. apply list_elem_of_here.
      - rewrite (Hlinks' a Hane) in Hla.
        destruct (links m a) as [cs|] eqn:Hcs; simpl in Hla; [| discriminate].
        injection Hla as <-.
        assert (Hcase : b ∈ cs \/ (b = newId /\ a ∈ ids)).
        { destruct (decide (a ∈ ids)); [| now left].
          apply elem_of_app in Hb as [Hb | Hb]; [now left |].
          apply list_elem_of_singleton in Hb. now right. }
        destruct Hcase as [Hbcs | [-> Ha']].
        + destruct (proj1 (linked_alt m) Hl a cs b Hcs Hbcs) as (lb & Hlb & Hin).
          assert (Hbne : b <> newId).
          { intros ->. apply links_Some in Hlb as (nb & Hnb & _). congruence. }
          rewrite (Hlinks' b Hbne), Hlb. simpl. eexists. split; [reflexivity |].
          destruct (decide (b ∈ ids)); [apply elem_of_app; now left | exact Hin].
        + exists ids. split; assumption. }
    split.
    { rewrite map_app. simpl. f_equal.
      - apply map_ext_in. intros p Hp. apply list_elem_of_In in Hp.
        destruct (Hcanvas p Hp) as [Hex Hn].
        assert (Hpne : id p <> newId).
        { apply Hids. apply list_elem_of_In, in_map, list_elem_of_In, Hp. }
        apply String.eqb_neq in Hpne. rewrite Hpne.
        unfold App.listed. now rewrite bool_decide_eq_false_2.
      - now rewrite String.eqb_refl. }
    rewrite Hm2, autolink_engine. reflexivity.
Qed.


End AutoConnect.

Lemma solo_app_linked : linked (App.nodeManager Scenario.solo_app).
Proof.
  intros a na b Ha Hb. simpl in Ha.
  apply lookup_singleton_Some in Ha as [<- <-]. simpl in Hb.
  now apply elem_of_nil in Hb.
Qed.

Lemma upload_auto_connects_witness :
  FileHandling.isValid (FileHandling.validateAudioFile (Scenario.upload 1000)) = true
  /\ NodeManager.nodes (App.nodeManager Scenario.solo_app) !! "b" = None
  /\ linked (App.nodeManager Scenario.solo_app)
  /\ (let app' := App.handleFileUpload Scenario.solo_app (Scenario.upload 1000)
                                       3 4 "b" "#ffffff" in
      NodeManager.nodes (App.nodeManager app') !! "b"
      = Some (NodeManager.mkNode "b" 3 4 (Some Scenario.clip) "take.wav" false ["a"]
                                 "#ffffff")
      /\ links (App.nodeManager app') "a" = Some ["b"]).
Proof.
  assert (Hv : FileHandling.isValid
                 (FileHandling.validateAudioFile (Scenario.upload 1000)) = true)
    by (vm_compute; reflexivity).
  assert (Hf : NodeManager.nodes (App.nodeManager Scenario.solo_app) !! "b" = None)
    by (vm_compute; reflexivity).
  assert (Hc : forall p, p ∈ App.canvasNodes Scenario.solo_app ->
                 is_Some (NodeManager.nodes (App.nodeManager Scenario.solo_app)
                            !! NodeManager.id p)
                 /\ "b" ∉ NodeManager.connections p).
  { intros p Hp. apply list_elem_of_singleton in Hp as ->. split.
    - exists (Scenario.node "a" false []). vm_compute. reflexivity.
    - apply not_elem_of_nil. }
  destruct (upload_auto_connects Scenario.solo_app (Scenario.upload 1000) 3 4 "b"
              "#ffffff" Scenario.clip Hv eq_refl eq_refl Hf solo_app_linked Hc)
    as (H1 & H2 & _).
  split; [exact Hv | split; [exact Hf | split; [exact solo_app_linked |]]].
  split; [exact H1 |].
  rewrite (H2 "a") by discriminate. vm_compute. reflexivity.
Defined.

(** ** The list of connections *)

Section Connections.

Import NodeManager.

Lemma ltb_asym a b : String.ltb a b = true -> String.ltb b a = false.
Proof.
  unfold String.ltb. rewrite (String.compare_antisym b a).
  now destruct (String.compare a b).
Qed.

Lemma ltb_total a b : a <> b -> String.ltb a b = true \/ String.ltb b a = true.
Proof.
  intros Hne. unfold String.ltb. rewrite (String.compare_antisym b a).
  destruct (String.compare a b) eqn:E; simpl; auto.
  apply String.compare_eq_iff in E. contradiction.
Qed.

Lemma elem_of_getAllNodes m n :
  keyed m -> n ∈ getAllNodes m <-> nodes m !! id n = Some n.
Proof.
  intros Hk. unfold getAllNodes. rewrite list_elem_of_fmap. split.
  - intros ([k n'] & -> & H). apply elem_of_map_to_list in H. simpl.
    now rewrite (Hk k n' H).
  - intros H. exists (id n, n). split; [reflexivity | now apply elem_of_map_to_list].
Qed.

Lemma NoDup_getAllNodes m : keyed m -> NoDup (getAllNodes m).
Proof.
  intros Hk. unfold getAllNodes. apply NoDup_fmap_2_strong.
  - intros [k1 n1] [k2 n2] H1 H2 E. simpl in E. subst n2.
    apply elem_of_map_to_list in H1, H2.
    now rewrite <- (Hk k1 n1 H1), <- (Hk k2 n1 H2).
  - apply NoDup_map_to_list.
Qed.

Lemma elem_of_getConnections m na nb :
  keyed m ->
  (na, nb) ∈ getConnections m
  <-> nodes m !! id na = Some na /\ nodes m !! id nb = Some nb
      /\ id nb ∈ connections na /\ String.ltb (id na) (id nb) = true.
Proof.
  intros Hk. unfold getConnections. rewrite list_elem_of_bind. split.
  - intros (node & Hin & Hnode). apply (elem_of_getAllNodes m node Hk) in Hnode.
    apply list_elem_of_bind in Hin as (c & Hin & Hc).
    destruct (nodes m !! c) as [cn|] eqn:E; [| now apply elem_of_nil in Hin].
    destruct (String.ltb (id node) c) eqn:L; [| now apply elem_of_nil in Hin].
    apply list_elem_of_singleton in Hin. injection Hin as -> ->.
    rewrite (Hk c cn E). tauto.
  - intros (Ha & Hb & Hin & L). exists na. split; [| now apply elem_of_getAllNodes].
    apply list_elem_of_bind. exists (id nb). split; [| exact Hin].
    rewrite Hb, L. apply list_elem_of_here.
Qed.

(** X25.  [getConnections] lists every link once: a pair of records is listed
    exactly when the first lists the second and has the smaller id; no pair
    is listed twice; and of the two directions of a link exactly one is
    listed. *)
Theorem getConnections_lists_each_link_once m :
  keyed m -> linked m -> simple m ->
  (forall na nb,
      (na, nb) ∈ getConnections m
      <-> nodes m !! id na = Some na /\ nodes m !! id nb = Some nb
          /\ id nb ∈ connections na /\ String.ltb (id na) (id nb) = true)
  /\ NoDup (getConnections m)
  /\ (forall a b na nb,
         nodes m !! a = Some na -> nodes m !! b = Some nb -> b ∈ connections na ->
         ((na, nb) ∈ getConnections m /\ (nb, na) ∉ getConnections m)
         \/ ((nb, na) ∈ getConnections m /\ (na, nb) ∉ getConnections m)).
Proof.
  intros Hk Hl Hs.
  split; [intros na nb; now apply elem_of_getConnections |]. split.
  - unfold getConnections. apply NoDup_bind.
    + intros n1 n2 [x y] _ _ H1 H2.
      apply list_elem_of_bind in H1 as (c1 & H1 & _).
      apply list_elem_of_bind in H2 as (c2 & H2 & _).
      destruct (nodes m !! c1); [| now apply elem_of_nil in H1].
      destruct (String.ltb (id n1) c1); [| now apply elem_of_nil in H1].
      destruct (nodes m !! c2); [| now apply elem_of_nil in H2].
      destruct (String.ltb (id n2) c2); [| now apply elem_of_nil in H2].
      apply list_elem_of_singleton in H1, H2. congruence.
    + intros n Hn. apply (elem_of_getAllNodes m n Hk) in Hn.
      destruct (Hs _ _ Hn) as [Hnd _].
      apply NoDup_bind; [| | exact Hnd].
      * intros c1 c2 [x y] _ _ H1 H2.
        destruct (nodes m !! c1) as [n1|] eqn:E1; [| now apply elem_of_nil in H1].
        destruct (String.ltb (id n) c1); [| now apply elem_of_nil in H1].
        destruct (nodes m !! c2) as [n2|] eqn:E2; [| now apply elem_of_nil in H2].
        destruct (String.ltb (id n) c2); [| now apply elem_of_nil in H2].
        apply list_elem_of_singleton in H1, H2.
        rewrite <- (Hk c1 n1 E1), <- (Hk c2 n2 E2). congruence.
      * intros c _. destruct (nodes m !! c); [| constructor].
        destruct (String.ltb (id n) c); [apply NoDup_singleton | constructor].
    + now apply NoDup_getAllNodes.
  - intros a b na nb Ha Hb Hin.
    destruct (Hl a na b Ha Hin) as (nb' & Hb' & Hback).
    assert (nb' = nb) by congruence. subst nb'.
    assert (Hab : a <> b).
    { intros ->. destruct (Hs b na Ha) as [_ Hself]. contradiction. }
    pose proof (Hk a na Ha) as Ia. pose proof (Hk b nb Hb) as Ib.
    rewrite !(elem_of_getConnections m _ _ Hk), Ia, Ib.
    destruct (ltb_total a b Hab) as [L | L]; [left | right];
      (split; [tauto |]); intros (_ & _ & _ & L'); apply ltb_asym in L; congruence.
Qed.

End Connections.

Lemma trio_keyed : keyed Scenario.trio.
Proof.
  intros k n H. unfold Scenario.trio in H. simpl in H.
  repeat (apply lookup_insert_Some in H as [[<- <-] | [? H]]; [reflexivity |]).
  rewrite lookup_empty in H. discriminate.
Qed.

Lemma trio_simple : simple Scenario.trio.
Proof.
  intros k n H. unfold Scenario.trio in H. simpl in H.
  repeat (apply lookup_insert_Some in H as [[<- <-] | [? H]];
          [split; apply (bool_decide_unpack _); vm_compute; exact I |]).
  rewrite lookup_empty in H. discriminate.
Qed.

Lemma getConnections_lists_each_link_once_witness :
  keyed Scenario.trio /\ linked Scenario.trio /\ simple Scenario.trio
  /\ NoDup (NodeManager.getConnections Scenario.trio)
  /\ (Scenario.node "a" false ["b"; "c"], Scenario.node "b" true ["a"])
       ∈ NodeManager.getConnections Scenario.trio.
Proof.
  destruct (getConnections_lists_each_link_once Scenario.trio trio_keyed trio_linked
              trio_simple) as (H1 & H2 & _).
  split; [exact trio_keyed | split; [exact trio_linked | split; [exact trio_simple |]]].
  split; [exact H2 |]. apply H1. repeat split; try (vm_compute; reflexivity).
  apply list_elem_of_here.
Defined.

(** ** The play-all button *)

Section Button.

Import IndividualPlaybackManager.








End Button.


(** ** Gestures *)

Section Gestures.

Import GestureRecognizer.

Lemma press_short r x y down up :
  (up - down < 800)%Z ->
  let double := (up - lastTapTime r <? 300)%Z in
  press r x y down up
  = mkRecognizer down (x, y) (if double then 0 else up)%Z None false
                 (filter (fun h => h ≠ fresh r) (fresh r :: pending r)) (S (fresh r))
                 (gestures r ++ [mkEvent (if double then doubleTap else tap) (x, y)]).
Proof.
  intros H double. unfold press, onEnd, onStart, clearLongPressTimer. simpl.
  unfold LONG_PRESS_DURATION, DOUBLE_TAP_DURATION. apply Z.ltb_lt in H. rewrite H.
  fold double. now destruct double.
Qed.

(** X27.  A press released before the long-press delay yields exactly one event: a
    double tap when the release comes less than 300ms after the last tap, a
    tap otherwise; its timeout is disarmed.  After a double tap the next
    press is a tap again: three quick presses give tap, double tap, tap. *)
Theorem press_is_tap_or_double_tap r x y down up :
  (up - down < 800)%Z ->
  let r' := press r x y down up in
  let double := (up - lastTapTime r <? 300)%Z in
  gestures r' = gestures r ++ [mkEvent (if double then doubleTap else tap) (x, y)]
  /\ lastTapTime r' = (if double then 0 else up)%Z
  /\ longPressTimer r' = None /\ isDragging r' = false
  /\ (fresh r ∉ pending r')
  /\ (forall x2 y2 d2 u2 x3 y3 d3 u3,
         (300 <= up - lastTapTime r)%Z -> (u2 - d2 < 800)%Z -> (u2 - up < 300)%Z ->
         (u3 - d3 < 800)%Z -> (300 <= u3)%Z ->
         gestures (press (press r' x2 y2 d2 u2) x3 y3 d3 u3)
         = gestures r ++ [mkEvent tap (x, y); mkEvent doubleTap (x2, y2);
                          mkEvent tap (x3, y3)]).
Proof.
  intros Hshort r' double.
  pose proof (press_short r x y down up Hshort) as Hr'. fold r' in Hr'.
  cbv zeta in Hr'. fold double in Hr'.
  split; [now rewrite Hr' |]. split; [now rewrite Hr' |].
  split; [now rewrite Hr' |]. split; [now rewrite Hr' |]. split.
  - rewrite Hr'. cbn [pending]. rewrite list_elem_of_filter. tauto.
  - intros x2 y2 d2 u2 x3 y3 d3 u3 H1 H2 H3 H4 H5.
    assert (Hd : double = false) by (apply Z.ltb_ge; exact H1).
    rewrite Hr', Hd. rewrite (press_short _ x2 y2 d2 u2 H2).
    cbn [lastTapTime gestures fresh pending].
    assert (E2 : (u2 - up <? 300)%Z = true) by now apply Z.ltb_lt.
    rewrite E2. rewrite (press_short _ x3 y3 d3 u3 H4).
    cbn [lastTapTime gestures fresh pending].
    assert (E3 : (u3 - 0 <? 300)%Z = false) by (apply Z.ltb_ge; lia).
    rewrite E3. now rewrite <- !app_assoc.
Qed.


(** X29.  The long-press timeout of a press that has not become a drag yields one
    long-press event at the start position, once; a release that comes 800ms
    or more after the start adds no event. *)
Theorem long_press_fires_once r x y now :
  fresh r ∉ pending r ->
  let started := onStart r x y now in
  let fired := onTimeout started (fresh r) in
  gestures fired = gestures r ++ [mkEvent longPress (x, y)]
  /\ onTimeout fired (fresh r) = fired
  /\ pending fired = pending r
  /\ (forall x' y' up,
         (800 <= up - now)%Z ->
         gestures (onEnd fired x' y' up) = gestures fired
         /\ lastTapTime (onEnd fired x' y' up) = lastTapTime r)
  /\ (forall x' y' up,
         (800 <= up - now)%Z -> gestures (onEnd started x' y' up) = gestures r).
Proof.
  intros Hfresh started fired.
  assert (Hp : filter (fun h => h ≠ fresh r) (fresh r :: pending r) = pending r).
  { rewrite filter_cons_False by tauto. apply filter_all. intros h Hh ->. contradiction. }
  assert (Hf : fired = mkRecognizer now (x, y) (lastTapTime r) (Some (fresh r)) false
                         (pending r) (S (fresh r))
                         (gestures r ++ [mkEvent longPress (x, y)])).
  { unfold fired, onTimeout, started, onStart. simpl.
    rewrite bool_decide_eq_true_2 by apply list_elem_of_here.
    unfold onGesture. simpl. now rewrite Hp. }
  rewrite Hf. cbn [gestures pending].
  split; [reflexivity |]. split.
  { unfold onTimeout. cbn [pending]. now rewrite bool_decide_eq_false_2. }
  split; [reflexivity |]. split.
  - intros x' y' up H. unfold onEnd, clearLongPressTimer. simpl.
    unfold LONG_PRESS_DURATION. apply Z.ltb_ge in H. rewrite H. split; reflexivity.
  - intros x' y' up H. unfold onEnd, clearLongPressTimer. simpl.
    unfold LONG_PRESS_DURATION. apply Z.ltb_ge in H. now rewrite H.
Qed.

End Gestures.

Lemma press_is_tap_or_double_tap_witness :
  (1100 - 1000 < 800)%Z
  /\ GestureRecognizer.gestures (press GestureRecognizer.create 1 2 1000 1100)
     = [GestureRecognizer.mkEvent GestureRecognizer.tap (1, 2)].
Proof.
  assert (H : (1100 - 1000 < 800)%Z) by reflexivity.
  destruct (press_is_tap_or_double_tap GestureRecognizer.create 1 2 1000 1100 H)
    as (H1 & _).
  split; [exact H | exact H1].
Defined.

Lemma long_press_fires_once_witness :
  (GestureRecognizer.fresh GestureRecognizer.create
     ∉ GestureRecognizer.pending GestureRecognizer.create)
  /\ GestureRecognizer.gestures
       (GestureRecognizer.onTimeout
          (GestureRecognizer.onStart GestureRecognizer.create 1 2 1000) 1)
     = [GestureRecognizer.mkEvent GestureRecognizer.longPress (1, 2)].
Proof.
  assert (H : GestureRecognizer.fresh GestureRecognizer.create
                ∉ GestureRecognizer.pending GestureRecognizer.create)
    by apply not_elem_of_nil.
  destruct (long_press_fires_once GestureRecognizer.create 1 2 1000 H) as (H1 & _).
  split; [exact H | exact H1].
Defined.

(** ** The shape of the graph on every reachable manager *)

Section ReachableGraph.

Import NodeManager.

(** What the ids and the lists of a manager say. *)
Lemma keyed_alt m : keyed m <-> forall k, id <$> nodes m !! k = (fun _ => k) <$> nodes m !! k.
Proof.
  split.
  - intros Hk k. destruct (nodes m !! k) as [n|] eqn:E; [| reflexivity].
    simpl. f_equal. now apply Hk.
  - intros H k n Hn. specialize (H k). rewrite Hn in H. now injection H.
Qed.

Lemma keyed_updateNodeState m c f :
  (forall n, id (f n) = id n) -> keyed m -> keyed (updateNodeState m c f).
Proof.
  intros Hf Hk k n Hn. unfold updateNodeState in Hn. simpl in Hn.
  apply lookup_alter_Some in Hn as [(-> & n0 & Hn0 & ->) | [_ Hn]].
  - rewrite Hf. now apply Hk.
  - now apply Hk.
Qed.

Lemma keyed_nodes m m' : nodes m' = nodes m -> keyed m -> keyed m'.
Proof. intros E Hk k n. rewrite E. apply Hk. Qed.

Lemma keyed_playNode m a loop now : keyed m -> keyed (playNode m a loop now).
Proof.
  intros Hk. unfold playNode.
  destruct (nodes m !! a) as [na|]; [| exact Hk].
  destruct (audioBuffer na) as [buf|]; [| exact Hk].
  assert (H : forall l m0, keyed m0 -> keyed (foldl (playConnected loop now) m0 l)).
  { induction l as [| c l IH]; intros m0 H0; simpl; [exact H0 |].
    apply IH. unfold playConnected.
    destruct (nodes m0 !! c) as [cn|]; [| exact H0].
    destruct (audioBuffer cn); [| exact H0].
    destruct (isPlaying cn); [exact H0 |]. simpl.
    apply keyed_updateNodeState; [reflexivity |].
    now apply (keyed_nodes m0). }
  apply H. apply keyed_updateNodeState; [reflexivity |]. now apply (keyed_nodes m).
Qed.

Lemma keyed_stopConnected m c : keyed m -> keyed (stopConnected m c).
Proof.
  intros Hk. unfold stopConnected.
  apply keyed_updateNodeState; [reflexivity |]. now apply (keyed_nodes m).
Qed.

Lemma keyed_stopNode m a : keyed m -> keyed (stopNode m a).
Proof.
  intros Hk. unfold stopNode.
  assert (H : forall l m0, keyed m0 -> keyed (foldl stopConnected m0 l)).
  { induction l as [| c l IH]; intros m0 H0; simpl; [exact H0 |].
    apply IH. now apply keyed_stopConnected. }
  pose proof (keyed_stopConnected m a Hk) as H1.
  destruct (nodes (stopConnected m a) !! a); [now apply H | exact H1].
Qed.

Lemma keyed_connectNodes m a b : keyed m -> keyed (connectNodes m a b).
Proof.
  intros Hk. unfold connectNodes.
  destruct (nodes m !! a) as [na|]; [| exact Hk].
  destruct (nodes m !! b) as [nb|]; [| exact Hk].
  destruct (negb _); [| exact Hk].
  now repeat (apply keyed_updateNodeState; [reflexivity |]).
Qed.

Lemma keyed_disconnectNodes m a b : keyed m -> keyed (disconnectNodes m a b).
Proof.
  intros Hk. unfold disconnectNodes.
  now repeat (apply keyed_updateNodeState; [reflexivity |]).
Qed.

Lemma keyed_removeNode m a : keyed m -> keyed (removeNode m a).
Proof.
  intros Hk. unfold removeNode.
  destruct (nodes m !! a) as [na|]; [| exact Hk].
  assert (H : forall l m0, keyed m0 ->
             keyed (foldl (fun m c => disconnectNodes m a c) m0 l)).
  { induction l as [| c l IH]; intros m0 H0; simpl; [exact H0 |].
    apply IH. now apply keyed_disconnectNodes. }
  pose proof (H (connections na) _ (keyed_stopNode m a Hk)) as H1.
  intros k n Hn. simpl in Hn. apply lookup_delete_Some in Hn as [_ Hn].
  now apply H1.
Qed.

Lemma simple_alt m :
  simple m <-> forall a la, links m a = Some la -> NoDup la /\ a ∉ la.
Proof.
  split.
  - intros Hs a la Hla. apply links_Some in Hla as (na & Hna & <-). now apply Hs.
  - intros H a na Hna. apply H. apply links_Some. eauto.
Qed.

Lemma simple_same_links m m' :
  (forall x, links m' x = links m x) -> simple m -> simple m'.
Proof.
  intros E Hs. apply simple_alt. intros a la. rewrite E. now apply simple_alt.
Qed.

Lemma simple_disconnectNodes m a b : simple m -> simple (disconnectNodes m a b).
Proof.
  intros Hs. apply simple_alt. intros x lx. rewrite links_disconnectNodes.
  destruct (links m x) as [cs|] eqn:E; simpl; [| discriminate].
  intros [= <-]. destruct (proj1 (simple_alt m) Hs x cs E) as [Hnd Hx].
  assert (H : forall c l, NoDup l -> x ∉ l -> NoDup (without c l) /\ x ∉ without c l).
  { intros c l H1 H2. split; [now apply NoDup_filter |].
    rewrite elem_of_without. tauto. }
  destruct (decide (x = b)), (decide (x = a)); cbn;
    first [ apply H; apply H; assumption | apply H; assumption | split; assumption ].
Qed.

Lemma simple_removeNode m a : linked m -> simple m -> simple (removeNode m a).
Proof.
  intros Hl Hs. apply simple_alt. intros x lx Hx.
  assert (Hxa : x <> a).
  { intros ->. apply links_Some in Hx as (na & Hx & _).
    now rewrite removeNode_gone in Hx. }
  rewrite links_removeNode in Hx by assumption.
  destruct (links m x) as [cs|] eqn:E; simpl in Hx; [| discriminate].
  injection Hx as <-. destruct (proj1 (simple_alt m) Hs x cs E) as [Hnd Hself].
  split; [now apply NoDup_filter |]. rewrite elem_of_without. tauto.
Qed.

Lemma simple_connectNodes m a b :
  a <> b -> linked m -> simple m -> simple (connectNodes m a b).
Proof.
  intros Hab Hl Hs.
  destruct (nodes m !! a) as [na|] eqn:Ha; [| unfold connectNodes; now rewrite Ha].
  destruct (nodes m !! b) as [nb|] eqn:Hb; [| unfold connectNodes; now rewrite Ha, Hb].
  now apply (connectNodes_graph m a b na nb).
Qed.

Lemma simple_createNode m newId newColor file x y m' node :
  simple m -> createNode m newId newColor file x y = inr (m', node) -> simple m'.
Proof.
  intros Hs Hc. unfold createNode in Hc.
  destruct (loadAudioFile _ _); [discriminate |]. injection Hc as <- <-.
  intros k nk Hk. simpl in Hk. apply lookup_insert_Some in Hk as [[<- <-] | [_ Hk]].
  - simpl. split; [constructor | apply not_elem_of_nil].
  - now apply Hs.
Qed.

Lemma keyed_createNode m newId newColor file x y m' node :
  keyed m -> createNode m newId newColor file x y = inr (m', node) -> keyed m'.
Proof.
  intros Hk Hc. unfold createNode in Hc.
  destruct (loadAudioFile _ _); [discriminate |]. injection Hc as <- <-.
  intros k nk Hn. simpl in Hn. apply lookup_insert_Some in Hn as [[<- <-] | [_ Hn]].
  - reflexivity.
  - now apply Hk.
Qed.

(** X30.  On every manager the application can reach, every record is stored
    under its own id and the adjacency lists are symmetric and free of
    duplicates and of self-links. *)
Theorem graph_shape_is_invariant m : reachable m -> keyed m /\ linked m /\ simple m.
Proof.
  induction 1 as [e | m newId newColor file x y m' node _ IH Hfresh Hc
                  | m a b _ IH Hab | m a b _ IH | m a _ IH | m a loop now _ IH
                  | m a _ IH | m a x y _ IH | m e _ IH].
  - split; [| split].
    + intros k n Hn. simpl in Hn. rewrite lookup_empty in Hn. discriminate.
    + intros k n b Hn. simpl in Hn. rewrite lookup_empty in Hn. discriminate.
    + intros k n Hn. simpl in Hn. rewrite lookup_empty in Hn. discriminate.
  - destruct IH as (Hk & Hl & Hs). split; [| split].
    + now apply (keyed_createNode m newId newColor file x y m' node).
    + now apply (linked_createNode m newId newColor file x y m' node).
    + now apply (simple_createNode m newId newColor file x y m' node).
  - destruct IH as (Hk & Hl & Hs). split; [| split].
    + now apply keyed_connectNodes.
    + now apply linked_connectNodes.
    + now apply simple_connectNodes.
  - destruct IH as (Hk & Hl & Hs). split; [| split].
    + now apply keyed_disconnectNodes.
    + now apply linked_disconnectNodes.
    + now apply simple_disconnectNodes.
  - destruct IH as (Hk & Hl & Hs). split; [| split].
    + now apply keyed_removeNode.
    + now apply linked_removeNode.
    + now apply simple_removeNode.
  - destruct IH as (Hk & Hl & Hs). split; [| split].
    + now apply keyed_playNode.
    + now apply linked_playNode.
    + apply (simple_same_links m); [apply links_playNode | exact Hs].
  - destruct IH as (Hk & Hl & Hs). split; [| split].
    + now apply keyed_stopNode.
    + now apply linked_stopNode.
    + apply (simple_same_links m); [apply links_stopNode | exact Hs].
  - destruct IH as (Hk & Hl & Hs). split; [| split].
    + unfold updateNodePosition. now apply keyed_updateNodeState.
    + now apply linked_updateNodePosition.
    + apply (simple_same_links m); [| exact Hs].
      intros k. unfold updateNodePosition. rewrite links_alter.
      destruct (decide (a = k)) as [-> | _]; [| reflexivity].
      unfold links. now destruct (nodes m !! k).
  - destruct IH as (Hk & Hl & Hs). split; [| split].
    + now apply (keyed_nodes m).
    + exact Hl.
    + exact Hs.
Qed.

End ReachableGraph.

Lemma graph_shape_is_invariant_witness :
  reachable (NodeManager.playNode Scenario.first_upload "a" false 0)
  /\ linked (NodeManager.playNode Scenario.first_upload "a" false 0).
Proof.
  assert (H1 : reachable Scenario.first_upload).
  { apply (reach_createNode
             (NodeManager.create (AudioEngine.initialize AudioEngine.create))
             "a" "#ffffff" (Scenario.upload 1) 0 0 _
             (NodeManager.mkNode "a" 0 0 (Some Scenario.clip) "take.wav" false []
                                 "#ffffff"));
      [apply reach_create | reflexivity | reflexivity]. }
  assert (H2 : reachable (NodeManager.playNode Scenario.first_upload "a" false 0))
    by now apply reach_playNode.
  destruct (graph_shape_is_invariant _ H2) as (_ & Hl & _).
  split; [exact H2 | exact Hl].
Defined.
